(** * Conformer-search submission script (examples/Getting_Started/03_Conformer_Search/sdk/run.py)

    A shallow embedding of the script: the Python objects it builds live in
    an explicit object store (dicts and lists are mutable and referenced by
    address), the remote service and the file system are explicit state, and
    exceptions are an error outcome that aborts the rest of the script. *)

From Stdlib Require Import ZArith String Ascii List Lia.
From stdpp Require Import base option list gmap strings fin_maps.

Open Scope string_scope.
Open Scope list_scope.

(** ** Exceptions and outcomes *)

(** [FileNameTooLong] is the [OSError] of errno [ENAMETOOLONG], which has
    no class of its own; [ValueError] is what [open] raises for a path that
    holds a NUL byte. *)
Inductive exn : Type :=
  | KeyError (key : string)
  | TypeError
  | ValueError
  | RecursionError
  | FileExistsError (path : string)
  | FileNotFoundError (path : string)
  | NotADirectoryError (path : string)
  | IsADirectoryError (path : string)
  | FileNameTooLong (path : string)
  | SdkError (msg : string).

Inductive outcome (A : Type) : Type :=
  | Ok (a : A)
  | Raised (e : exn).
Arguments Ok {A} a.
Arguments Raised {A} e.

(** ** Python values *)

Module Py.

(** A value is an immutable atom or the address of a mutable container.
    A float literal [m]e[e] is kept as its decimal mantissa and exponent. *)
Inductive val : Type :=
  | VStr (s : string)
  | VInt (z : Z)
  | VFloat (m e : Z)
  | VBool (b : bool)
  | VRef (l : nat).

(** A dict keeps its items in insertion order. *)
Inductive obj : Type :=
  | ODict (items : list (string * val))
  | OList (elems : list val).

(** The store: address [l] names the [l]-th allocated object. *)
Abbreviation heap := (list obj).

(** The deep, address-free content of a value: what [==] compares and
    what a serializer sees. *)
#[warnings="-register-all"]
Inductive tree : Type :=
  | TStr (s : string)
  | TInt (z : Z)
  | TFloat (m e : Z)
  | TBool (b : bool)
  | TDict (items : list (string * tree))
  | TList (elems : list tree).

Section TreeInd.
Variable P : tree → Prop.
Hypothesis HStr : ∀ s, P (TStr s).
Hypothesis HInt : ∀ z, P (TInt z).
Hypothesis HFloat : ∀ m e, P (TFloat m e).
Hypothesis HBool : ∀ b, P (TBool b).
Hypothesis HDict : ∀ items, Forall (λ kt, P kt.2) items → P (TDict items).
Hypothesis HList : ∀ elems, Forall P elems → P (TList elems).

Fixpoint tree_nested_ind (t : tree) : P t :=
  match t with
  | TStr s => HStr s
  | TInt z => HInt z
  | TFloat m e => HFloat m e
  | TBool b => HBool b
  | TDict items =>
      HDict items
        ((fix go (l : list (string * tree)) : Forall (λ kt, P kt.2) l :=
            match l with
            | [] => @List.Forall_nil _ _
            | (k, t) :: r => @List.Forall_cons _ _ (k, t) r (tree_nested_ind t) (go r)
            end) items)
  | TList elems =>
      HList elems
        ((fix go (l : list tree) : Forall P l :=
            match l with
            | [] => @List.Forall_nil _ _
            | t :: r => @List.Forall_cons _ _ t r (tree_nested_ind t) (go r)
            end) elems)
  end.
End TreeInd.

(** Evaluating a display (a dict or list literal) allocates the children
    left to right, then the container itself. *)
Fixpoint alloc (t : tree) (h : heap) : val * heap :=
  match t with
  | TStr s => (VStr s, h)
  | TInt z => (VInt z, h)
  | TFloat m e => (VFloat m e, h)
  | TBool b => (VBool b, h)
  | TDict items =>
      let '(vs, h') :=
        (fix go (l : list (string * tree)) (h : heap) : list (string * val) * heap :=
           match l with
           | [] => ([], h)
           | (k, t) :: r =>
               let '(v, h1) := alloc t h in
               let '(vs, h2) := go r h1 in
               ((k, v) :: vs, h2)
           end) items h in
      (VRef (length h'), h' ++ [ODict vs])
  | TList elems =>
      let '(vs, h') :=
        (fix go (l : list tree) (h : heap) : list val * heap :=
           match l with
           | [] => ([], h)
           | t :: r =>
               let '(v, h1) := alloc t h in
               let '(vs, h2) := go r h1 in
               (v :: vs, h2)
           end) elems h in
      (VRef (length h'), h' ++ [OList vs])
  end.

Fixpoint alloc_items (l : list (string * tree)) (h : heap) : list (string * val) * heap :=
  match l with
  | [] => ([], h)
  | (k, t) :: r =>
      let '(v, h1) := alloc t h in
      let '(vs, h2) := alloc_items r h1 in
      ((k, v) :: vs, h2)
  end.

Fixpoint alloc_elems (l : list tree) (h : heap) : list val * heap :=
  match l with
  | [] => ([], h)
  | t :: r =>
      let '(v, h1) := alloc t h in
      let '(vs, h2) := alloc_elems r h1 in
      (v :: vs, h2)
  end.

(** Reading the content of a value off the store.  The fuel bounds the
    nesting depth that is followed; [None] is a dangling address or a
    nesting deeper than the fuel. *)
Fixpoint deref (n : nat) (h : heap) (v : val) : option tree :=
  match n with
  | 0 => None
  | S n =>
      match v with
      | VStr s => Some (TStr s)
      | VInt z => Some (TInt z)
      | VFloat m e => Some (TFloat m e)
      | VBool b => Some (TBool b)
      | VRef l =>
          match h !! l with
          | Some (ODict items) =>
              TDict <$> mapM (λ kv, pair kv.1 <$> deref n h kv.2) items
          | Some (OList elems) => TList <$> mapM (deref n h) elems
          | None => None
          end
      end
  end.

(** The addresses visited while reading a value. *)
Fixpoint reach (n : nat) (h : heap) (v : val) : list nat :=
  match n with
  | 0 => []
  | S n =>
      match v with
      | VRef l =>
          l :: match h !! l with
               | Some (ODict items) => flat_map (λ kv, reach n h kv.2) items
               | Some (OList elems) => flat_map (reach n h) elems
               | None => []
               end
      | _ => []
      end
  end.

(** No chain of distinct addresses is longer than the store, so this fuel
    reads every acyclic value in full. *)
Definition value_of (h : heap) (v : val) : option tree := deref (S (length h)) h v.
Definition locs_of (h : heap) (v : val) : list nat := reach (S (length h)) h v.

(** [d[k] = x] on the items of a dict: an existing key keeps its place. *)
Fixpoint dict_set {A} (items : list (string * A)) (k : string) (x : A)
  : list (string * A) :=
  match items with
  | [] => [(k, x)]
  | (k', y) :: r =>
      if String.eqb k' k then (k', x) :: r else (k', y) :: dict_set r k x
  end.

Fixpoint dict_get {A} (items : list (string * A)) (k : string) : option A :=
  match items with
  | [] => None
  | (k', y) :: r => if String.eqb k' k then Some y else dict_get r k
  end.

Definition setitem (h : heap) (r : val) (k : string) (x : val) : outcome heap :=
  match r with
  | VRef l =>
      match h !! l with
      | Some (ODict items) => Ok (<[l := ODict (dict_set items k x)]> h)
      | _ => Raised TypeError
      end
  | _ => Raised TypeError
  end.

Definition getitem (h : heap) (r : val) (k : string) : outcome val :=
  match r with
  | VRef l =>
      match h !! l with
      | Some (ODict items) =>
          match dict_get items k with
          | Some y => Ok y
          | None => Raised (KeyError k)
          end
      | _ => Raised TypeError
      end
  | _ => Raised TypeError
  end.

(** The same two operations on contents. *)
Definition tree_get (t : tree) (k : string) : option tree :=
  match t with
  | TDict items => dict_get items k
  | _ => None
  end.

Definition tree_set (t : tree) (k : string) (x : tree) : tree :=
  match t with
  | TDict items => TDict (dict_set items k x)
  | _ => t
  end.

(** [copy.deepcopy]: a fresh copy of everything reachable, sharing no
    container with the original.  The copy is that of the content, read as
    a tree: it is what Python makes of a value that references each of its
    containers once and is nested no deeper than the interpreter's recursion
    limit allows, as the value of a display of literals such as [job_params]
    is.  A value that shares a container or runs in a cycle is not in the
    scope of this definition. *)
Definition deepcopy (h : heap) (v : val) : outcome (val * heap) :=
  match value_of h v with
  | Some t => Ok (alloc t h)
  | None => Raised RecursionError
  end.

(** Moving a block of objects to another base address. *)
Definition shift_val (a : nat) (v : val) : val :=
  match v with
  | VRef l => VRef (a + l)
  | _ => v
  end.

Definition shift_obj (a : nat) (o : obj) : obj :=
  match o with
  | ODict items => ODict ((λ kv, (kv.1, shift_val a kv.2)) <$> items)
  | OList elems => OList (shift_val a <$> elems)
  end.

Definition embed (a : nat) (L : heap) : heap := shift_obj a <$> L.

(** *** Allocation *)

Lemma alloc_dict items h :
  alloc (TDict items) h =
  (VRef (length (alloc_items items h).2),
   (alloc_items items h).2 ++ [ODict (alloc_items items h).1]).
Proof.
  cbn [alloc].
  match goal with |- (let '(_, _) := ?f items h in _) = _ =>
    assert (E : ∀ l h0, f l h0 = alloc_items l h0) end.
  { induction l as [|[k t] r IH]; intros h0; [done|].
    cbn [alloc_items]. destruct (alloc t h0) as [v h1].
    rewrite IH. done. }
  rewrite E. by destruct (alloc_items items h).
Qed.

Lemma alloc_list elems h :
  alloc (TList elems) h =
  (VRef (length (alloc_elems elems h).2),
   (alloc_elems elems h).2 ++ [OList (alloc_elems elems h).1]).
Proof.
  cbn [alloc].
  match goal with |- (let '(_, _) := ?f elems h in _) = _ =>
    assert (E : ∀ l h0, f l h0 = alloc_elems l h0) end.
  { induction l as [|t r IH]; intros h0; [done|].
    cbn [alloc_elems]. destruct (alloc t h0) as [v h1].
    rewrite IH. done. }
  rewrite E. by destruct (alloc_elems elems h).
Qed.

Lemma embed_app a L1 L2 : embed a (L1 ++ L2) = embed a L1 ++ embed a L2.
Proof. apply fmap_app. Qed.

Lemma length_embed a L : length (embed a L) = length L.
Proof. apply length_fmap. Qed.

(** Allocation does not depend on where the store stands: allocating
    after a block [embed (length h) L] placed behind [h] is allocating
    after [L] and moving the result. *)
Lemma alloc_embed t : ∀ h L,
  alloc t (h ++ embed (length h) L) =
  (shift_val (length h) (alloc t L).1, h ++ embed (length h) (alloc t L).2).
Proof.
  induction t as [s|z|m e|b|items IH|elems IH] using tree_nested_ind;
    intros h L; try done.
  - assert (E : ∀ L0,
      alloc_items items (h ++ embed (length h) L0) =
      ((λ kv, (kv.1, shift_val (length h) kv.2)) <$> (alloc_items items L0).1,
       h ++ embed (length h) (alloc_items items L0).2)).
    { induction IH as [|[k t] r Ht _ IHr]; intros L0; [done|].
      cbn [alloc_items]. cbn in Ht. rewrite Ht.
      destruct (alloc t L0) as [v L1]. cbn [fst snd].
      rewrite IHr. by destruct (alloc_items r L1). }
    rewrite !alloc_dict, E. cbn [fst snd].
    rewrite embed_app, length_app, length_embed, app_assoc. done.
  - assert (E : ∀ L0,
      alloc_elems elems (h ++ embed (length h) L0) =
      (shift_val (length h) <$> (alloc_elems elems L0).1,
       h ++ embed (length h) (alloc_elems elems L0).2)).
    { induction IH as [|t r Ht _ IHr]; intros L0; [done|].
      cbn [alloc_elems]. rewrite Ht.
      destruct (alloc t L0) as [v L1]. cbn [fst snd].
      rewrite IHr. by destruct (alloc_elems r L1). }
    rewrite !alloc_list, E. cbn [fst snd].
    rewrite embed_app, length_app, length_embed, app_assoc. done.
Qed.

Lemma alloc_fresh t h :
  alloc t h = (shift_val (length h) (alloc t []).1, h ++ embed (length h) (alloc t []).2).
Proof.
  rewrite <- (alloc_embed t h []). unfold embed. cbn. by rewrite app_nil_r.
Qed.

(** *** Reading *)

Lemma mapM_agree {A B} (f g : A → option B) (l : list A) :
  Forall (λ x, f x = g x) l → mapM f l = mapM g l.
Proof.
  induction 1 as [|x r Hx _ IH]; [done|].
  cbn. rewrite Hx, IH. done.
Qed.

Lemma flat_map_agree {A B} (f g : A → list B) (l : list A) :
  Forall (λ x, f x = g x) l → flat_map f l = flat_map g l.
Proof.
  induction 1 as [|x r Hx _ IH]; [done|].
  cbn. rewrite Hx, IH. done.
Qed.

Lemma Forall_flat_map_in {A B} (f : A → list B) (P : B → Prop) (l : list A) :
  (∀ y, y ∈ flat_map f l → P y) → Forall (λ x, ∀ y, y ∈ f x → P y) l.
Proof.
  induction l as [|x r IH]; intros H; constructor.
  - intros y Hy. apply H. cbn. apply elem_of_app. by left.
  - apply IH. intros y Hy. apply H. cbn. apply elem_of_app. by right.
Qed.

(** Reading depends only on the objects it visits. *)
Lemma deref_reach_frame n : ∀ h h2 v,
  (∀ l, l ∈ reach n h v → h2 !! l = h !! l) →
  deref n h2 v = deref n h v ∧ reach n h2 v = reach n h v.
Proof.
  induction n as [|n IH]; intros h h2 v H; [done|].
  destruct v as [s|z|m e|b|l]; try done.
  cbn [deref reach] in *.
  assert (E : h2 !! l = h !! l) by (apply H; left).
  rewrite E. destruct (h !! l) as [[items|elems]|] eqn:El; [| |done].
  - assert (F : Forall (λ kv : string * val,
        deref n h2 kv.2 = deref n h kv.2 ∧ reach n h2 kv.2 = reach n h kv.2) items).
    { eapply Forall_impl.
      - apply (Forall_flat_map_in (λ kv : string * val, reach n h kv.2)
                 (λ l0, h2 !! l0 = h !! l0)).
        intros y Hy. apply H. by right.
      - intros kv Hkv. by apply IH. }
    split.
    + f_equal. apply mapM_agree. eapply Forall_impl; [exact F|].
      intros kv [-> _]. done.
    + f_equal. apply flat_map_agree. eapply Forall_impl; [exact F|].
      intros kv [_ ->]. done.
  - assert (F : Forall (λ x : val,
        deref n h2 x = deref n h x ∧ reach n h2 x = reach n h x) elems).
    { eapply Forall_impl.
      - apply (Forall_flat_map_in (reach n h) (λ l0, h2 !! l0 = h !! l0)).
        intros y Hy. apply H. by right.
      - intros x Hx. by apply IH. }
    split.
    + f_equal. apply mapM_agree. eapply Forall_impl; [exact F|].
      intros x [-> _]. done.
    + f_equal. apply flat_map_agree. eapply Forall_impl; [exact F|].
      intros x [_ ->]. done.
Qed.

Lemma deref_frame n h h2 v :
  (∀ l, l ∈ reach n h v → h2 !! l = h !! l) → deref n h2 v = deref n h v.
Proof. intros H. by apply deref_reach_frame. Qed.

Lemma reach_frame n h h2 v :
  (∀ l, l ∈ reach n h v → h2 !! l = h !! l) → reach n h2 v = reach n h v.
Proof. intros H. by apply deref_reach_frame. Qed.

Lemma deref_ref n h l :
  deref (S n) h (VRef l) =
  match h !! l with
  | Some (ODict items) => TDict <$> mapM (λ kv, pair kv.1 <$> deref n h kv.2) items
  | Some (OList elems) => TList <$> mapM (deref n h) elems
  | None => None
  end.
Proof. done. Qed.

Lemma reach_ref n h l :
  reach (S n) h (VRef l) =
  l :: match h !! l with
       | Some (ODict items) => flat_map (λ kv, reach n h kv.2) items
       | Some (OList elems) => flat_map (reach n h) elems
       | None => []
       end.
Proof. done. Qed.

(** More fuel reads the same content and visits the same addresses. *)
Lemma deref_reach_S n : ∀ h v t,
  deref n h v = Some t →
  deref (S n) h v = Some t ∧ reach (S n) h v = reach n h v.
Proof.
  induction n as [|n IH]; intros h v t H; [done|].
  destruct v as [s|z|m e|b|l]; try done.
  rewrite deref_ref in H. rewrite deref_ref, !reach_ref.
  destruct (h !! l) as [[items|elems]|] eqn:El; [| |done].
  - assert (F : Forall (λ kv : string * val,
        deref (S n) h kv.2 = deref n h kv.2 ∧ reach (S n) h kv.2 = reach n h kv.2) items).
    { destruct (mapM (λ kv : string * val, pair kv.1 <$> deref n h kv.2) items)
        as [kts|] eqn:EM; [|done].
      apply mapM_Some in EM. clear -EM IH.
      induction EM as [|kv kt r rt Hk _ IHr]; constructor; [|done].
      destruct (deref n h kv.2) as [t0|] eqn:Ed; [|done].
      destruct (IH _ _ _ Ed) as [-> ->]. done. }
    split.
    + rewrite <- H. f_equal. apply mapM_agree. eapply Forall_impl; [exact F|].
      intros kv [-> _]. done.
    + f_equal. apply flat_map_agree. eapply Forall_impl; [exact F|].
      intros kv [_ ->]. done.
  - assert (F : Forall (λ x : val,
        deref (S n) h x = deref n h x ∧ reach (S n) h x = reach n h x) elems).
    { destruct (mapM (deref n h) elems) as [ts|] eqn:EM; [|done].
      apply mapM_Some in EM. clear -EM IH.
      induction EM as [|x t0 r rt Hk _ IHr]; constructor; [|done].
      destruct (IH _ _ _ Hk) as [-> ->]. done. }
    split.
    + rewrite <- H. f_equal. apply mapM_agree. eapply Forall_impl; [exact F|].
      intros x [-> _]. done.
    + f_equal. apply flat_map_agree. eapply Forall_impl; [exact F|].
      intros x [_ ->]. done.
Qed.

Lemma deref_reach_fuel n m h v t :
  deref n h v = Some t → (n ≤ m)%nat →
  deref m h v = Some t ∧ reach m h v = reach n h v.
Proof.
  intros H Hle. induction Hle as [|m Hle [IH1 IH2]]; [done|].
  destruct (deref_reach_S _ _ _ _ IH1) as [-> ->]. done.
Qed.

(** *** Blocks placed behind a store *)

Lemma lookup_embed h L rest l o :
  L !! l = Some o →
  (h ++ embed (length h) L ++ rest) !! (length h + l)%nat = Some (shift_obj (length h) o).
Proof.
  intros H. rewrite lookup_app_r by lia.
  replace (length h + l - length h)%nat with l by lia.
  apply lookup_app_l_Some. unfold embed. rewrite list_lookup_fmap, H. done.
Qed.

(** A value that reads in full inside a block reads the same once the
    block stands behind a store, and only the block is visited. *)
Lemma deref_reach_embed n : ∀ h L rest v t,
  deref n L v = Some t →
  deref n (h ++ embed (length h) L ++ rest) (shift_val (length h) v) = Some t ∧
  Forall (λ l, (length h ≤ l < length h + length L)%nat)
         (reach n (h ++ embed (length h) L ++ rest) (shift_val (length h) v)).
Proof.
  induction n as [|n IH]; intros h L rest v t H; [done|].
  destruct v as [s|z|m e|b|l]; try (split; [done|constructor]).
  cbn [shift_val]. rewrite deref_ref in H. rewrite deref_ref, reach_ref.
  destruct (L !! l) as [o|] eqn:El; [|done].
  pose proof (lookup_lt_Some _ _ _ El) as Hl.
  rewrite (lookup_embed h L rest l o El).
  destruct o as [items|elems]; cbn [shift_obj].
  - destruct (mapM (λ kv : string * val, pair kv.1 <$> deref n L kv.2) items)
      as [kts|] eqn:EM; [|done].
    apply mapM_Some in EM.
    assert (F : Forall2 (λ (kv : string * val) (kt : string * tree),
        pair kv.1 <$> deref n (h ++ embed (length h) L ++ rest)
                        (shift_val (length h) kv.2) = Some kt ∧
        Forall (λ l, (length h ≤ l < length h + length L)%nat)
          (reach n (h ++ embed (length h) L ++ rest) (shift_val (length h) kv.2)))
        items kts).
    { clear -EM IH. induction EM as [|kv kt r rt Hk _ IHr]; constructor; [|done].
      destruct (deref n L kv.2) as [t0|] eqn:Ed; [|done].
      destruct (IH h L rest _ _ Ed) as [-> Hr]. done. }
    split.
    + rewrite <- H. f_equal. apply mapM_Some. apply Forall2_fmap_l.
      eapply Forall2_impl; [exact F|]. intros kv kt [Hd _]. exact Hd.
    + constructor; [lia|]. clear -F.
      induction F as [|kv kt r rt [_ Hk] _ IHr]; [constructor|].
      cbn. apply Forall_app. done.
  - destruct (mapM (deref n L) elems) as [ts|] eqn:EM; [|done].
    apply mapM_Some in EM.
    assert (F : Forall2 (λ (x : val) (t0 : tree),
        deref n (h ++ embed (length h) L ++ rest) (shift_val (length h) x) = Some t0 ∧
        Forall (λ l, (length h ≤ l < length h + length L)%nat)
          (reach n (h ++ embed (length h) L ++ rest) (shift_val (length h) x)))
        elems ts).
    { clear -EM IH. induction EM as [|x t0 r rt Hk _ IHr]; constructor; [|done].
      by apply IH. }
    split.
    + rewrite <- H. f_equal. apply mapM_Some. apply Forall2_fmap_l.
      eapply Forall2_impl; [exact F|]. intros x t0 [Hd _]. exact Hd.
    + constructor; [lia|]. clear -F.
      induction F as [|x t0 r rt [_ Hk] _ IHr]; [constructor|].
      cbn. apply Forall_app. done.
Qed.

Lemma dict_set_shift a items k x :
  dict_set ((λ kv, (kv.1, shift_val a kv.2)) <$> items) k (shift_val a x) =
  (λ kv, (kv.1, shift_val a kv.2)) <$> dict_set items k x.
Proof.
  induction items as [|[k' y] r IH]; [done|].
  cbn. destruct (String.eqb k' k); [done|]. cbn. by rewrite IH.
Qed.

Lemma dict_get_shift a items k :
  dict_get ((λ kv, (kv.1, shift_val a kv.2)) <$> items) k =
  shift_val a <$> dict_get items k.
Proof.
  induction items as [|[k' y] r IH]; [done|].
  cbn. destruct (String.eqb k' k); done.
Qed.

Lemma setitem_embed h L r k x L' :
  setitem L r k x = Ok L' →
  setitem (h ++ embed (length h) L) (shift_val (length h) r) k (shift_val (length h) x)
  = Ok (h ++ embed (length h) L').
Proof.
  destruct r as [| | | |l]; try done. cbn [setitem shift_val].
  destruct (L !! l) as [[items|elems]|] eqn:El; try done.
  intros [= <-].
  pose proof (lookup_embed h L [] l _ El) as E. rewrite app_nil_r in E.
  rewrite E. cbn [shift_obj]. f_equal.
  rewrite insert_app_r. f_equal.
  unfold embed. rewrite list_fmap_insert. cbn [shift_obj].
  by rewrite dict_set_shift.
Qed.

Lemma getitem_embed h L r k y :
  getitem L r k = Ok y →
  getitem (h ++ embed (length h) L) (shift_val (length h) r) k
  = Ok (shift_val (length h) y).
Proof.
  destruct r as [| | | |l]; try done. cbn [getitem shift_val].
  destruct (L !! l) as [[items|elems]|] eqn:El; try done.
  pose proof (lookup_embed h L [] l _ El) as E. rewrite app_nil_r in E.
  rewrite E. cbn [shift_obj]. rewrite dict_get_shift.
  destruct (dict_get items k); [|done]. by intros [= <-].
Qed.

(** *** Values that stay what they are *)

(** Objects allocated later do not change a value that reads in full. *)
Lemma value_of_extend h ext v t :
  value_of h v = Some t →
  Forall (λ l, (l < length h)%nat) (locs_of h v) →
  value_of (h ++ ext) v = Some t ∧ locs_of (h ++ ext) v = locs_of h v.
Proof.
  unfold value_of, locs_of. intros Hv Hl.
  destruct (deref_reach_frame (S (length h)) h (h ++ ext) v) as [Ed Er].
  { intros l Hin. rewrite Forall_forall in Hl. apply lookup_app_l. by apply Hl. }
  rewrite <- Ed in Hv. rewrite <- Er.
  apply deref_reach_fuel; [done|]. rewrite length_app. lia.
Qed.

(** Replacing an object that a value does not visit does not change it. *)
Lemma value_of_update h v l o :
  l ∉ locs_of h v →
  value_of (<[l := o]> h) v = value_of h v ∧ locs_of (<[l := o]> h) v = locs_of h v.
Proof.
  unfold value_of, locs_of. intros Hl. rewrite length_insert.
  apply deref_reach_frame. intros l' Hin.
  apply list_lookup_insert_ne. intros ->. done.
Qed.

(** A block behind a store holds the values it held on its own. *)
Lemma value_of_embed h L v t n :
  deref n L v = Some t → (n ≤ S (length L))%nat →
  value_of (h ++ embed (length h) L) (shift_val (length h) v) = Some t ∧
  Forall (λ l, (length h ≤ l < length h + length L)%nat)
         (locs_of (h ++ embed (length h) L) (shift_val (length h) v)).
Proof.
  intros Hd Hn. unfold value_of, locs_of.
  destruct (deref_reach_embed n h L [] v t Hd) as [Ed Er].
  rewrite app_nil_r in Ed, Er.
  destruct (deref_reach_fuel n (S (length (h ++ embed (length h) L))) _ _ _ Ed)
    as [-> ->]; [|done].
  rewrite length_app, length_embed. lia.
Qed.

End Py.

(** ** The file system

    A tree of directories and regular files below the root, and the
    working directory of the process.  A location is the list of the names
    that lead from the root to an entry.  A path is resolved as Linux
    resolves it, one component after the other.  A string stands for its
    bytes (a Python [str] for its UTF-8 encoding).  The map holds an entry
    for the working directory and for every directory on the way to an
    entry, the root apart, which is always there.  There are no symbolic
    links, and the process may search every directory and write to every
    directory and file it reaches: creating an entry does not fail for want
    of permission or of space. *)

Module Fs.

Inductive entry : Type :=
  | Dir
  | File (content : string).

Abbreviation loc := (list string).

Record t : Type := mk {
  cwd : loc;
  entries : gmap loc entry
}.

(** The root as working directory, with nothing in it. *)
#[global] Instance empty : Empty t := mk [] ∅.

Definition store (l : loc) (e : entry) (fs : t) : t :=
  mk (cwd fs) (<[l := e]> (entries fs)).

(** The limits of Linux: a name has at most 255 bytes, a path fewer than
    4096. *)
Definition NAME_MAX : nat := 255.
Definition PATH_MAX : nat := 4096.

Definition NUL : ascii := Ascii.zero.

Fixpoint contains (c : ascii) (s : string) : bool :=
  match s with
  | EmptyString => false
  | String a r => Ascii.eqb a c || contains c r
  end.

Fixpoint dirname_aux (p : string) : option string :=
  match p with
  | EmptyString => None
  | String c r =>
      match dirname_aux r with
      | Some d => Some (String c d)
      | None => if Ascii.eqb c "/" then Some EmptyString else None
      end
  end.

(** [os.path.dirname] of a relative path: what stands before the last
    slash, the empty string (the working directory) without one. *)
Definition dirname (p : string) : string := default EmptyString (dirname_aux p).

(** A path cut at every slash: the names before the last slash, and what
    stands after it. *)
Fixpoint split (p : string) : list string * string :=
  match p with
  | EmptyString => ([], EmptyString)
  | String c r =>
      let '(ds, n) := split r in
      if Ascii.eqb c "/" then (EmptyString :: ds, n)
      else match ds with
           | [] => ([], String c n)
           | d :: ds' => (String c d :: ds', n)
           end
  end.

(** Without the empty names at the end. *)
Fixpoint strip (cs : list string) : list string :=
  match cs with
  | [] => []
  | c :: rest =>
      match strip rest with
      | [] => if String.eqb c EmptyString then [] else [c]
      | r => c :: r
      end
  end.

(** Walking down the directories [dirs] from the directory at [d]: an
    empty name and [.] stay, [..] goes up, any other name must be that of a
    directory.  The errors carry the whole path [p], as Python reports it. *)
Fixpoint walk (fs : t) (p : string) (d : loc) (dirs : list string) : outcome loc :=
  match dirs with
  | [] => Ok d
  | c :: rest =>
      if String.eqb c EmptyString || String.eqb c "." then walk fs p d rest
      else if String.eqb c ".." then walk fs p (removelast d) rest
      else if Nat.ltb NAME_MAX (String.length c) then Raised (FileNameTooLong p)
      else match entries fs !! (d ++ [c]) with
           | Some Dir => walk fs p (d ++ [c]) rest
           | Some (File _) => Raised (NotADirectoryError p)
           | None => Raised (FileNotFoundError p)
           end
  end.

Definition absolute (p : string) : bool :=
  match p with
  | String c _ => Ascii.eqb c "/"
  | EmptyString => false
  end.

(** Where the file that a path names is or would be.  A path that ends
    in a slash, in [.] or in [..] names a directory, not a file. *)
Definition locate (fs : t) (p : string) : outcome loc :=
  if contains NUL p then Raised ValueError
  else if String.eqb p EmptyString then Raised (FileNotFoundError p)
  else if Nat.leb PATH_MAX (String.length p) then Raised (FileNameTooLong p)
  else
    let '(dirs, name) := split p in
    let start := if absolute p then [] else cwd fs in
    if String.eqb name EmptyString then
      match walk fs p start (removelast (strip dirs)) with
      | Raised e => Raised e
      | Ok _ => Raised (IsADirectoryError p)
      end
    else
      match walk fs p start dirs with
      | Raised e => Raised e
      | Ok d =>
          if String.eqb name "." || String.eqb name ".." then Raised (IsADirectoryError p)
          else if Nat.ltb NAME_MAX (String.length name) then Raised (FileNameTooLong p)
          else Ok (d ++ [name])
      end.

(** [os.path.exists], for a path that ends in a proper name: true of a
    directory and of a regular file alike, false when the path does not
    resolve. *)
Definition path_exists (fs : t) (p : string) : bool :=
  match locate fs p with
  | Ok l =>
      match entries fs !! l with
      | Some _ => true
      | None => false
      end
  | Raised _ => false
  end.

(** [os.makedirs p] for a path whose parent directory exists, which is how
    the script calls it: one directory is made. *)
Definition makedirs (p : string) (fs : t) : outcome t :=
  match locate fs p with
  | Raised e => Raised e
  | Ok l =>
      match entries fs !! l with
      | Some _ => Raised (FileExistsError p)
      | None => Ok (store l Dir fs)
      end
  end.

(** [open(p, "w")]: the file is created or truncated; what is returned
    stands for the file object, the location of the open file. *)
Definition open_w (p : string) (fs : t) : outcome (loc * t) :=
  match locate fs p with
  | Raised e => Raised e
  | Ok l =>
      match entries fs !! l with
      | Some Dir => Raised (IsADirectoryError p)
      | _ => Ok (l, store l (File EmptyString) fs)
      end
  end.

(** [fp.write(s)] on the open file [fp], closed right after. *)
Definition write (fp : loc) (s : string) (fs : t) : t :=
  match entries fs !! fp with
  | Some (File old) => store fp (File (old +:+ s)) fs
  | _ => fs
  end.

(** The content of the regular file that a path names. *)
Definition read (p : string) (fs : t) : option string :=
  match locate fs p with
  | Ok l =>
      match entries fs !! l with
      | Some (File s) => Some s
      | _ => None
      end
  | Raised _ => None
  end.

End Fs.

(** ** The SDK, an external collaborator

    The [promethium_sdk] package is not part of the sources: the script
    only calls it.  It is taken as an interface. *)

(** Modelled from the spec: the status of a workflow, an enumeration of
    pending, running, completed and failed, of which the last two are
    terminal (the SDK's own type is not in the sources). *)
Inductive Status : Type := Pending | Running | Completed | Failed.

Definition is_terminal (s : Status) : bool :=
  match s with
  | Completed | Failed => true
  | Pending | Running => false
  end.

(** Modelled from the spec: what [submit] and [get] return, with the
    attributes the script reads: [id], [name], [status] and
    [duration_seconds] (a decimal, mantissa and exponent). *)
Record Workflow : Type := mkWorkflow {
  wf_id : string;
  wf_name : string;
  wf_status : Status;
  wf_duration_seconds : Z * Z
}.

(** Modelled from the spec: the operations of the SDK that the script
    uses.  The remote service is a state [World] that every client call may
    advance; a call returns or raises.  [base64encode], the request
    constructor, the serializer [model_dump_json] and [get_artifact] act on
    values only. *)
Class Sdk : Type := {
  World : Type;
  Request : Type;
  WorkflowResult : Type;
  Artifact : Type;
  base64encode : string → string;
  CreateConformerSearchWorkflowRequest : Py.tree → outcome Request;
  PromethiumClient : World → outcome unit * World;
  submit : Request → World → outcome Workflow * World;
  wait : string → World → outcome unit * World;
  get : string → World → outcome Workflow * World;
  results : string → World → outcome WorkflowResult * World;
  model_dump_json : WorkflowResult → outcome string;
  get_artifact : WorkflowResult → string → outcome Artifact
}.

(** ** The script *)

Section Script.
Context `{sdk : Sdk}.

Inductive line : Type :=
  | LineSubmitted (name id : string)
  | LineCompleted (name : string) (status : Status)
  | LineDuration (seconds : Z * Z)
  | LineConformersHeader
  | LineConformers (conformers : Artifact).

(** What the script does to the outside, in order. *)
Inductive event : Type :=
  | EvMakedirs (path : string) (r : outcome unit)
  | EvSubmit (payload : Py.tree) (r : outcome Workflow)
  | EvWait (id : string) (r : outcome unit)
  | EvGet (id : string) (r : outcome Workflow)
  | EvResults (id : string) (r : outcome WorkflowResult)
  | EvOpen (path : string) (r : outcome unit)
  | EvWrite (path content : string)
  | EvPrint (l : line).

Record state : Type := mkState {
  objects : Py.heap;
  world : World;
  files : Fs.t;
  trace : list event
}.

(** A statement: it returns or raises, and leaves a state either way. *)
Definition M (A : Type) : Type := state → outcome A * state.

Definition ret {A} (a : A) : M A := λ st, (Ok a, st).

Definition bind {A B} (m : M A) (f : A → M B) : M B :=
  λ st, match m st with
        | (Ok a, st') => f a st'
        | (Raised e, st') => (Raised e, st')
        end.

Definition emit (e : event) : M unit :=
  λ st, (Ok tt, mkState (objects st) (world st) (files st) (trace st ++ [e])).

Definition lift_outcome {A} (r : outcome A) : M A := λ st, (r, st).

Definition on_heap {A} (f : Py.heap → outcome (A * Py.heap)) : M A :=
  λ st, match f (objects st) with
        | Ok (a, h) => (Ok a, mkState h (world st) (files st) (trace st))
        | Raised e => (Raised e, st)
        end.

(** A client call, logged with what it returned. *)
Definition call {A} (f : World → outcome A * World) (log : outcome A → event) : M A :=
  λ st, let '(r, w) := f (world st) in
        (r, mkState (objects st) w (files st) (trace st ++ [log r])).

End Script.

Declare Scope stmt_scope.
Delimit Scope stmt_scope with stmt.
Notation "'let*' x ':=' m 'in' k" := (bind m (λ x, k))
  (at level 10, x pattern, m at level 100, k at level 200)
  : stmt_scope.

Section Program.
Context `{sdk : Sdk}.
Import Py.
Open Scope stmt_scope.

Definition foldername : string := "output".

(** [os.getenv(k, d)] *)
Definition getenv (env : gmap string string) (k d : string) : string :=
  default d (env !! k).

Definition base_url (env : gmap string string) : string :=
  getenv env "PM_API_BASE_URL" "https://api.promethium.qcware.com".

Definition gpu_type (env : gmap string string) : string :=
  getenv env "PM_GPU_TYPE" "a100".

(** The configuration display of lines 51-119. *)
Definition job_params : tree :=
  TDict [
    ("name", TStr "name_placeholder");
    ("version", TStr "v1");
    ("kind", TStr "ConformerSearch");
    ("parameters", TDict [
      ("molecule", TDict []);
      ("params", TDict [
        ("confgen_max_n_conformers", TInt 50);
        ("confgen_rmsd_threshold", TFloat 3 (-1));
        ("charge", TInt 0);
        ("multiplicity", TInt 1)]);
      ("filters", TList [
        TDict [
          ("filtertype", TStr "ForceField");
          ("params", TDict [
            ("do_geometry_optimization", TBool true);
            ("forcefield_type", TStr "MMFF");
            ("max_n_conformers", TInt 50);
            ("energy_threshold", TInt 15);
            ("rmsd_threshold", TFloat 3 (-1));
            ("coulomb_distance_threshold", TFloat 5 (-3))]);
          ("key", TStr "FF")];
        TDict [
          ("filtertype", TStr "ANI");
          ("params", TDict [
            ("max_n_conformers", TInt 10);
            ("energy_threshold", TInt 10);
            ("distance_threshold", TFloat 5 (-3));
            ("do_geometry_optimization", TBool true)]);
          ("key", TStr "ANI")];
        TDict [
          ("filtertype", TStr "DFT");
          ("params", TDict [
            ("maxiter", TInt 15);
            ("energy_threshold", TInt 5);
            ("do_geometry_optimization", TBool true);
            ("distance_threshold", TFloat 5 (-3));
            ("g_thresh", TFloat 1 (-4))]);
          ("system", TDict [
            ("params", TDict [
              ("basisname", TStr "def2-svp");
              ("jkfit_basisname", TStr "def2-universal-jkfit");
              ("methodname", TStr "b3lyp-d3");
              ("xc_grid_scheme", TStr "SG1");
              ("pcm_epsilon", TFloat 804 (-1));
              ("pcm_spherical_npoint", TInt 110)])]);
          ("hf", TDict [
            ("params", TDict [("g_convergence", TFloat 1 (-6))])]);
          ("jk_builder", TDict [
            ("type", TStr "core_dfjk");
            ("params", TDict [])]);
          ("key", TStr "DFT Stage 1 (Coarse Filtering)")]])]);
    ("resources", TDict [("gpu_type", TStr "a100")])].

(** Lines 127-132: the copy of the template made for one input. *)
Definition tmp_job_params (tmpl : val) (smile smile_name : string) (h : heap)
  : outcome (val * heap) :=
  match deepcopy h tmpl with
  | Raised e => Raised e
  | Ok (tmp, h1) =>
      match setitem h1 tmp "name" (VStr (smile_name +:+ "_api_conformer-search")) with
      | Raised e => Raised e
      | Ok h2 =>
          let '(molecule, h3) :=
            alloc (TDict [("base64data", TStr (base64encode smile));
                          ("filetype", TStr "smi")]) h2 in
          match getitem h3 tmp "parameters" with
          | Raised e => Raised e
          | Ok parameters =>
              match setitem h3 parameters "molecule" molecule with
              | Raised e => Raised e
              | Ok h4 => Ok (tmp, h4)
              end
          end
      end
  end.

(** The heap effect of lines 126-132 over all inputs: the dicts built,
    in input order. *)
Fixpoint build_payloads (tmpl : val) (inputs : list (string * string)) (h : heap)
  : outcome (list val * heap) :=
  match inputs with
  | [] => Ok ([], h)
  | (smile, smile_name) :: rest =>
      match tmp_job_params tmpl smile smile_name h with
      | Raised e => Raised e
      | Ok (tmp, h1) =>
          match build_payloads tmpl rest h1 with
          | Raised e => Raised e
          | Ok (tmps, h2) => Ok (tmp :: tmps, h2)
          end
      end
  end.

(** The content a payload is expected to have: the template with the two
    molecule-specific entries replaced. *)
Definition molecule_for (smile : string) : tree :=
  TDict [("base64data", TStr (base64encode smile)); ("filetype", TStr "smi")].

Definition name_for (smile_name : string) : string :=
  smile_name +:+ "_api_conformer-search".

Definition payload_for (smile smile_name : string) : tree :=
  let t := tree_set job_params "name" (TStr (name_for smile_name)) in
  match tree_get t "parameters" with
  | Some parameters =>
      tree_set t "parameters" (tree_set parameters "molecule" (molecule_for smile))
  | None => t
  end.

(** Lines 127-132 run on a store that holds nothing but the copy. *)
Definition local_copy (smile smile_name : string) : outcome (val * heap) :=
  let '(tmp, h1) := alloc job_params [] in
  match setitem h1 tmp "name" (VStr (smile_name +:+ "_api_conformer-search")) with
  | Raised e => Raised e
  | Ok h2 =>
      let '(molecule, h3) :=
        alloc (TDict [("base64data", TStr (base64encode smile));
                      ("filetype", TStr "smi")]) h2 in
      match getitem h3 tmp "parameters" with
      | Raised e => Raised e
      | Ok parameters =>
          match setitem h3 parameters "molecule" molecule with
          | Raised e => Raised e
          | Ok h4 => Ok (tmp, h4)
          end
      end
  end.

(** The store holds the template: it reads as the configuration display
    and lives in the first 18 objects. *)
Definition template_ok (tmpl : val) (h : heap) : Prop :=
  value_of h tmpl = Some job_params ∧
  Forall (λ l, (l < 18)%nat) (locs_of h tmpl) ∧
  (18 ≤ length h)%nat.

(** [**tmp_job_params]: the request is built from the content of the dict. *)
Definition kwargs (tmp : val) (h : heap) : outcome (tree * heap) :=
  match value_of h tmp with
  | Some t => Ok (t, h)
  | None => Raised RecursionError
  end.

(** Lines 126-136. *)
Fixpoint submit_loop (tmpl : val) (inputs : list (string * string))
    (workflow_ids : list string) : M (list string) :=
  match inputs with
  | [] => ret workflow_ids
  | (smile, smile_name) :: rest =>
      let* tmp := on_heap (tmp_job_params tmpl smile smile_name) in
      let* kw := on_heap (kwargs tmp) in
      let* payload := lift_outcome (CreateConformerSearchWorkflowRequest kw) in
      let* workflow := call (submit payload) (EvSubmit kw) in
      let workflow_ids := workflow_ids ++ [wf_id workflow] in
      let* _ := emit (EvPrint (LineSubmitted (wf_name workflow) (wf_id workflow))) in
      submit_loop tmpl rest workflow_ids
  end.

Definition open_file (p : string) : M Fs.loc :=
  λ st, match Fs.open_w p (files st) with
        | Ok (fp, fs) =>
            (Ok fp, mkState (objects st) (world st) fs (trace st ++ [EvOpen p (Ok tt)]))
        | Raised e =>
            (Raised e, mkState (objects st) (world st) (files st)
                               (trace st ++ [EvOpen p (Raised e)]))
        end.

(** [fp.write(s)], logged with the path [fp] was opened at. *)
Definition write_file (p : string) (fp : Fs.loc) (s : string) : M unit :=
  λ st, (Ok tt, mkState (objects st) (world st) (Fs.write fp s (files st))
                        (trace st ++ [EvWrite p s])).

(** The path of line 159. *)
Definition result_path (name : string) : string :=
  foldername +:+ "/" +:+ name +:+ "_results.json".

(** Lines 149-166: one workflow of the second loop. *)
Definition collect (workflow_id : string) : M unit :=
  let* _ := call (wait workflow_id) (EvWait workflow_id) in
  let* workflow := call (get workflow_id) (EvGet workflow_id) in
  let* _ := emit (EvPrint (LineCompleted (wf_name workflow) (wf_status workflow))) in
  let* _ := emit (EvPrint (LineDuration (wf_duration_seconds workflow))) in
  let* cs_results := call (results workflow_id) (EvResults workflow_id) in
  let path := result_path (wf_name workflow) in
  let* fp := open_file path in
  let* text := lift_outcome (model_dump_json cs_results) in
  let* _ := write_file path fp text in
  let* conformers := lift_outcome (get_artifact cs_results "conformers") in
  let* _ := emit (EvPrint LineConformersHeader) in
  emit (EvPrint (LineConformers conformers)).

(** Lines 148-166. *)
Fixpoint collect_loop (workflow_ids : list string) : M unit :=
  match workflow_ids with
  | [] => ret tt
  | workflow_id :: rest =>
      let* _ := collect workflow_id in
      collect_loop rest
  end.

(** Lines 33-34. *)
Definition make_output_dir : M unit :=
  λ st, if Fs.path_exists (files st) foldername then (Ok tt, st)
        else match Fs.makedirs foldername (files st) with
             | Ok fs =>
                 (Ok tt, mkState (objects st) (world st) fs
                                 (trace st ++ [EvMakedirs foldername (Ok tt)]))
             | Raised e =>
                 (Raised e, mkState (objects st) (world st) (files st)
                                    (trace st ++ [EvMakedirs foldername (Raised e)]))
             end.

(** [PromethiumClient()]: no argument is passed. *)
Definition new_client : M unit :=
  λ st, let '(r, w) := PromethiumClient (world st) in
        (r, mkState (objects st) w (files st) (trace st)).

(** Lines 29-136, for the inputs [SMILES] and [SMILES_Names]: everything
    up to the end of the first loop, returning [workflow_ids]. *)
Definition submission (env : gmap string string) (SMILES SMILES_Names : list string)
  : M (list string) :=
  let base_url := base_url env in
  let gpu_type := gpu_type env in
  let* _ := make_output_dir in
  let* tmpl := on_heap (λ h, Ok (alloc job_params h)) in
  let* prom := new_client in
  submit_loop tmpl (zip SMILES SMILES_Names) [].

(** The whole script. *)
Definition main (env : gmap string string) (SMILES SMILES_Names : list string) : M unit :=
  let* workflow_ids := submission env SMILES SMILES_Names in
  collect_loop workflow_ids.

(** What the first loop does to the outside, the object store left out:
    the workflows accepted, the service afterwards, the events. *)
Fixpoint submit_trace (inputs : list (string * string)) (w : World)
  : outcome (list Workflow) * World * list event :=
  match inputs with
  | [] => (Ok [], w, [])
  | (smile, smile_name) :: rest =>
      let kw := payload_for smile smile_name in
      match CreateConformerSearchWorkflowRequest kw with
      | Raised e => (Raised e, w, [])
      | Ok payload =>
          match submit payload w with
          | (Raised e, w1) => (Raised e, w1, [EvSubmit kw (Raised e)])
          | (Ok workflow, w1) =>
              let '(r, w2, tr) := submit_trace rest w1 in
              (match r with
               | Ok wfs => Ok (workflow :: wfs)
               | Raised e => Raised e
               end, w2,
               EvSubmit kw (Ok workflow)
                 :: EvPrint (LineSubmitted (wf_name workflow) (wf_id workflow)) :: tr)
          end
      end
  end.

(** The submissions among the events, in order. *)
Definition submits (tr : list event) : list (tree * outcome Workflow) :=
  omap (λ e, match e with EvSubmit kw r => Some (kw, r) | _ => None end) tr.

Definition is_submit_phase (e : event) : bool :=
  match e with
  | EvSubmit _ _ | EvPrint (LineSubmitted _ _) => true
  | _ => false
  end.

(** The events of the second loop that concern the workflow [id]. *)
Definition about (id : string) (e : event) : bool :=
  match e with
  | EvWait i _ | EvGet i _ | EvResults i _ => String.eqb i id
  | EvOpen _ _ | EvWrite _ _ => true
  | EvPrint (LineSubmitted _ _) => false
  | EvPrint _ => true
  | _ => false
  end.

Definition is_collect_phase (e : event) : bool :=
  match e with
  | EvWait _ _ | EvGet _ _ | EvResults _ _ | EvOpen _ _ | EvWrite _ _ => true
  | EvPrint (LineSubmitted _ _) => false
  | EvPrint _ => true
  | _ => false
  end.

Definition initial (w : World) (fs : Fs.t) : state := mkState [] w fs [].

Definition run (env : gmap string string) (SMILES SMILES_Names : list string)
    (w : World) (fs : Fs.t) : outcome unit * state :=
  main env SMILES SMILES_Names (initial w fs).

End Program.

(** ** A test double of the SDK

    A service that accepts a request unless its name is rejected, finishes
    a workflow when it is waited for, and keeps every workflow it
    accepted.  It serves to run the script on concrete inputs. *)

Module Mock.
Import Py.

Definition alphabet : string :=
  "ABCDEFGHIJKLMNOPQRSTUVWXYZabcdefghijklmnopqrstuvwxyz0123456789+/".

Definition digit (n : N) : ascii :=
  default "="%char (String.get (N.to_nat (N.land n 63)) alphabet).

(** Standard base64 of the bytes of a string, with padding. *)
Fixpoint b64 (s : string) : string :=
  match s with
  | EmptyString => EmptyString
  | String a EmptyString =>
      let n := N.shiftl (N_of_ascii a) 16 in
      String (digit (N.shiftr n 18)) (String (digit (N.shiftr n 12)) "==")
  | String a (String b EmptyString) =>
      let n := N.lor (N.shiftl (N_of_ascii a) 16) (N.shiftl (N_of_ascii b) 8) in
      String (digit (N.shiftr n 18)) (String (digit (N.shiftr n 12))
        (String (digit (N.shiftr n 6)) "="))
  | String a (String b (String c r)) =>
      let n := N.lor (N.lor (N.shiftl (N_of_ascii a) 16) (N.shiftl (N_of_ascii b) 8))
                     (N_of_ascii c) in
      String (digit (N.shiftr n 18)) (String (digit (N.shiftr n 12))
        (String (digit (N.shiftr n 6)) (String (digit n) (b64 r))))
  end.

Definition name_of (kw : tree) : string :=
  match kw with
  | TDict (("name", TStr s) :: _) => s
  | _ => EmptyString
  end.

Definition finish (id : string) (wf : Workflow) : Workflow :=
  if String.eqb (wf_id wf) id
  then mkWorkflow (wf_id wf) (wf_name wf) Completed (125, -2)%Z
  else wf.

Definition find (id : string) (w : list Workflow) : option Workflow :=
  List.find (λ wf, String.eqb (wf_id wf) id) w.

Definition service (reject : string → bool) : Sdk := {|
  World := list Workflow;
  Request := tree;
  WorkflowResult := string;
  Artifact := string;
  base64encode := b64;
  CreateConformerSearchWorkflowRequest := λ kw, Ok kw;
  PromethiumClient := λ w, (Ok tt, w);
  submit := λ req w,
    if reject (name_of req) then (Raised (SdkError "rejected"), w)
    else let wf := mkWorkflow ("wf-" +:+ name_of req) (name_of req) Running (0, 0)%Z in
         (Ok wf, w ++ [wf]);
  wait := λ id w,
    match find id w with
    | Some _ => (Ok tt, finish id <$> w)
    | None => (Raised (SdkError "unknown workflow"), w)
    end;
  get := λ id w,
    match find id w with
    | Some wf => (Ok wf, w)
    | None => (Raised (SdkError "unknown workflow"), w)
    end;
  results := λ id w,
    match find id w with
    | Some wf => (Ok ("conformers of " +:+ wf_name wf), w)
    | None => (Raised (SdkError "unknown workflow"), w)
    end;
  model_dump_json := λ r, Ok r;
  get_artifact := λ r _, Ok r
|}.

Definition accepting : Sdk := service (λ _, false).

(** The inputs of lines 39-48. *)
Definition SMILES : list string :=
  ["CCOCC"; "CC1(C2C1C(N(C2)C(=O)C(C(C)(C)C)NC(=O)C(F)(F)F)C(=O)NC(CC3CCNC3=O)C#N)C"].
Definition SMILES_Names : list string := ["Diethyl_Ether"; "Nirmatrelvir"].

End Mock.

(** ** The payload builder *)

Section Builder.
Context `{sdk : Sdk}.
Import Py.

Lemma local_copy_ok smile smile_name :
  ∃ L, local_copy smile smile_name = Ok (VRef 17, L) ∧
       length L = 19%nat ∧
       deref 8 L (VRef 17) = Some (payload_for smile smile_name).
Proof. eexists. split; [vm_compute; reflexivity|]. split; vm_compute; reflexivity. Qed.

(** The copy made behind a store that holds the template is the local
    copy, moved. *)
Lemma tmp_job_params_embed tmpl smile smile_name h tmp L :
  value_of h tmpl = Some job_params →
  local_copy smile smile_name = Ok (tmp, L) →
  tmp_job_params tmpl smile smile_name h
  = Ok (shift_val (length h) tmp, h ++ embed (length h) L).
Proof.
  intros Hv. unfold local_copy, tmp_job_params, deepcopy. rewrite Hv.
  rewrite (alloc_fresh job_params h).
  destruct (alloc job_params []) as [v0 L0]. cbn [fst snd].
  destruct (setitem L0 v0 "name" _) as [L1|e] eqn:E1; [|done].
  pose proof (setitem_embed h _ _ _ _ _ E1) as E1'. cbn [shift_val] in E1'.
  rewrite E1'. clear E1'.
  rewrite (alloc_embed _ h L1).
  destruct (alloc _ L1) as [m L3]. cbn [fst snd].
  destruct (getitem L3 v0 "parameters") as [q|e] eqn:E2; [|done].
  rewrite (getitem_embed h _ _ _ _ E2).
  destruct (setitem L3 q "molecule" m) as [L4|e] eqn:E3; [|done].
  rewrite (setitem_embed h _ _ _ _ _ E3).
  by intros [= <- <-].
Qed.

Lemma template_ok_extend tmpl h ext :
  template_ok tmpl h → template_ok tmpl (h ++ ext).
Proof.
  intros (Hv & Hl & Hn).
  destruct (value_of_extend h ext tmpl job_params Hv) as [Ev El].
  { eapply Forall_impl; [exact Hl|]. cbn. intros l ?. lia. }
  unfold template_ok. rewrite Ev, El, length_app. repeat split; [done|lia].
Qed.

(** One copy: it succeeds, appends 19 objects, and the new dict reads as
    the expected payload inside them. *)
Lemma tmp_job_params_spec tmpl smile smile_name h :
  template_ok tmpl h →
  ∃ ext,
    tmp_job_params tmpl smile smile_name h = Ok (VRef (length h + 17), h ++ ext) ∧
    length ext = 19%nat ∧
    value_of (h ++ ext) (VRef (length h + 17)) = Some (payload_for smile smile_name) ∧
    Forall (λ l, (length h ≤ l < length h + 19)%nat)
           (locs_of (h ++ ext) (VRef (length h + 17))).
Proof.
  intros (Hv & _ & _).
  destruct (local_copy_ok smile smile_name) as (L & EL & HL & HD).
  exists (embed (length h) L). split; [|split].
  - by rewrite (tmp_job_params_embed _ _ _ _ _ _ Hv EL).
  - by rewrite length_embed.
  - destruct (value_of_embed h L (VRef 17) _ 8 HD) as [Ev El]; [lia|].
    cbn [shift_val] in Ev, El. rewrite HL in El. split; [exact Ev|exact El].
Qed.

Lemma template_initial :
  template_ok (alloc job_params []).1 (alloc job_params []).2.
Proof.
  split; [vm_compute; reflexivity|]. split; [|vm_compute; lia].
  apply Forall_forall. intros l Hl. vm_compute in Hl.
  repeat (apply elem_of_cons in Hl as [->|Hl]; [lia|]).
  by apply elem_of_nil in Hl.
Qed.

(** All copies: one dict per input at a known address, each reading as its
    expected payload inside its own 19 objects. *)
Lemma build_payloads_spec inputs : ∀ tmpl h,
  template_ok tmpl h →
  ∃ tmps ext,
    build_payloads tmpl inputs h = Ok (tmps, h ++ ext) ∧
    length tmps = length inputs ∧
    ∀ i smile smile_name, inputs !! i = Some (smile, smile_name) →
      tmps !! i = Some (VRef (length h + 19 * i + 17)) ∧
      value_of (h ++ ext) (VRef (length h + 19 * i + 17))
        = Some (payload_for smile smile_name) ∧
      Forall (λ l, (length h + 19 * i ≤ l < length h + 19 * i + 19)%nat)
             (locs_of (h ++ ext) (VRef (length h + 19 * i + 17))).
Proof.
  induction inputs as [|[s n] rest IH]; intros tmpl h Hok.
  - exists [], []. rewrite app_nil_r. repeat split; done.
  - destruct (tmp_job_params_spec tmpl s n h Hok) as (ext1 & E1 & Hlen & Hv & Hl).
    destruct (IH tmpl (h ++ ext1) (template_ok_extend _ _ _ Hok))
      as (tmps & ext2 & E2 & Hlen2 & Hrest).
    exists (VRef (length h + 17) :: tmps), (ext1 ++ ext2).
    cbn [build_payloads]. rewrite E1, E2, app_assoc.
    split; [done|]. split; [cbn; by rewrite Hlen2|].
    intros [|i] smile smile_name Hi.
    + injection Hi as <- <-.
      replace (length h + 19 * 0 + 17)%nat with (length h + 17)%nat by lia.
      destruct (value_of_extend (h ++ ext1) ext2 _ _ Hv) as [Ev El].
      { eapply Forall_impl; [exact Hl|]. cbn. intros l ?.
        rewrite length_app. lia. }
      rewrite Ev, El. split; [done|]. split; [done|].
      eapply Forall_impl; [exact Hl|]. cbn. intros l ?. lia.
    + destruct (Hrest i smile smile_name Hi) as (Ht & Hvi & Hli).
      rewrite length_app, Hlen in Ht, Hvi, Hli.
      replace (length h + 19 * S i + 17)%nat with (length h + 19 + 19 * i + 17)%nat by lia.
      split; [done|]. split; [done|].
      eapply Forall_impl; [exact Hli|]. cbn. intros l ?. lia.
Qed.

End Builder.

(** ** The first loop *)

Section Submission.
Context `{sdk : Sdk}.
Import Py.

Definition ids_of (r : outcome (list Workflow)) : list string → outcome (list string) :=
  λ ids, match r with
         | Ok wfs => Ok (ids ++ (wf_id <$> wfs))
         | Raised e => Raised e
         end.

(** The first loop does to the outside what [submit_trace] says, and
    keeps the template. *)
Lemma submit_loop_eq inputs : ∀ tmpl ids st,
  template_ok tmpl (objects st) →
  ∃ h', template_ok tmpl h' ∧
    submit_loop tmpl inputs ids st =
    (ids_of (submit_trace inputs (world st)).1.1 ids,
     mkState h' (submit_trace inputs (world st)).1.2 (files st)
             (trace st ++ (submit_trace inputs (world st)).2)).
Proof.
  induction inputs as [|[s n] rest IH]; intros tmpl ids st Hok.
  - exists (objects st). split; [done|]. destruct st. cbn.
    by rewrite !app_nil_r.
  - destruct (tmp_job_params_spec tmpl s n _ Hok) as (ext & E1 & _ & Hv & _).
    pose proof (template_ok_extend _ _ ext Hok) as Hok'.
    cbn [submit_loop submit_trace]. unfold bind at 1. unfold on_heap at 1.
    rewrite E1. unfold bind at 1. unfold on_heap at 1, kwargs. cbn [objects].
    rewrite Hv. unfold bind at 1, lift_outcome at 1.
    destruct (CreateConformerSearchWorkflowRequest (payload_for s n)) as [req|e].
    2:{ eexists. split; [exact Hok'|]. cbn. by rewrite app_nil_r. }
    unfold bind at 1, call at 1. cbn [world objects files trace].
    destruct (submit req (world st)) as [[wf|e] w1].
    2:{ eexists. split; [exact Hok'|]. done. }
    unfold bind at 1, emit at 1. cbn [world objects files trace].
    match goal with |- context [submit_loop tmpl rest ?i ?s] =>
      destruct (IH tmpl i s) as (h' & Hh' & ->); [exact Hok'|] end.
    exists h'. split; [done|]. cbn [world objects files trace].
    destruct (submit_trace rest w1) as [[r w2] tr]. cbn [fst snd].
    f_equal.
    + destruct r; cbn; [|done]. by rewrite <- app_assoc.
    + f_equal. by rewrite <- !app_assoc.
Qed.

(** The first loop does to the object store what [build_payloads] says. *)
Lemma submit_loop_objects inputs : ∀ tmpl ids st ids' st',
  template_ok tmpl (objects st) →
  submit_loop tmpl inputs ids st = (Ok ids', st') →
  ∃ tmps, build_payloads tmpl inputs (objects st) = Ok (tmps, objects st').
Proof.
  induction inputs as [|[s n] rest IH]; intros tmpl ids st ids' st' Hok.
  - cbn. intros [= _ <-]. by eexists.
  - destruct (tmp_job_params_spec tmpl s n _ Hok) as (ext & E1 & _ & Hv & _).
    pose proof (template_ok_extend _ _ ext Hok) as Hok'.
    cbn [submit_loop build_payloads]. unfold bind at 1. unfold on_heap at 1.
    rewrite E1. unfold bind at 1. unfold on_heap at 1, kwargs. cbn [objects].
    rewrite Hv. unfold bind at 1, lift_outcome at 1.
    destruct (CreateConformerSearchWorkflowRequest (payload_for s n)) as [req|e];
      [|done].
    unfold bind at 1, call at 1. cbn [world objects files trace].
    destruct (submit req (world st)) as [[wf|e] w1]; [|done].
    unfold bind at 1, emit at 1. cbn [world objects files trace].
    intros H. apply IH in H as [tmps H]; [|exact Hok'].
    cbn [objects] in H. rewrite H. by eexists.
Qed.

(** Lines 33-34 never raise: the directory is made only where no entry
    stands, in the working directory. *)
Definition output_dir (fs : Fs.t) : Fs.loc := Fs.cwd fs ++ [foldername].

Definition prelude_files (fs : Fs.t) : Fs.t :=
  if Fs.path_exists fs foldername then fs else Fs.store (output_dir fs) Fs.Dir fs.

Definition prelude_events (fs : Fs.t) : list event :=
  if Fs.path_exists fs foldername then [] else [EvMakedirs foldername (Ok tt)].

Lemma locate_foldername fs : Fs.locate fs foldername = Ok (output_dir fs).
Proof. reflexivity. Qed.

Lemma path_exists_foldername fs :
  Fs.path_exists fs foldername =
  match Fs.entries fs !! output_dir fs with
  | Some _ => true
  | None => false
  end.
Proof. reflexivity. Qed.

Lemma make_output_dir_eq st :
  make_output_dir st =
  (Ok tt, mkState (objects st) (world st) (prelude_files (files st))
                  (trace st ++ prelude_events (files st))).
Proof.
  unfold make_output_dir, prelude_files, prelude_events, Fs.makedirs.
  rewrite path_exists_foldername, locate_foldername.
  destruct (Fs.entries (files st) !! output_dir (files st)) eqn:E; [|done].
  destruct st. cbn. by rewrite app_nil_r.
Qed.

(** The first phase of a run, spelled out. *)
Lemma submission_eq env SMILES SMILES_Names w fs :
  ∃ h',
    submission env SMILES SMILES_Names (initial w fs) =
    match PromethiumClient w with
    | (Raised e, w0) =>
        (Raised e, mkState h' w0 (prelude_files fs) (prelude_events fs))
    | (Ok _, w0) =>
        (ids_of (submit_trace (zip SMILES SMILES_Names) w0).1.1 [],
         mkState h' (submit_trace (zip SMILES SMILES_Names) w0).1.2 (prelude_files fs)
                 (prelude_events fs ++ (submit_trace (zip SMILES SMILES_Names) w0).2))
    end ∧
    match PromethiumClient w with
    | (Raised e, w0) => True
    | (Ok _, w0) => template_ok (alloc job_params []).1 h'
    end.
Proof.
  unfold submission. unfold bind at 1. rewrite make_output_dir_eq.
  unfold bind at 1, on_heap at 1. cbn [objects initial world files trace].
  destruct (alloc job_params []) as [tmpl h0] eqn:Ea.
  unfold bind at 1, new_client at 1. cbn [objects initial world files trace].
  destruct (PromethiumClient w) as [[u|e] w0].
  2:{ exists h0. done. }
  match goal with |- context [submit_loop tmpl ?i ?d ?s] =>
    destruct (submit_loop_eq i tmpl d s) as (h' & Hh' & ->) end.
  { cbn [objects]. pose proof template_initial as T. by rewrite Ea in T. }
  exists h'. done.
Qed.

Lemma submission_objects env SMILES SMILES_Names w fs ids st' :
  submission env SMILES SMILES_Names (initial w fs) = (Ok ids, st') →
  ∃ tmps,
    build_payloads (alloc job_params []).1 (zip SMILES SMILES_Names)
                   (alloc job_params []).2
    = Ok (tmps, objects st').
Proof.
  unfold submission. unfold bind at 1. rewrite make_output_dir_eq.
  unfold bind at 1, on_heap at 1. cbn [objects initial world files trace].
  pose proof template_initial as T.
  destruct (alloc job_params []) as [tmpl h0] eqn:Ea. cbn [fst snd] in *.
  unfold bind at 1, new_client at 1. cbn [objects initial world files trace].
  destruct (PromethiumClient w) as [[u|e] w0]; [|done].
  intros H. by apply submit_loop_objects in H.
Qed.

(** *** Facts about the events of the first loop *)

Lemma submit_trace_phase inputs : ∀ w,
  Forall (λ e, is_submit_phase e = true) (submit_trace inputs w).2.
Proof.
  induction inputs as [|[s n] rest IH]; intros w; cbn; [constructor|].
  destruct (CreateConformerSearchWorkflowRequest _) as [req|e]; [|constructor].
  destruct (submit req w) as [[wf|e] w1]; [|by repeat constructor].
  specialize (IH w1). destruct (submit_trace rest w1) as [[r w2] tr].
  by repeat constructor.
Qed.

(** The requests submitted are those of a prefix of the inputs, in order. *)
Lemma submit_trace_payloads inputs : ∀ w,
  (submits (submit_trace inputs w).2).*1 =
  (λ sn, payload_for sn.1 sn.2)
    <$> take (length (submits (submit_trace inputs w).2)) inputs.
Proof.
  induction inputs as [|[s n] rest IH]; intros w; cbn; [done|].
  destruct (CreateConformerSearchWorkflowRequest _) as [req|e]; [|done].
  destruct (submit req w) as [[wf|e] w1]; [|done].
  specialize (IH w1). destruct (submit_trace rest w1) as [[r w2] tr].
  cbn in *. by rewrite <- IH.
Qed.

(** A loop that ends normally made one accepted submission per input. *)
Lemma submit_trace_ok inputs : ∀ w wfs,
  (submit_trace inputs w).1.1 = Ok wfs →
  submits (submit_trace inputs w).2 =
  zip_with (λ sn wf, (payload_for sn.1 sn.2, Ok wf)) inputs wfs ∧
  length wfs = length inputs.
Proof.
  induction inputs as [|[s n] rest IH]; intros w wfs; cbn.
  - by intros [= <-].
  - destruct (CreateConformerSearchWorkflowRequest _) as [req|e]; [|done].
    destruct (submit req w) as [[wf|e] w1]; [|done].
    specialize (IH w1). destruct (submit_trace rest w1) as [[r w2] tr].
    cbn in *. destruct r as [wfs'|e]; [|done]. intros [= <-].
    destruct (IH wfs' eq_refl) as [-> Hl]. cbn. by rewrite Hl.
Qed.

(** A submission that raises ends the loop with that exception: it is the
    last event. *)
Lemma submit_trace_raised inputs : ∀ w i kw e,
  (submit_trace inputs w).2 !! i = Some (EvSubmit kw (Raised e)) →
  (submit_trace inputs w).1.1 = Raised e ∧
  length (submit_trace inputs w).2 = S i.
Proof.
  induction inputs as [|[s n] rest IH]; intros w i kw e; cbn; [done|].
  destruct (CreateConformerSearchWorkflowRequest _) as [req|e0]; [|done].
  destruct (submit req w) as [[wf|e0] w1].
  - specialize (IH w1). destruct (submit_trace rest w1) as [[r w2] tr].
    cbn in *. destruct i as [|[|i]]; [done..|]. cbn. intros H.
    destruct (IH i kw e H) as [-> ->]. done.
  - cbn. destruct i as [|i]; [|done]. by intros [= _ <-].
Qed.

(** With a collaborator that never raises, the loop ends normally. *)
Lemma submit_trace_total inputs :
  (∀ kw, ∃ req, CreateConformerSearchWorkflowRequest kw = Ok req) →
  (∀ req w, ∃ wf, (submit req w).1 = Ok wf) →
  ∀ w, ∃ wfs, (submit_trace inputs w).1.1 = Ok wfs.
Proof.
  intros Hc Hs. induction inputs as [|[s n] rest IH]; intros w; cbn [submit_trace];
    [by eexists|].
  destruct (Hc (payload_for s n)) as [req ->].
  destruct (Hs req w) as [wf Hwf].
  destruct (submit req w) as [[wf'|e] w1]; [|done].
  destruct (IH w1) as [wfs Hw]. destruct (submit_trace rest w1) as [[r w2] tr].
  cbn in *. rewrite Hw. by eexists.
Qed.

End Submission.

(** ** Paths of result files *)

Section Paths.

Lemma length_append (s1 s2 : string) :
  String.length (s1 +:+ s2) = (String.length s1 + String.length s2)%nat.
Proof.
  induction s1 as [|c s IH]; [done|].
  change (String c s +:+ s2) with (String c (s +:+ s2)).
  cbn [String.length]. by rewrite IH.
Qed.

Lemma contains_app c (a b : string) :
  Fs.contains c (a +:+ b) = Fs.contains c a || Fs.contains c b.
Proof.
  induction a as [|x a IH]; [done|].
  change (String x a +:+ b) with (String x (a +:+ b)).
  cbn [Fs.contains]. by rewrite IH, orb_assoc.
Qed.

Lemma split_plain b : Fs.contains "/" b = false → Fs.split b = ([], b).
Proof.
  induction b as [|c b IH]; [done|]. cbn [Fs.contains Fs.split].
  intros [Hc Hb]%orb_false_iff. by rewrite (IH Hb), Hc.
Qed.

(** A suffix without a slash goes to the last name. *)
Lemma split_app_plain a b :
  Fs.contains "/" b = false →
  Fs.split (a +:+ b) = ((Fs.split a).1, (Fs.split a).2 +:+ b).
Proof.
  intros Hb. induction a as [|c a IH]; [by rewrite split_plain|].
  change (String c a +:+ b) with (String c (a +:+ b)).
  cbn [Fs.split]. rewrite IH. destruct (Fs.split a) as [[|d ds] n];
    by destruct (Ascii.eqb c "/").
Qed.

Lemma dirname_aux_plain s : Fs.dirname_aux s = None ↔ Fs.contains "/" s = false.
Proof.
  induction s as [|c s IH]; [done|]. cbn [Fs.dirname_aux Fs.contains].
  destruct (Fs.dirname_aux s) as [d|].
  - split; [done|]. intros [_ H]%orb_false_iff. by apply IH in H.
  - destruct IH as [IH _]. rewrite (IH eq_refl), orb_false_r.
    by destruct (Ascii.eqb c "/").
Qed.

Lemma dirname_aux_app (a b : string) :
  Fs.dirname_aux (a +:+ b) =
  match Fs.dirname_aux b with
  | Some d => Some (a +:+ d)
  | None => Fs.dirname_aux a
  end.
Proof.
  induction a as [|c a IH].
  - change (EmptyString +:+ b) with b. by destruct (Fs.dirname_aux b).
  - change (String c a +:+ b) with (String c (a +:+ b)).
    cbn [Fs.dirname_aux]. rewrite IH.
    destruct (Fs.dirname_aux b) as [d|]; [done|].
    by destruct (Fs.dirname_aux a).
Qed.

(** The directory a result file is opened in: [output] for a name without
    a slash, [output/<what stands before the last slash>] otherwise. *)
Lemma dirname_result_path name :
  Fs.dirname (result_path name) =
  foldername +:+ match Fs.dirname_aux name with
                 | Some d => "/" +:+ d
                 | None => EmptyString
                 end.
Proof.
  unfold Fs.dirname, result_path.
  rewrite (dirname_aux_app foldername), (dirname_aux_app "/"),
          (dirname_aux_app name).
  change (Fs.dirname_aux "_results.json") with (@None string).
  destruct (Fs.dirname_aux name) as [d|]; reflexivity.
Qed.

(** A result path directly under [output] is one of a name without a
    slash. *)
Lemma dirname_result_path_plain name :
  Fs.dirname (result_path name) = foldername → Fs.contains "/" name = false.
Proof.
  rewrite dirname_result_path. intros H. apply dirname_aux_plain.
  destruct (Fs.dirname_aux name) as [d|]; [|done].
  apply (f_equal String.length) in H. rewrite !length_append in H.
  cbn in H. lia.
Qed.

Lemma split_result_path name :
  Fs.split (result_path name) =
  (foldername :: (Fs.split name).1, (Fs.split name).2 +:+ "_results.json").
Proof.
  unfold result_path, foldername.
  change ("output" +:+ "/" +:+ name +:+ "_results.json")
    with (String "o" (String "u" (String "t" (String "p" (String "u" (String "t"
           (String "/" (name +:+ "_results.json")))))))).
  cbn [Fs.split]. rewrite split_app_plain by reflexivity.
  by destruct (Fs.split name) as [ds n].
Qed.

Lemma length_result_path name :
  String.length (result_path name) = (20 + String.length name)%nat.
Proof.
  unfold result_path. rewrite !length_append. cbn [String.length foldername]. lia.
Qed.

(** The last name of a result path is a proper name. *)
Lemma result_name_proper (x : string) :
  String.eqb (x +:+ "_results.json") EmptyString = false ∧
  String.eqb (x +:+ "_results.json") "." = false ∧
  String.eqb (x +:+ "_results.json") ".." = false.
Proof.
  repeat split; apply String.eqb_neq; intros H;
    apply (f_equal String.length) in H; rewrite length_append in H;
    cbn [String.length] in H; lia.
Qed.

(** Where a result file goes: through [output], then through the
    directories that the name spells with slashes. *)
Lemma locate_result_path fs name :
  Fs.locate fs (result_path name) =
  if Fs.contains Fs.NUL name then Raised ValueError
  else if Nat.leb Fs.PATH_MAX (20 + String.length name)
  then Raised (FileNameTooLong (result_path name))
  else match Fs.entries fs !! output_dir fs with
       | None => Raised (FileNotFoundError (result_path name))
       | Some (Fs.File _) => Raised (NotADirectoryError (result_path name))
       | Some Fs.Dir =>
           match Fs.walk fs (result_path name) (output_dir fs) (Fs.split name).1 with
           | Raised e => Raised e
           | Ok d =>
               if Nat.ltb Fs.NAME_MAX (String.length (Fs.split name).2 + 13)
               then Raised (FileNameTooLong (result_path name))
               else Ok (d ++ [(Fs.split name).2 +:+ "_results.json"])
           end
       end.
Proof.
  unfold Fs.locate.
  assert (Hn : Fs.contains Fs.NUL (result_path name) = Fs.contains Fs.NUL name).
  { unfold result_path. rewrite !contains_app.
    change (Fs.contains Fs.NUL foldername) with false.
    change (Fs.contains Fs.NUL "/") with false.
    change (Fs.contains Fs.NUL "_results.json") with false.
    by rewrite orb_false_r. }
  rewrite Hn. destruct (Fs.contains Fs.NUL name); [done|].
  assert (He : String.eqb (result_path name) EmptyString = false) by reflexivity.
  rewrite He, length_result_path.
  destruct (Nat.leb Fs.PATH_MAX (20 + String.length name)); [done|].
  rewrite split_result_path.
  destruct (result_name_proper (Fs.split name).2) as (-> & -> & ->).
  assert (Ha : Fs.absolute (result_path name) = false) by reflexivity.
  rewrite Ha. cbn [Fs.walk orb].
  change (String.eqb foldername EmptyString) with false.
  change (String.eqb foldername ".") with false.
  change (String.eqb foldername "..") with false.
  change (Nat.ltb Fs.NAME_MAX (String.length foldername)) with false.
  cbn [orb]. fold (output_dir fs).
  destruct (Fs.entries fs !! output_dir fs) as [[|c]|]; [|done..].
  rewrite length_append. done.
Qed.

(** A name without a slash: the file goes directly into [output]. *)
Lemma locate_plain fs name l :
  Fs.contains "/" name = false →
  Fs.locate fs (result_path name) = Ok l →
  l = output_dir fs ++ [name +:+ "_results.json"] ∧
  Fs.entries fs !! output_dir fs = Some Fs.Dir.
Proof.
  intros Hp. rewrite locate_result_path, (split_plain _ Hp). cbn [fst snd Fs.walk].
  destruct (Fs.contains Fs.NUL name); [done|].
  destruct (Nat.leb _ _); [done|].
  destruct (Fs.entries fs !! output_dir fs) as [[|c]|]; [|done..].
  destruct (Nat.ltb _ _); [done|]. by intros [= <-].
Qed.

(** *** Files that are added do not move the others *)

Lemma cwd_store l e fs : Fs.cwd (Fs.store l e fs) = Fs.cwd fs.
Proof. done. Qed.

Lemma store_store l e e' fs : Fs.store l e (Fs.store l e' fs) = Fs.store l e fs.
Proof. unfold Fs.store. cbn. by rewrite insert_insert_eq. Qed.

Lemma walk_store fs p l e :
  Fs.entries fs !! l ≠ Some Fs.Dir →
  ∀ dirs d d', Fs.walk fs p d dirs = Ok d' →
               Fs.walk (Fs.store l e fs) p d dirs = Ok d'.
Proof.
  intros Hl. induction dirs as [|c rest IH]; intros d d'; [done|].
  cbn [Fs.walk].
  destruct (String.eqb c EmptyString || String.eqb c "."); [apply IH|].
  destruct (String.eqb c ".."); [apply IH|].
  destruct (Nat.ltb Fs.NAME_MAX (String.length c)); [done|].
  destruct (Fs.entries fs !! (d ++ [c])) as [[|x]|] eqn:E; [|done..].
  intros H. cbn [Fs.store Fs.entries]. rewrite lookup_insert_ne by congruence.
  rewrite E. by apply IH.
Qed.

Lemma locate_store fs p l e l' :
  Fs.entries fs !! l ≠ Some Fs.Dir →
  Fs.locate fs p = Ok l' → Fs.locate (Fs.store l e fs) p = Ok l'.
Proof.
  intros Hl. unfold Fs.locate. rewrite cwd_store.
  destruct (Fs.contains Fs.NUL p); [done|].
  destruct (String.eqb p EmptyString); [done|].
  destruct (Nat.leb Fs.PATH_MAX (String.length p)); [done|].
  destruct (Fs.split p) as [dirs name].
  destruct (String.eqb name EmptyString).
  { by destruct (Fs.walk fs p _ _). }
  destruct (Fs.walk fs p _ dirs) as [d|e0] eqn:E; [|done].
  by rewrite (walk_store _ _ _ _ Hl _ _ _ E).
Qed.

(** *** Opening, writing and reading back *)

Lemma open_w_ok p fs fp fs' :
  Fs.open_w p fs = Ok (fp, fs') →
  Fs.locate fs p = Ok fp ∧ Fs.entries fs !! fp ≠ Some Fs.Dir ∧
  fs' = Fs.store fp (Fs.File EmptyString) fs.
Proof.
  unfold Fs.open_w. destruct (Fs.locate fs p) as [l|e]; [|done].
  destruct (Fs.entries fs !! l) as [[|c]|] eqn:E; [done| |];
    intros [= <- <-]; rewrite E; done.
Qed.

Lemma write_opened fp text fs :
  Fs.write fp text (Fs.store fp (Fs.File EmptyString) fs)
  = Fs.store fp (Fs.File text) fs.
Proof.
  unfold Fs.write. cbn [Fs.store Fs.entries]. rewrite lookup_insert_eq.
  by rewrite store_store.
Qed.

Lemma read_stored p fs fp text :
  Fs.locate fs p = Ok fp → Fs.entries fs !! fp ≠ Some Fs.Dir →
  Fs.read p (Fs.store fp (Fs.File text) fs) = Some text.
Proof.
  intros Hl Hd. unfold Fs.read. rewrite (locate_store _ _ _ _ _ Hd Hl).
  cbn [Fs.store Fs.entries]. by rewrite lookup_insert_eq.
Qed.

Lemma entries_store_ne l l' e fs :
  l ≠ l' → Fs.entries (Fs.store l e fs) !! l' = Fs.entries fs !! l'.
Proof. intros H. cbn [Fs.store Fs.entries]. by rewrite lookup_insert_ne. Qed.

End Paths.

(** ** The second loop *)

(** Running one workflow of the second loop comes down to the outcomes of
    its six calls. *)
Ltac collect_cases id st :=
  unfold collect, bind, call, emit, open_file, write_file, lift_outcome;
  cbn [world files trace objects];
  destruct (wait id (world st)) as [[[]|?e] ?w] eqn:?Ewait;
  cbn [world files trace objects];
  [destruct (get id _) as [[?wf|?e] ?w] eqn:?Eget;
   cbn [world files trace objects];
   [destruct (results id _) as [[?res|?e] ?w] eqn:?Eres;
    cbn [world files trace objects];
    [destruct (Fs.open_w _ (files st)) as [[?fp ?fs]|?e] eqn:?Eopen;
     cbn [world files trace objects];
     [destruct (model_dump_json _) as [?text|?e] eqn:?Edump;
      cbn [world files trace objects];
      [destruct (get_artifact _ _) as [?a|?e] eqn:?Eart;
       cbn [world files trace objects]|]|]|]|]|].

Section Collection.
Context `{sdk : Sdk}.

Lemma collect_loop_cons id rest st :
  collect_loop (id :: rest) st =
  match collect id st with
  | (Ok _, st') => collect_loop rest st'
  | (Raised e, st') => (Raised e, st')
  end.
Proof. done. Qed.

(** A loop whose every turn keeps an invariant and appends a block of
    events does so as a whole, block after block, in the order of the
    identifiers. *)
Lemma collect_loop_blocks (Inv : state → Prop) (B : string → list event → Prop) :
  (∀ id st, Inv st →
     Inv (collect id st).2 ∧
     ∃ blk, trace (collect id st).2 = trace st ++ blk ∧ B id blk) →
  ∀ ids st, Inv st →
    Inv (collect_loop ids st).2 ∧
    ∃ blocks,
      trace (collect_loop ids st).2 = trace st ++ concat blocks ∧
      Forall2 B (take (length blocks) ids) blocks ∧
      ((collect_loop ids st).1 = Ok tt → length blocks = length ids).
Proof.
  intros Hstep. induction ids as [|id rest IH]; intros st Hst.
  - split; [done|]. exists []. cbn. rewrite app_nil_r. repeat split; constructor.
  - destruct (Hstep id st Hst) as (Hst1 & blk & Et & Hb).
    rewrite collect_loop_cons.
    destruct (collect id st) as [[[]|e] st1]; cbn [fst snd] in *.
    + destruct (IH st1 Hst1) as (Hst2 & blocks & Et2 & Hbs & Hlen).
      split; [done|]. exists (blk :: blocks). cbn.
      rewrite Et2, Et, <- app_assoc. split; [done|]. split; [by constructor|].
      intros H. by rewrite (Hlen H).
    + split; [done|]. exists [blk]. cbn. rewrite app_nil_r, take_0.
      split; [done|]. split; [by repeat constructor|done].
Qed.

Lemma collect_about id st :
  ∃ blk, trace (collect id st).2 = trace st ++ blk ∧
         Forall (λ e, about id e = true) blk ∧
         head blk = Some (EvWait id (wait id (world st)).1).
Proof.
  collect_cases id st; cbn [snd trace]; rewrite <- ?app_assoc; cbn [app];
    eexists; (split; [reflexivity|]); (split; [|done]);
    repeat constructor; cbn; by rewrite ?String.eqb_refl.
Qed.

Lemma collect_objects id st : objects (collect id st).2 = objects st.
Proof. collect_cases id st; done. Qed.

Lemma collect_loop_objects ids : ∀ st, objects (collect_loop ids st).2 = objects st.
Proof.
  induction ids as [|id rest IH]; intros st; [done|].
  rewrite collect_loop_cons. pose proof (collect_objects id st) as E.
  destruct (collect id st) as [[[]|e] st1]; cbn [snd] in *; [|done].
  by rewrite IH.
Qed.

(** *** Statuses read after waiting *)

(** The collaborator contract of [wait], for a service whose workflows
    have the status [status_of]: [wait] returns only once the workflow is in
    a terminal state, and a workflow in a terminal state is reported in it. *)
Record wait_contract (status_of : World → string → Status) : Prop := {
  wait_blocks : ∀ id w w',
    wait id w = (Ok tt, w') → is_terminal (status_of w' id) = true;
  get_reads : ∀ id w wf w',
    is_terminal (status_of w id) = true →
    get id w = (Ok wf, w') → wf_status wf = status_of w id
}.

(** A status the script reads, or prints, is terminal. *)
Definition status_read_terminal (e : event) : bool :=
  match e with
  | EvGet _ (Ok wf) => is_terminal (wf_status wf)
  | EvPrint (LineCompleted _ s) => is_terminal s
  | _ => true
  end.

Lemma collect_terminal status_of id st :
  wait_contract status_of →
  ∃ blk, trace (collect id st).2 = trace st ++ blk ∧
         Forall (λ e, status_read_terminal e = true) blk.
Proof.
  intros [Hw Hg].
  assert (T : ∀ w1 wf w2, wait id (world st) = (Ok tt, w1) →
            get id w1 = (Ok wf, w2) → is_terminal (wf_status wf) = true).
  { intros w1 wf w2 E1 E2. pose proof (Hw _ _ _ E1) as Ht.
    by rewrite (Hg _ _ _ _ Ht E2). }
  collect_cases id st; cbn [snd trace]; rewrite <- ?app_assoc; cbn [app];
    eexists; (split; [reflexivity|]);
    repeat constructor; cbn; eauto.
Qed.

(** *** The output directory *)

Lemma result_path_not_folder name : result_path name ≠ foldername.
Proof. intros H. vm_compute in H. congruence. Qed.

(** Opening a result file directly under [output] does not fail for want
    of a directory: it returns, or what stands in the way is a directory of
    that name, a name too long, or a NUL byte. *)
Definition open_has_dir (e : event) : Prop :=
  match e with
  | EvOpen p r =>
      Fs.dirname p = foldername →
      r = Ok tt ∨ r = Raised (IsADirectoryError p) ∨
      r = Raised (FileNameTooLong p) ∨ r = Raised ValueError
  | _ => True
  end.

Definition has_output_dir (st : state) : Prop :=
  Fs.entries (files st) !! output_dir (files st) = Some Fs.Dir.

(** What [open] raises where a regular file stands on the way. *)
Definition no_directory (p : string) : exn :=
  if Fs.contains Fs.NUL p then ValueError
  else if Nat.leb Fs.PATH_MAX (String.length p) then FileNameTooLong p
  else NotADirectoryError p.

Lemma open_w_in_dir name fs :
  Fs.entries fs !! output_dir fs = Some Fs.Dir →
  Fs.contains "/" name = false →
  (∃ r, Fs.open_w (result_path name) fs = Ok r) ∨
  Fs.open_w (result_path name) fs = Raised (IsADirectoryError (result_path name)) ∨
  Fs.open_w (result_path name) fs = Raised (FileNameTooLong (result_path name)) ∨
  Fs.open_w (result_path name) fs = Raised ValueError.
Proof.
  intros Hd Hp. unfold Fs.open_w.
  rewrite locate_result_path, (split_plain _ Hp), Hd. cbn [fst snd Fs.walk].
  destruct (Fs.contains Fs.NUL name); [by auto|].
  destruct (Nat.leb _ _); [by auto|].
  destruct (Nat.ltb _ _); [by auto|].
  destruct (Fs.entries fs !! (output_dir fs ++ [name +:+ "_results.json"]))
    as [[|c]|]; eauto.
Qed.

Lemma open_w_no_dir name fs c :
  Fs.entries fs !! output_dir fs = Some (Fs.File c) →
  Fs.open_w (result_path name) fs = Raised (no_directory (result_path name)).
Proof.
  intros Hf. unfold Fs.open_w, no_directory.
  rewrite locate_result_path, Hf, length_result_path.
  assert (Hn : Fs.contains Fs.NUL (result_path name) = Fs.contains Fs.NUL name).
  { unfold result_path. rewrite !contains_app.
    change (Fs.contains Fs.NUL foldername) with false.
    change (Fs.contains Fs.NUL "/") with false.
    change (Fs.contains Fs.NUL "_results.json") with false.
    by rewrite orb_false_r. }
  rewrite Hn. destruct (Fs.contains Fs.NUL name); [done|].
  by destruct (Nat.leb _ _).
Qed.

(** One workflow of the second loop leaves the file system as it is, or
    puts one regular file where the result path it opened leads. *)
Lemma collect_files id st :
  ∃ blk, trace (collect id st).2 = trace st ++ blk ∧
    (files (collect id st).2 = files st ∨
     ∃ name fp c,
       EvOpen (result_path name) (Ok tt) ∈ blk ∧
       Fs.locate (files st) (result_path name) = Ok fp ∧
       Fs.entries (files st) !! fp ≠ Some Fs.Dir ∧
       files (collect id st).2 = Fs.store fp (Fs.File c) (files st)).
Proof.
  collect_cases id st; cbn [snd trace files]; rewrite <- ?app_assoc; cbn [app];
    eexists; (split; [reflexivity|]); try (by left);
    right; apply open_w_ok in Eopen as (Hl & Hd & ->);
    exists (wf_name wf), fp; rewrite ?write_opened; eexists;
    (split; [|split; [exact Hl|split; [exact Hd|reflexivity]]]);
    repeat first [by left | right].
Qed.

Lemma collect_output_dir id st :
  has_output_dir st →
  has_output_dir (collect id st).2 ∧
  ∃ blk, trace (collect id st).2 = trace st ++ blk ∧ Forall open_has_dir blk.
Proof.
  unfold has_output_dir. intros Hd. split.
  - destruct (collect_files id st) as (blk & _ & [->|(name & fp & c & _ & _ & Hn & ->)]);
      [done|].
    unfold output_dir. rewrite cwd_store, entries_store_ne; [done|].
    intros ->. apply Hn. exact Hd.
  - collect_cases id st; cbn [snd trace files]; rewrite <- ?app_assoc; cbn [app];
      eexists; (split; [reflexivity|]);
      repeat first [apply Forall_nil_2 | apply Forall_cons_2];
      cbn; try done; try (by left).
    intros Hdir. apply dirname_result_path_plain in Hdir.
    destruct (open_w_in_dir _ _ Hd Hdir) as [[r E]|[E|[E|E]]];
      rewrite E in Eopen; [done|right..]; injection Eopen as <-; auto.
Qed.

(** Where [output] is a regular file, no workflow of the second loop is
    carried through: nothing is written and an [open] that is reached
    raises. *)
Lemma collect_no_dir id st c :
  Fs.entries (files st) !! output_dir (files st) = Some (Fs.File c) →
  (collect id st).1 ≠ Ok tt ∧
  files (collect id st).2 = files st ∧
  ∃ blk, trace (collect id st).2 = trace st ++ blk ∧
    Forall (λ e, match e with
                 | EvMakedirs _ _ | EvWrite _ _ => False
                 | EvOpen p r => r = Raised (no_directory p)
                 | _ => True
                 end) blk.
Proof.
  intros Hf.
  collect_cases id st; cbn [fst snd trace files]; rewrite <- ?app_assoc; cbn [app];
    try (by rewrite (open_w_no_dir _ _ _ Hf) in Eopen);
    (split; [done|]); (split; [done|]); eexists; (split; [reflexivity|]);
    repeat first [apply Forall_nil_2 | apply Forall_cons_2]; try done.
  rewrite (open_w_no_dir _ _ _ Hf) in Eopen. by injection Eopen as <-.
Qed.

End Collection.

(** ** Whole runs *)

Section Runs.
Context `{sdk : Sdk}.
Import Py.

(** The identifiers of the accepted submissions, in order. *)
Definition accepted (tr : list event) : list string :=
  omap (λ kr : tree * outcome Workflow,
          match kr.2 with
          | Ok wf => Some (wf_id wf)
          | Raised _ => None
          end) (submits tr).

Lemma submits_app tr1 tr2 : submits (tr1 ++ tr2) = submits tr1 ++ submits tr2.
Proof. apply omap_app. Qed.

Lemma submits_prelude fs : submits (prelude_events fs) = [].
Proof. unfold prelude_events. by destruct (Fs.path_exists fs foldername). Qed.

Lemma submits_about id blk :
  Forall (λ e, about id e = true) blk → submits blk = [].
Proof.
  induction 1 as [|e r He _ IH]; [done|].
  destruct e; try done; cbn in *; rewrite ?IH; done.
Qed.

Lemma submits_blocks ids blocks :
  Forall2 (λ id blk, Forall (λ e, about id e = true) blk) ids blocks →
  submits (concat blocks) = [].
Proof.
  induction 1 as [|id blk ids blocks Hb _ IH]; [done|].
  cbn [concat]. by rewrite submits_app, (submits_about _ _ Hb), IH.
Qed.

Lemma accepted_ok inputs w wfs :
  (submit_trace inputs w).1.1 = Ok wfs →
  accepted (submit_trace inputs w).2 = wf_id <$> wfs.
Proof.
  intros H. destruct (submit_trace_ok _ _ _ H) as [E Hl].
  unfold accepted. rewrite E. clear E H.
  revert wfs Hl. induction inputs as [|sn rest IH]; intros [|wf wfs] Hl; try done.
  cbn. f_equal. apply IH. by injection Hl.
Qed.

(** A run, by cases on how its first phase ends. *)
Lemma run_cases env SMILES SMILES_Names w fs :
  ∃ h',
    run env SMILES SMILES_Names w fs =
    match PromethiumClient w with
    | (Raised e, w0) =>
        (Raised e, mkState h' w0 (prelude_files fs) (prelude_events fs))
    | (Ok _, w0) =>
        match submit_trace (zip SMILES SMILES_Names) w0 with
        | (Raised e, w1, tr) =>
            (Raised e, mkState h' w1 (prelude_files fs) (prelude_events fs ++ tr))
        | (Ok wfs, w1, tr) =>
            collect_loop (wf_id <$> wfs)
              (mkState h' w1 (prelude_files fs) (prelude_events fs ++ tr))
        end
    end.
Proof.
  destruct (submission_eq env SMILES SMILES_Names w fs) as (h' & E & _).
  exists h'. unfold run, main, bind. rewrite E.
  destruct (PromethiumClient w) as [[u|e] w0]; [|done].
  destruct (submit_trace _ w0) as [[[wfs|e] w1] tr]; done.
Qed.

(** The events of a run: those of lines 33-34, then those of the first
    loop, then one block per workflow of the second loop, in the order
    the identifiers were stored. *)
Lemma run_phases (Inv : state → Prop) (B : string → list event → Prop)
    env SMILES SMILES_Names w fs :
  (∀ id st, Inv st →
     Inv (collect id st).2 ∧
     ∃ blk, trace (collect id st).2 = trace st ++ blk ∧ B id blk) →
  (∀ h w1 tr, Inv (mkState h w1 (prelude_files fs) tr)) →
  Inv (run env SMILES SMILES_Names w fs).2 ∧
  ∃ sub blocks,
    trace (run env SMILES SMILES_Names w fs).2
      = prelude_events fs ++ sub ++ concat blocks ∧
    Forall (λ e, is_submit_phase e = true) sub ∧
    (submits sub).*1 =
      (λ sn, payload_for sn.1 sn.2)
        <$> take (length (submits sub)) (zip SMILES SMILES_Names) ∧
    Forall2 B (take (length blocks) (accepted sub)) blocks ∧
    (blocks ≠ [] → length (accepted sub) = length (zip SMILES SMILES_Names)) ∧
    ((run env SMILES SMILES_Names w fs).1 = Ok tt →
       length blocks = length (accepted sub) ∧
       length (accepted sub) = length (zip SMILES SMILES_Names)).
Proof.
  intros Hstep Hinit.
  destruct (run_cases env SMILES SMILES_Names w fs) as (h' & ->).
  destruct (PromethiumClient w) as [[u|e] w0].
  2:{ split; [apply Hinit|]. exists [], []. cbn. rewrite app_nil_r.
      repeat split; try done; constructor. }
  pose proof (submit_trace_phase (zip SMILES SMILES_Names) w0) as Hph.
  pose proof (submit_trace_payloads (zip SMILES SMILES_Names) w0) as Hpl.
  pose proof (accepted_ok (zip SMILES SMILES_Names) w0) as Hacc.
  pose proof (submit_trace_ok (zip SMILES SMILES_Names) w0) as Hok.
  destruct (submit_trace _ w0) as [[[wfs|e] w1] tr]; cbn [fst snd] in *.
  - destruct (collect_loop_blocks Inv B Hstep (wf_id <$> wfs)
                (mkState h' w1 (prelude_files fs) (prelude_events fs ++ tr)))
      as (Hinv & blocks & Et & Hb & Hlen); [apply Hinit|].
    split; [done|]. exists tr, blocks. rewrite Et. cbn [trace].
    rewrite <- app_assoc, (Hacc wfs eq_refl).
    assert (length (wf_id <$> wfs) = length (zip SMILES SMILES_Names)).
    { destruct (Hok wfs eq_refl) as [_ <-]. by rewrite length_fmap. }
    repeat split; try done. by apply Hlen.
  - split; [apply Hinit|]. exists tr, []. cbn. rewrite app_nil_r.
    repeat split; try done; constructor.
Qed.

End Runs.

(** ** Properties of the script *)

Section Payloads.
Context `{sdk : Sdk}.
Import Py.

Lemma run_submits env SMILES SMILES_Names w fs :
  ∃ m, (submits (trace (run env SMILES SMILES_Names w fs).2)).*1 =
       (λ sn, payload_for sn.1 sn.2) <$> take m (zip SMILES SMILES_Names).
Proof.
  destruct (run_phases (λ _, True) (λ id blk, Forall (λ e, about id e = true) blk)
              env SMILES SMILES_Names w fs) as (_ & sub & blocks & Et & _ & Hp & Hb & _).
  - intros id st _. split; [done|].
    destruct (collect_about id st) as (blk & E & Ha & _). eauto.
  - done.
  - exists (length (submits sub)).
    rewrite Et, !submits_app, submits_prelude, (submits_blocks _ _ Hb), app_nil_r.
    done.
Qed.

Lemma payload_resources smile smile_name :
  tree_get (payload_for smile smile_name) "resources"
  = Some (TDict [("gpu_type", TStr "a100")]).
Proof. reflexivity. Qed.

(** C1 (as the code has it): the two environment variables are read and
    then not used.  With [PM_GPU_TYPE] set to [h100] the variable [gpu_type]
    holds [h100], yet the run is the run of the empty environment and every
    submitted payload asks for [a100] in [resources.gpu_type]. *)
Theorem C1_environment_read_but_unused :
  let env : gmap string string :=
    <["PM_GPU_TYPE" := "h100"]> (<["PM_API_BASE_URL" := "https://staging.example"]> ∅) in
  gpu_type env = "h100" ∧
  base_url env = "https://staging.example" ∧
  ∀ SMILES SMILES_Names w fs,
    run env SMILES SMILES_Names w fs = run ∅ SMILES SMILES_Names w fs ∧
    Forall (λ kr : tree * outcome Workflow,
              tree_get kr.1 "resources" = Some (TDict [("gpu_type", TStr "a100")]))
           (submits (trace (run env SMILES SMILES_Names w fs).2)).
Proof.
  cbv zeta. split; [reflexivity|]. split; [reflexivity|].
  intros SMILES SMILES_Names w fs. split; [reflexivity|].
  destruct (run_submits (<["PM_GPU_TYPE" := "h100"]>
                           (<["PM_API_BASE_URL" := "https://staging.example"]> ∅))
              SMILES SMILES_Names w fs) as [m Hm].
  refine (proj1 (Forall_fmap fst
            (λ t : tree, tree_get t "resources"
                         = Some (TDict [("gpu_type", TStr "a100")])) _) _).
  rewrite Hm. apply Forall_fmap, Forall_forall. intros [s n] _.
  apply payload_resources.
Qed.

Lemma name_for_inj a b : name_for a = name_for b → a = b.
Proof.
  unfold name_for. revert b. induction a as [|c a IH]; intros [|d b] H; try done.
  - apply (f_equal String.length) in H. rewrite !length_append in H.
    cbn [String.length] in H. lia.
  - apply (f_equal String.length) in H. rewrite !length_append in H.
    cbn [String.length] in H. lia.
  - change (String c (a +:+ "_api_conformer-search")
            = String d (b +:+ "_api_conformer-search")) in H.
    injection H as -> H. f_equal. by apply IH.
Qed.

(** C2: building the payloads of any list of inputs succeeds and leaves
    the template what it was; there is one dict per input, reading as the
    template with the name derived from its label and its molecule; replacing
    any object that one payload reaches changes neither the template nor
    another payload; distinct labels give distinct names; and this store is
    the one a run holds when its first loop has ended. *)
Theorem C2_payloads_independent (inputs : list (string * string)) :
  let tmpl := (alloc job_params []).1 in
  let h0 := (alloc job_params []).2 in
  ∃ tmps h,
    build_payloads tmpl inputs h0 = Ok (tmps, h) ∧
    value_of h0 tmpl = Some job_params ∧
    value_of h tmpl = Some job_params ∧
    length tmps = length inputs ∧
    (∀ i smile smile_name p,
       inputs !! i = Some (smile, smile_name) → tmps !! i = Some p →
       value_of h p = Some (payload_for smile smile_name) ∧
       tree_get (payload_for smile smile_name) "name"
         = Some (TStr (smile_name +:+ "_api_conformer-search")) ∧
       tree_set (tree_set (payload_for smile smile_name) "name" (TStr "name_placeholder"))
                "parameters"
                (tree_set (default (TDict [])
                             (tree_get (payload_for smile smile_name) "parameters"))
                          "molecule" (TDict []))
         = job_params) ∧
    (∀ i p l o,
       tmps !! i = Some p → l ∈ locs_of h p →
       value_of (<[l := o]> h) tmpl = Some job_params ∧
       ∀ j q, j ≠ i → tmps !! j = Some q →
              value_of (<[l := o]> h) q = value_of h q) ∧
    (∀ a b, a ≠ b → name_for a ≠ name_for b) ∧
    (∀ env SMILES SMILES_Names w fs ids st',
       inputs = zip SMILES SMILES_Names →
       submission env SMILES SMILES_Names (initial w fs) = (Ok ids, st') →
       objects st' = h).
Proof.
  cbv zeta. pose proof template_initial as Hok.
  destruct (build_payloads_spec inputs _ _ Hok) as (tmps & ext & E & Hlen & Hspec).
  pose proof (template_ok_extend _ _ ext Hok) as (Hv & Hl & _).
  assert (L0 : length (alloc job_params []).2 = 18%nat) by (vm_compute; reflexivity).
  exists tmps, ((alloc job_params []).2 ++ ext).
  split; [done|]. split; [by destruct Hok|]. split; [done|]. split; [done|].
  split; [|split].
  - intros i s n p Hi Hp. destruct (Hspec i s n Hi) as (Hp' & Hvp & _).
    rewrite Hp' in Hp. injection Hp as <-. split; [done|]. split; reflexivity.
  - intros i p l o Hp Hin.
    destruct (lookup_lt_is_Some_2 inputs i) as [[s n] Hi].
    { rewrite <- Hlen. by eapply lookup_lt_Some. }
    destruct (Hspec i s n Hi) as (Hp' & _ & Hli).
    rewrite Hp' in Hp. injection Hp as <-.
    rewrite Forall_forall in Hli. specialize (Hli l Hin). rewrite L0 in Hli.
    split.
    + destruct (value_of_update ((alloc job_params []).2 ++ ext)
                  (alloc job_params []).1 l o) as [-> _]; [|done].
      intros Hc. rewrite Forall_forall in Hl. specialize (Hl l Hc). lia.
    + intros j q Hne Hq.
      destruct (lookup_lt_is_Some_2 inputs j) as [[s' n'] Hj].
      { rewrite <- Hlen. by eapply lookup_lt_Some. }
      destruct (Hspec j s' n' Hj) as (Hq' & _ & Hlj).
      rewrite Hq' in Hq. injection Hq as <-.
      apply value_of_update. intros Hc.
      rewrite Forall_forall in Hlj. specialize (Hlj l Hc). rewrite L0 in Hlj. nia.
  - split; [intros a b Hne Hc; by apply Hne, name_for_inj|].
    intros env SMILES SMILES_Names w fs ids st' -> Hs.
    destruct (submission_objects _ _ _ _ _ _ _ Hs) as [tmps' E'].
    rewrite E in E'. by injection E' as _ <-.
Qed.

(** The keys of a dict, in order. *)
Definition keys (t : tree) : option (list string) :=
  match t with
  | TDict items => Some items.*1
  | _ => None
  end.

(** What is asked of the payload of one input: the molecule entry made of
    the base64 encoding of its SMILES string and the file type [smi], the
    name derived from its label, the template's version, kind, generation
    parameters, filters and resources, and no other entry. *)
Definition carries (kw : tree) (smile smile_name : string) : Prop :=
  (tree_get kw "parameters" ≫= λ p, tree_get p "molecule")
    = Some (TDict [("base64data", TStr (base64encode smile));
                   ("filetype", TStr "smi")]) ∧
  tree_get kw "name" = Some (TStr (smile_name +:+ "_api_conformer-search")) ∧
  tree_get kw "version" = tree_get job_params "version" ∧
  tree_get kw "kind" = tree_get job_params "kind" ∧
  (tree_get kw "parameters" ≫= λ p, tree_get p "params")
    = (tree_get job_params "parameters" ≫= λ p, tree_get p "params") ∧
  (tree_get kw "parameters" ≫= λ p, tree_get p "filters")
    = (tree_get job_params "parameters" ≫= λ p, tree_get p "filters") ∧
  tree_get kw "resources" = tree_get job_params "resources" ∧
  keys kw = Some ["name"; "version"; "kind"; "parameters"; "resources"] ∧
  (tree_get kw "parameters" ≫= keys) = Some ["molecule"; "params"; "filters"].

Lemma payload_for_carries smile smile_name :
  carries (payload_for smile smile_name) smile smile_name.
Proof. repeat split; reflexivity. Qed.

(** The first loop submits the payloads of the inputs in order, and stops
    short of an input only on an exception: that of the request constructor
    for that input, or that of the submission before it. *)
Lemma submit_trace_stops inputs : ∀ w,
  (length (submits (submit_trace inputs w).2) ≤ length inputs)%nat ∧
  (∀ k kw r, submits (submit_trace inputs w).2 !! k = Some (kw, r) →
     ∃ smile smile_name,
       inputs !! k = Some (smile, smile_name) ∧ kw = payload_for smile smile_name) ∧
  ((length (submits (submit_trace inputs w).2) < length inputs)%nat →
     ∃ e, (submit_trace inputs w).1.1 = Raised e ∧
       ((∃ kw, last (submits (submit_trace inputs w).2) = Some (kw, Raised e)) ∨
        (∃ smile smile_name,
           inputs !! length (submits (submit_trace inputs w).2)
             = Some (smile, smile_name) ∧
           CreateConformerSearchWorkflowRequest (payload_for smile smile_name)
             = Raised e))).
Proof.
  induction inputs as [|[s n] rest IH]; intros w; cbn [submit_trace].
  - cbn. split; [done|]. split; [done|]. lia.
  - destruct (CreateConformerSearchWorkflowRequest (payload_for s n)) as [req|e] eqn:Ec.
    2:{ cbn. split; [lia|]. split; [done|]. intros _. exists e. split; [done|].
        right. by exists s, n. }
    destruct (submit req w) as [[wf|e] w1].
    2:{ cbn. split; [lia|]. split.
        - intros [|k] kw r; [|done]. intros [= <- <-]. by exists s, n.
        - intros _. exists e. split; [done|]. left. by eexists. }
    destruct (IH w1) as (Hle & Hk & Hstop).
    destruct (submit_trace rest w1) as [[r w2] tr]. cbn [fst snd] in *.
    assert (E : submits (EvSubmit (payload_for s n) (Ok wf)
                           :: EvPrint (LineSubmitted (wf_name wf) (wf_id wf)) :: tr)
                = (payload_for s n, Ok wf) :: submits tr) by reflexivity.
    rewrite E. clear E. cbn [length].
    split; [lia|]. split.
    + intros [|k] kw r0.
      * intros [= <- <-]. by exists s, n.
      * cbn. apply Hk.
    + intros Hlt. destruct Hstop as (e & -> & Hcase); [lia|].
      exists e. split; [done|]. destruct Hcase as [[kw Hl]|Hc].
      * left. exists kw. destruct (submits tr) as [|x xs]; [done|].
        exact Hl.
      * right. exact Hc.
Qed.

(** C8: building the payload of an input gives a dict that carries the
    molecule entry of its SMILES string, the name of its label and the
    template's other fields; the payloads a run submits are these, the k-th
    for the k-th input pair; and every input pair is submitted unless the run
    has ended before with an exception: of the client's construction, of the
    request constructor for that very input, or of the last submission
    made. *)
Theorem C8_submitted_payload env SMILES SMILES_Names w fs :
  (∀ tmpl h smile smile_name,
     template_ok tmpl h →
     ∃ tmp h' kw,
       tmp_job_params tmpl smile smile_name h = Ok (tmp, h') ∧
       value_of h' tmp = Some kw ∧
       carries kw smile smile_name) ∧
  (length (submits (trace (run env SMILES SMILES_Names w fs).2))
     ≤ length (zip SMILES SMILES_Names))%nat ∧
  (∀ k kw r,
     submits (trace (run env SMILES SMILES_Names w fs).2) !! k = Some (kw, r) →
     ∃ smile smile_name,
       zip SMILES SMILES_Names !! k = Some (smile, smile_name) ∧
       carries kw smile smile_name) ∧
  ((length (submits (trace (run env SMILES SMILES_Names w fs).2))
      < length (zip SMILES SMILES_Names))%nat →
   ∃ e, (run env SMILES SMILES_Names w fs).1 = Raised e ∧
     ((PromethiumClient w).1 = Raised e ∨
      (∃ kw, last (submits (trace (run env SMILES SMILES_Names w fs).2))
               = Some (kw, Raised e)) ∨
      (∃ smile smile_name kw,
         zip SMILES SMILES_Names
           !! length (submits (trace (run env SMILES SMILES_Names w fs).2))
           = Some (smile, smile_name) ∧
         carries kw smile smile_name ∧
         CreateConformerSearchWorkflowRequest kw = Raised e))).
Proof.
  split.
  { intros tmpl h smile smile_name Hok.
    destruct (tmp_job_params_spec tmpl smile smile_name h Hok) as (ext & E & _ & Hv & _).
    eexists _, _, _. split; [exact E|]. split; [exact Hv|].
    apply payload_for_carries. }
  assert (Hsub : ∃ e0 w0,
            (run env SMILES SMILES_Names w fs).1 = Raised e0 ∧
            (PromethiumClient w).1 = Raised e0 ∧
            submits (trace (run env SMILES SMILES_Names w fs).2) = [] ∨
            (submits (trace (run env SMILES SMILES_Names w fs).2)
               = submits (submit_trace (zip SMILES SMILES_Names) w0).2 ∧
             ∀ e, (submit_trace (zip SMILES SMILES_Names) w0).1.1 = Raised e →
                  (run env SMILES SMILES_Names w fs).1 = Raised e)).
  { destruct (run_cases env SMILES SMILES_Names w fs) as (h' & ->).
    destruct (PromethiumClient w) as [[u|e] w0]; cbn [fst snd trace].
    2:{ exists e, w0. left. by rewrite submits_prelude. }
    exists (SdkError EmptyString), w0. right.
    destruct (submit_trace _ w0) as [[[wfs|e] w1] tr]; cbn [fst snd trace].
    - destruct (collect_loop_blocks (λ _, True)
                  (λ id blk, Forall (λ e, about id e = true) blk)) with
        (ids := wf_id <$> wfs)
        (st := mkState h' w1 (prelude_files fs) (prelude_events fs ++ tr))
        as (_ & blocks & -> & Hb & _); [|done|].
      { intros id st _. split; [done|].
        destruct (collect_about id st) as (blk & E & Ha & _). eauto. }
      cbn [trace].
      rewrite !submits_app, submits_prelude, (submits_blocks _ _ Hb), app_nil_r.
      done.
    - rewrite submits_app, submits_prelude. split; [done|]. by intros e0 [= ->]. }
  destruct Hsub as (e0 & w0 & [(Hr & Hc & ->)|[-> Hr]]).
  { cbn. split; [lia|]. split; [done|]. intros _. exists e0. auto. }
  destruct (submit_trace_stops (zip SMILES SMILES_Names) w0) as (Hle & Hk & Hstop).
  split; [done|]. split.
  - intros k kw r Hkr. destruct (Hk k kw r Hkr) as (s & n & Hi & ->).
    exists s, n. split; [done|]. apply payload_for_carries.
  - intros Hlt. destruct (Hstop Hlt) as (e & He & Hcase).
    exists e. split; [by apply Hr|]. right.
    destruct Hcase as [Hl|(s & n & Hi & Hc)]; [by left|].
    right. exists s, n, (payload_for s n). split; [done|].
    split; [apply payload_for_carries|done].
Qed.

(** What a first phase that ends normally has done. *)
Lemma submission_ok env SMILES SMILES_Names w fs ids st' :
  submission env SMILES SMILES_Names (initial w fs) = (Ok ids, st') →
  ∃ wfs,
    length ids = length (zip SMILES SMILES_Names) ∧
    ids = wf_id <$> wfs ∧
    submits (trace st') =
    zip_with (λ sn wf, (payload_for sn.1 sn.2, Ok wf)) (zip SMILES SMILES_Names) wfs.
Proof.
  destruct (submission_eq env SMILES SMILES_Names w fs) as (h' & -> & _).
  destruct (PromethiumClient w) as [[u|e] w0]; [|done].
  pose proof (submit_trace_ok (zip SMILES SMILES_Names) w0) as Hok.
  destruct (submit_trace _ w0) as [[[wfs|e] w1] tr]; [|done].
  cbn [fst snd ids_of app] in *. intros [= <- <-].
  destruct (Hok wfs eq_refl) as [E Hl]. exists wfs.
  rewrite length_fmap. split; [done|]. split; [done|]. cbn [trace].
  by rewrite submits_app, submits_prelude.
Qed.

(** C4: when the first phase ends normally, [workflow_ids] holds one
    identifier per input pair, the k-th being the identifier of the workflow
    that [submit] returned for the payload of the k-th pair. *)
Theorem C4_identifiers_in_order env SMILES SMILES_Names w fs ids st' :
  submission env SMILES SMILES_Names (initial w fs) = (Ok ids, st') →
  ∃ wfs,
    length ids = length (zip SMILES SMILES_Names) ∧
    length wfs = length (zip SMILES SMILES_Names) ∧
    (∀ k id, ids !! k = Some id → wf_id <$> wfs !! k = Some id) ∧
    ids = wf_id <$> wfs ∧
    submits (trace st') =
    zip_with (λ sn wf, (payload_for sn.1 sn.2, Ok wf)) (zip SMILES SMILES_Names) wfs.
Proof.
  intros E. destruct (submission_ok _ _ _ _ _ _ _ E) as (wfs & Hl & Hi & Hs).
  exists wfs. split; [done|]. split; [by rewrite <- Hl, Hi, length_fmap|].
  split; [|done]. intros k id. by rewrite Hi, list_lookup_fmap.
Qed.

(** With a collaborator whose calls never raise, the first phase ends
    normally. *)
Lemma submission_total env SMILES SMILES_Names w fs :
  (∀ w0, (PromethiumClient w0).1 = Ok tt) →
  (∀ kw, ∃ req, CreateConformerSearchWorkflowRequest kw = Ok req) →
  (∀ req w0, ∃ wf, (submit req w0).1 = Ok wf) →
  ∃ ids st', submission env SMILES SMILES_Names (initial w fs) = (Ok ids, st').
Proof.
  intros Hc Hr Hs.
  destruct (submission_eq env SMILES SMILES_Names w fs) as (h' & -> & _).
  specialize (Hc w). destruct (PromethiumClient w) as [[u|e] w0]; [|done].
  destruct (submit_trace_total (zip SMILES SMILES_Names) Hr Hs w0) as [wfs Hw].
  rewrite Hw. cbn. by eexists _, _.
Qed.

Lemma fst_zip_payloads (inputs : list (string * string)) : ∀ wfs : list Workflow,
  length wfs = length inputs →
  (zip_with (λ sn wf, (payload_for sn.1 sn.2, Ok wf)) inputs wfs).*1
  = (λ sn, payload_for sn.1 sn.2) <$> inputs.
Proof.
  induction inputs as [|sn l IH]; intros [|wf wfs] H; try done.
  cbn. f_equal. apply IH. by injection H.
Qed.

Lemma zip_take_min {A B} (l : list A) : ∀ k : list B,
  zip l k = zip (take (length l `min` length k) l) (take (length l `min` length k) k).
Proof.
  induction l as [|x l IH]; intros [|y k]; try done.
  cbn. f_equal. apply IH.
Qed.

(** C10: lists of different lengths raise nothing by themselves: with a
    collaborator whose calls do not raise, the first phase ends normally
    after submitting one workflow per pair of [zip], that is as many as the
    shorter list has entries. *)
Theorem C10_zip_truncates env SMILES SMILES_Names w fs :
  (∀ w0, (PromethiumClient w0).1 = Ok tt) →
  (∀ kw, ∃ req, CreateConformerSearchWorkflowRequest kw = Ok req) →
  (∀ req w0, ∃ wf, (submit req w0).1 = Ok wf) →
  ∃ ids st',
    submission env SMILES SMILES_Names (initial w fs) = (Ok ids, st') ∧
    length ids = (length SMILES `min` length SMILES_Names)%nat ∧
    length (submits (trace st')) = (length SMILES `min` length SMILES_Names)%nat ∧
    (submits (trace st')).*1 =
      (λ sn, payload_for sn.1 sn.2) <$> zip SMILES SMILES_Names ∧
    zip SMILES SMILES_Names =
      zip (take (length SMILES `min` length SMILES_Names) SMILES)
          (take (length SMILES `min` length SMILES_Names) SMILES_Names).
Proof.
  intros Hc Hr Hs.
  destruct (submission_total env SMILES SMILES_Names w fs Hc Hr Hs) as (ids & st' & E).
  destruct (submission_ok _ _ _ _ _ _ _ E) as (wfs & Hl & Hi & Hsub).
  exists ids, st'. split; [done|].
  assert (Hz : length (zip SMILES SMILES_Names)
               = (length SMILES `min` length SMILES_Names)%nat)
    by apply length_zip_with.
  assert (Hw : length wfs = length (zip SMILES SMILES_Names)).
  { rewrite <- Hl, Hi. by rewrite length_fmap. }
  split; [by rewrite Hl|]. split.
  - rewrite Hsub, length_zip_with, Hw. lia.
  - split; [rewrite Hsub; by apply fst_zip_payloads|apply zip_take_min].
Qed.

(** The claim of per-item batch semantics, as stated: after a submission
    that raised, every later input is still submitted. *)
Definition batch_semantics env SMILES SMILES_Names w fs : Prop :=
  ∀ i kw e,
    submits (trace (run env SMILES SMILES_Names w fs).2) !! i = Some (kw, Raised e) →
    ∀ j, (i < j < length (zip SMILES SMILES_Names))%nat →
         is_Some (submits (trace (run env SMILES SMILES_Names w fs).2) !! j).

Lemma prelude_not_submit fs i kw r : prelude_events fs !! i ≠ Some (EvSubmit kw r).
Proof.
  unfold prelude_events. destruct (Fs.path_exists fs foldername); [done|].
  by destruct i as [|[|i]].
Qed.

Lemma lookup_prelude_app fs tr i kw r :
  (prelude_events fs ++ tr) !! i = Some (EvSubmit kw r) →
  (length (prelude_events fs) ≤ i)%nat ∧
  tr !! (i - length (prelude_events fs))%nat = Some (EvSubmit kw r).
Proof.
  intros H. apply lookup_app_Some in H as [H|H]; [|done].
  by apply prelude_not_submit in H.
Qed.

(** C3 (as the code has it): no exception is caught.  A submission that
    raises ends the run with that exception and is its last event: no later
    input is submitted and no workflow is waited for. *)
Theorem C3_failed_submit_aborts env SMILES SMILES_Names w fs i kw e :
  trace (run env SMILES SMILES_Names w fs).2 !! i = Some (EvSubmit kw (Raised e)) →
  (run env SMILES SMILES_Names w fs).1 = Raised e ∧
  length (trace (run env SMILES SMILES_Names w fs).2) = S i.
Proof.
  destruct (run_cases env SMILES SMILES_Names w fs) as (h' & ->).
  destruct (PromethiumClient w) as [[u|e0] w0]; cbn [fst snd trace].
  2:{ intros H. by apply prelude_not_submit in H. }
  pose proof (submit_trace_raised (zip SMILES SMILES_Names) w0) as Hr.
  destruct (submit_trace _ w0) as [[[wfs|e0] w1] tr]; cbn [fst snd trace] in *.
  - destruct (collect_loop_blocks (λ _, True)
                (λ id blk, Forall (λ e, about id e = true) blk)) with
      (ids := wf_id <$> wfs)
      (st := mkState h' w1 (prelude_files fs) (prelude_events fs ++ tr))
      as (_ & blocks & -> & Hb & _); [|done|].
    { intros id st _. split; [done|].
      destruct (collect_about id st) as (blk & E & Ha & _). eauto. }
    cbn [trace]. rewrite <- app_assoc. intros H.
    apply lookup_prelude_app in H as [_ H].
    apply lookup_app_Some in H as [H|[_ H]].
    + by destruct (Hr _ _ _ H).
    + apply list_elem_of_lookup_2 in H.
      assert (E : EvSubmit kw (Raised e) ∈ [EvSubmit kw (Raised e)]) by left.
      assert (S : submits (concat blocks) ≠ []).
      { apply list_elem_of_split in H as (l1 & l2 & ->).
        rewrite submits_app. cbn. by destruct (submits l1). }
      by rewrite (submits_blocks _ _ Hb) in S.
  - intros H. apply lookup_prelude_app in H as [Hle H].
    destruct (Hr _ _ _ H) as [[= ->] Hlen].
    split; [done|]. rewrite length_app, Hlen. lia.
Qed.

End Payloads.

Section Collected.
Context `{sdk : Sdk}.
Import Py.

Lemma submit_phase_status e : is_submit_phase e = true → status_read_terminal e = true.
Proof. by destruct e as [| | | | | | |[]]. Qed.

Lemma about_collect_phase id e : about id e = true → is_collect_phase e = true.
Proof. by destruct e as [| | | | | | |[]]. Qed.

Lemma Forall_concat_blocks {A} (P : event → Prop) (B : A → list event → Prop)
    (ids : list A) (blocks : list (list event)) :
  (∀ id blk, B id blk → Forall P blk) →
  Forall2 B ids blocks → Forall P (concat blocks).
Proof.
  intros HB. induction 1 as [|id blk ids blocks Hb _ IH]; [constructor|].
  cbn. apply Forall_app. eauto.
Qed.

(** C5: under the contract of [wait], every status that a run obtains
    from [get], and every status it prints, is terminal. *)
Theorem C5_status_terminal_after_wait status_of env SMILES SMILES_Names w fs :
  wait_contract status_of →
  Forall (λ e, status_read_terminal e = true)
         (trace (run env SMILES SMILES_Names w fs).2).
Proof.
  intros Hc.
  destruct (run_phases (λ _, True)
              (λ _ blk, Forall (λ e, status_read_terminal e = true) blk)
              env SMILES SMILES_Names w fs)
    as (_ & sub & blocks & -> & Hsub & _ & Hb & _).
  - intros id st _. split; [done|]. by apply (collect_terminal status_of).
  - done.
  - apply Forall_app. split.
    + unfold prelude_events. destruct (Fs.path_exists fs foldername); by repeat constructor.
    + apply Forall_app. split.
      * eapply Forall_impl; [exact Hsub|]. apply submit_phase_status.
      * eapply Forall_concat_blocks; [|exact Hb]. done.
Qed.

(** C6: a workflow of the second loop that is carried through opens and
    writes exactly one file, at [output/<workflow name>_results.json], holding
    the serialized result; nothing else changes in the file system, and the
    file lies directly in [output] when the name has no slash; reading the
    file back through any inverse of the serializer gives the result itself. *)
Theorem C6_result_file id st st' :
  collect id st = (Ok tt, st') →
  ∃ wf res text a fp,
    trace st' = trace st ++
      [EvWait id (Ok tt); EvGet id (Ok wf);
       EvPrint (LineCompleted (wf_name wf) (wf_status wf));
       EvPrint (LineDuration (wf_duration_seconds wf));
       EvResults id (Ok res);
       EvOpen (result_path (wf_name wf)) (Ok tt);
       EvWrite (result_path (wf_name wf)) text;
       EvPrint LineConformersHeader; EvPrint (LineConformers a)] ∧
    result_path (wf_name wf) = "output/" +:+ wf_name wf +:+ "_results.json" ∧
    model_dump_json res = Ok text ∧
    Fs.locate (files st) (result_path (wf_name wf)) = Ok fp ∧
    (Fs.contains "/" (wf_name wf) = false →
       fp = Fs.cwd (files st) ++ ["output"; wf_name wf +:+ "_results.json"]) ∧
    files st' = Fs.store fp (Fs.File text) (files st) ∧
    Fs.read (result_path (wf_name wf)) (files st') = Some text ∧
    ∀ parse : string → option WorkflowResult,
      (∀ r s, model_dump_json r = Ok s → parse s = Some r) →
      Fs.read (result_path (wf_name wf)) (files st') ≫= parse = Some res.
Proof.
  collect_cases id st; intros [= <-]. cbn [trace files].
  exists wf, res, text, a, fp. rewrite <- !app_assoc. cbn [app].
  apply open_w_ok in Eopen as (Hl & Hd & ->). rewrite write_opened.
  rewrite (read_stored _ _ _ _ Hl Hd).
  split; [done|]. split; [done|]. split; [done|]. split; [done|]. split.
  { intros Hp. destruct (locate_plain _ _ _ Hp Hl) as [-> _].
    unfold output_dir. by rewrite <- app_assoc. }
  split; [done|]. split; [done|].
  intros parse Hp. cbn. by apply Hp.
Qed.

(** A second loop that ends normally carried every workflow through. *)
Lemma collect_loop_ok id rest st st' :
  collect_loop (id :: rest) st = (Ok tt, st') →
  ∃ st1, collect id st = (Ok tt, st1) ∧ collect_loop rest st1 = (Ok tt, st').
Proof.
  rewrite collect_loop_cons. destruct (collect id st) as [[[]|e] st1]; [|done].
  intros H. by exists st1.
Qed.

(** C7: the events of a run are those of lines 33-34, then those of the
    first loop, then, only if every input was submitted, one block per stored
    identifier, in the order of submission, each about that identifier alone
    and starting with its [wait]; the second loop leaves the object store
    alone. *)
Theorem C7_two_phases env SMILES SMILES_Names w fs :
  ∃ sub blocks,
    trace (run env SMILES SMILES_Names w fs).2
      = prelude_events fs ++ sub ++ concat blocks ∧
    Forall (λ e, is_submit_phase e = true) sub ∧
    Forall (λ e, is_collect_phase e = true) (concat blocks) ∧
    (∀ e, is_submit_phase e = true → is_collect_phase e = false) ∧
    Forall2 (λ id blk, Forall (λ e, about id e = true) blk ∧
                       head blk = Some (EvWait id (default (Ok tt)
                                    (head (omap (λ e, match e with
                                                      | EvWait _ r => Some r
                                                      | _ => None
                                                      end) blk)))))
            (take (length blocks) (accepted sub)) blocks ∧
    (blocks ≠ [] → length (accepted sub) = length (zip SMILES SMILES_Names)) ∧
    ((run env SMILES SMILES_Names w fs).1 = Ok tt →
       length blocks = length (accepted sub)) ∧
    (∀ ids st, objects (collect_loop ids st).2 = objects st).
Proof.
  destruct (run_phases (λ _, True)
              (λ id blk, Forall (λ e, about id e = true) blk ∧
                         head blk = Some (EvWait id (default (Ok tt)
                                      (head (omap (λ e, match e with
                                                        | EvWait _ r => Some r
                                                        | _ => None
                                                        end) blk)))))
              env SMILES SMILES_Names w fs)
    as (_ & sub & blocks & E & Hsub & _ & Hb & Hne & Hok).
  - intros id st _. split; [done|].
    destruct (collect_about id st) as (blk & Et & Ha & Hh).
    exists blk. split; [done|]. split; [done|].
    destruct blk as [|e blk]; [done|]. injection Hh as ->. done.
  - done.
  - exists sub, blocks. split; [done|]. split; [done|]. split.
    { eapply Forall_concat_blocks; [|exact Hb]. intros id blk [Ha _].
      eapply Forall_impl; [exact Ha|]. apply about_collect_phase. }
    split. { by intros [| | | | | | |[]]. }
    split; [done|]. split; [done|]. split; [by intros H; apply Hok|].
    intros ids st. apply collect_loop_objects.
Qed.

(** C9 (as the code has it).  Where nothing or a directory stands at
    [output]: the directory is made first of all if nothing stands there, it
    is a directory when the run ends, and no result file directly under it
    fails to open for want of a directory.  Where a regular file stands at
    [output]: nothing is created or written, the file system stays as it is,
    every [open] that is reached raises ([NotADirectoryError], unless the
    path holds a NUL byte or is too long), and the run does not end normally
    unless there was no input pair. *)
Theorem C9_output_dir env SMILES SMILES_Names w fs :
  ((∀ c, Fs.entries fs !! output_dir fs ≠ Some (Fs.File c)) →
     (Fs.entries fs !! output_dir fs = None →
        head (trace (run env SMILES SMILES_Names w fs).2)
          = Some (EvMakedirs foldername (Ok tt))) ∧
     has_output_dir (run env SMILES SMILES_Names w fs).2 ∧
     Forall open_has_dir (trace (run env SMILES SMILES_Names w fs).2)) ∧
  (∀ c, Fs.entries fs !! output_dir fs = Some (Fs.File c) →
     files (run env SMILES SMILES_Names w fs).2 = fs ∧
     Forall (λ e, match e with
                  | EvMakedirs _ _ | EvWrite _ _ => False
                  | EvOpen p r =>
                      r = Raised (no_directory p) ∧
                      (Fs.contains Fs.NUL p = false →
                       (String.length p < Fs.PATH_MAX)%nat →
                       r = Raised (NotADirectoryError p))
                  | _ => True
                  end)
            (trace (run env SMILES SMILES_Names w fs).2) ∧
     ((run env SMILES SMILES_Names w fs).1 = Ok tt → zip SMILES SMILES_Names = [])).
Proof.
  split.
  - intros Hf.
    destruct (run_phases has_output_dir (λ _ blk, Forall open_has_dir blk)
                env SMILES SMILES_Names w fs)
      as (Hinv & sub & blocks & -> & Hsub & _ & Hb & _).
    + apply collect_output_dir.
    + intros h w1 tr. unfold has_output_dir, prelude_files. cbn [files].
      rewrite path_exists_foldername.
      destruct (Fs.entries fs !! output_dir fs) as [[|c]|] eqn:E; [done| |].
      * by destruct (Hf c).
      * unfold output_dir. rewrite cwd_store. cbn [Fs.store Fs.entries].
        by rewrite lookup_insert_eq.
    + split; [|split; [done|]].
      * intros Hn. unfold prelude_events. by rewrite path_exists_foldername, Hn.
      * apply Forall_app. split.
        -- unfold prelude_events. destruct (Fs.path_exists fs foldername);
             by repeat constructor.
        -- apply Forall_app. split.
           ++ eapply Forall_impl; [exact Hsub|]. by intros [| | | | | | |[]].
           ++ eapply Forall_concat_blocks; [|exact Hb]. done.
  - intros c Hf.
    assert (Hpf : prelude_files fs = fs).
    { unfold prelude_files. by rewrite path_exists_foldername, Hf. }
    assert (Hpe : prelude_events fs = []).
    { unfold prelude_events. by rewrite path_exists_foldername, Hf. }
    set (Q := λ e : event,
           match e with
           | EvMakedirs _ _ | EvWrite _ _ => False
           | EvOpen p r => r = Raised (no_directory p)
           | _ => True
           end).
    assert (Hstep : ∀ id st, files st = fs →
              files (collect id st).2 = fs ∧
              ∃ blk, trace (collect id st).2 = trace st ++ blk ∧ Forall Q blk).
    { intros id st Hst. rewrite <- Hst in Hf.
      destruct (collect_no_dir id st c Hf) as (_ & E & blk & Et & Hq).
      split; [by rewrite E|]. by exists blk. }
    destruct (run_phases (λ st, files st = fs) (λ _ blk, Forall Q blk)
                env SMILES SMILES_Names w fs Hstep)
      as (Hinv & sub & blocks & Et & Hsub & _ & Hb & _).
    { intros h w1 tr. cbn [files]. exact Hpf. }
    split; [exact Hinv|]. split.
    + rewrite Et, Hpe. cbn [app]. apply Forall_app. split.
      * eapply Forall_impl; [exact Hsub|]. by intros [| | | | | | |[]].
      * eapply Forall_impl.
        { eapply Forall_concat_blocks; [|exact Hb]. intros id blk H. exact H. }
        intros [] Hq; try done. cbn in Hq. split; [done|].
        intros Hn Hl. rewrite Hq. unfold no_directory. rewrite Hn.
        apply Nat.leb_gt in Hl. by rewrite Hl.
    + destruct (run_cases env SMILES SMILES_Names w fs) as (h' & ->).
      destruct (PromethiumClient w) as [[u|e] w0]; [|done].
      pose proof (submit_trace_ok (zip SMILES SMILES_Names) w0) as Hok.
      destruct (submit_trace _ w0) as [[[wfs|e] w1] tr]; [|done].
      destruct (Hok wfs eq_refl) as [_ Hlen].
      destruct wfs as [|wf wfs]; [intros _; by destruct (zip SMILES SMILES_Names)|].
      rewrite fmap_cons, collect_loop_cons.
      match goal with |- context [collect ?i ?s] =>
        destruct (collect_no_dir i s c) as (Hne & _) end.
      { cbn [files]. by rewrite Hpf. }
      by destruct (collect _ _) as [[[]|e] st1].
Qed.

End Collected.

(** ** Concrete runs against the test double *)

Module Runs.
Import Py.

(** A service that rejects the first request of the script's inputs. *)
Definition rejecting : Sdk :=
  Mock.service (String.eqb "Diethyl_Ether_api_conformer-search").

(** A service that has accepted nothing yet. *)
Definition idle : list Workflow := [].

Definition status_of (w : list Workflow) (id : string) : Status :=
  match Mock.find id w with
  | Some wf => wf_status wf
  | None => Pending
  end.

(** The state between the two loops, and the first stored identifier. *)
Definition after_submission : @state Mock.accepting :=
  (@submission Mock.accepting ∅ Mock.SMILES Mock.SMILES_Names (@initial Mock.accepting idle ∅)).2.

Definition first_id : string := "wf-Diethyl_Ether_api_conformer-search".

Definition after_first : @state Mock.accepting :=
  (@collect Mock.accepting first_id after_submission).2.

(** A working directory where [output] is a regular file. *)
Definition output_is_file : Fs.t := Fs.store ["output"] (Fs.File EmptyString) ∅.

Lemma outcome_eta {A S} (r : outcome A * S) (a : A) : r.1 = Ok a → r = (Ok a, r.2).
Proof. destruct r as [[x|e] st]; cbn; congruence. Qed.

Lemma finish_id id x : wf_id (Mock.finish id x) = wf_id x.
Proof. unfold Mock.finish. by destruct (String.eqb (wf_id x) id). Qed.

Lemma finish_status id x :
  String.eqb (wf_id x) id = true → wf_status (Mock.finish id x) = Completed.
Proof. unfold Mock.finish. by intros ->. Qed.

Lemma find_finish id w wf :
  Mock.find id w = Some wf →
  ∃ wf', Mock.find id (Mock.finish id <$> w) = Some wf' ∧ wf_status wf' = Completed.
Proof.
  unfold Mock.find. induction w as [|x w IH]; [done|].
  rewrite fmap_cons. cbn [List.find]. rewrite finish_id.
  destruct (String.eqb (wf_id x) id) eqn:E.
  - intros _. eexists. split; [reflexivity|]. by apply finish_status.
  - apply IH.
Qed.

Lemma accepting_contract : @wait_contract Mock.accepting status_of.
Proof.
  split.
  - intros id w w'. cbn. destruct (Mock.find id w) as [wf|] eqn:E; [|done].
    intros [= <-]. destruct (find_finish _ _ _ E) as (wf' & E' & Hs).
    unfold status_of. by rewrite E', Hs.
  - intros id w wf w' _. cbn. unfold status_of.
    destruct (Mock.find id w) as [wf0|]; [|done]. by intros [= <- _].
Qed.

Example b64_diethyl_ether : Mock.b64 "CCOCC" = "Q0NPQ0M=".
Proof. reflexivity. Qed.

(** The scenario of one input: one workflow is submitted under the derived
    name, and its result file is there when the run has ended. *)
Example diethyl_ether_scenario :
  (@run Mock.accepting ∅ ["CCOCC"] ["Diethyl_Ether"] idle ∅).1 = Ok tt ∧
  accepted (trace (@run Mock.accepting ∅ ["CCOCC"] ["Diethyl_Ether"] idle ∅).2)
    = [first_id] ∧
  Fs.read "output/Diethyl_Ether_api_conformer-search_results.json"
          (files (@run Mock.accepting ∅ ["CCOCC"] ["Diethyl_Ether"] idle ∅).2)
    = Some "conformers of Diethyl_Ether_api_conformer-search".
Proof. repeat split; vm_compute; reflexivity. Qed.

(** C3, counterexample: the service rejects the first of two inputs; the
    second is never submitted. *)
Lemma C3_counterexample :
  ¬ @batch_semantics rejecting ∅ Mock.SMILES Mock.SMILES_Names idle ∅.
Proof.
  intros H.
  specialize (H 0%nat (@payload_for rejecting "CCOCC" "Diethyl_Ether")
                (SdkError "rejected")).
  assert (E : is_Some (submits (trace (@run rejecting ∅ Mock.SMILES
                                         Mock.SMILES_Names idle ∅).2) !! 1%nat)).
  { apply H; [vm_compute; reflexivity|]. vm_compute. lia. }
  vm_compute in E. destruct E as [x E]. discriminate E.
Qed.

(** The rejecting service: the rejected submission is the second and last
    event of the run, which ends with the exception. *)
Lemma C3_witness :
  (@run rejecting ∅ Mock.SMILES Mock.SMILES_Names idle ∅).1 = Raised (SdkError "rejected") ∧
  length (trace (@run rejecting ∅ Mock.SMILES Mock.SMILES_Names idle ∅).2) = 2%nat.
Proof.
  apply (@C3_failed_submit_aborts rejecting ∅ Mock.SMILES Mock.SMILES_Names idle ∅ 1
           (@payload_for rejecting "CCOCC" "Diethyl_Ether") (SdkError "rejected")).
  vm_cast_no_check
    (@eq_refl (option (@event rejecting))
       (Some (EvSubmit (@payload_for rejecting "CCOCC" "Diethyl_Ether")
                       (Raised (SdkError "rejected"))))).
Defined.

(** The script's two inputs against the accepting service: two stored
    identifiers, those of the two workflows returned. *)
Lemma C4_witness :
  ∃ wfs,
    length [first_id; "wf-Nirmatrelvir_api_conformer-search"]
      = length (zip Mock.SMILES Mock.SMILES_Names) ∧
    length wfs = length (zip Mock.SMILES Mock.SMILES_Names) ∧
    (∀ k id, [first_id; "wf-Nirmatrelvir_api_conformer-search"] !! k = Some id →
             wf_id <$> wfs !! k = Some id) ∧
    [first_id; "wf-Nirmatrelvir_api_conformer-search"] = wf_id <$> wfs ∧
    submits (trace after_submission) =
    zip_with (λ sn wf, (@payload_for Mock.accepting sn.1 sn.2, Ok wf))
             (zip Mock.SMILES Mock.SMILES_Names) wfs.
Proof.
  apply (@C4_identifiers_in_order Mock.accepting ∅ Mock.SMILES Mock.SMILES_Names idle ∅).
  unfold after_submission.
  refine (outcome_eta
            (@submission Mock.accepting ∅ Mock.SMILES Mock.SMILES_Names
               (@initial Mock.accepting idle ∅)) _ _).
  vm_compute. reflexivity.
Defined.

(** The accepting service honours the contract of [wait]. *)
Lemma C5_witness :
  Forall (λ e, status_read_terminal e = true)
         (trace (@run Mock.accepting ∅ Mock.SMILES Mock.SMILES_Names idle ∅).2).
Proof.
  apply (@C5_status_terminal_after_wait Mock.accepting status_of).
  exact accepting_contract.
Defined.

(** The first workflow of the script's inputs, carried through. *)
Lemma C6_witness :
  ∃ wf res text a fp,
    trace after_first = trace after_submission ++
      [EvWait first_id (Ok tt); EvGet first_id (Ok wf);
       EvPrint (LineCompleted (wf_name wf) (wf_status wf));
       EvPrint (LineDuration (wf_duration_seconds wf));
       EvResults first_id (Ok res);
       EvOpen (result_path (wf_name wf)) (Ok tt);
       EvWrite (result_path (wf_name wf)) text;
       EvPrint LineConformersHeader; EvPrint (LineConformers a)] ∧
    result_path (wf_name wf) = "output/" +:+ wf_name wf +:+ "_results.json" ∧
    @model_dump_json Mock.accepting res = Ok text ∧
    Fs.locate (files after_submission) (result_path (wf_name wf)) = Ok fp ∧
    (Fs.contains "/" (wf_name wf) = false →
       fp = Fs.cwd (files after_submission) ++ ["output"; wf_name wf +:+ "_results.json"]) ∧
    files after_first = Fs.store fp (Fs.File text) (files after_submission) ∧
    Fs.read (result_path (wf_name wf)) (files after_first) = Some text ∧
    ∀ parse : string → option (@WorkflowResult Mock.accepting),
      (∀ r s, @model_dump_json Mock.accepting r = Ok s → parse s = Some r) →
      Fs.read (result_path (wf_name wf)) (files after_first) ≫= parse = Some res.
Proof.
  apply (@C6_result_file Mock.accepting first_id after_submission after_first).
  unfold after_first.
  refine (outcome_eta (@collect Mock.accepting first_id after_submission) tt _).
  vm_compute. reflexivity.
Defined.

(** C9, counterexample: [output] is a regular file; nothing is created
    and the first result file cannot be opened, for want of the directory. *)
Lemma C9_counterexample :
  ¬ Forall open_has_dir
      (trace (@run Mock.accepting ∅ Mock.SMILES Mock.SMILES_Names idle output_is_file).2).
Proof.
  intros H.
  assert (E : trace (@run Mock.accepting ∅ Mock.SMILES Mock.SMILES_Names idle
                       output_is_file).2 !! 9%nat
              = Some (EvOpen "output/Diethyl_Ether_api_conformer-search_results.json"
                        (Raised (NotADirectoryError
                           "output/Diethyl_Ether_api_conformer-search_results.json")))).
  { vm_cast_no_check
      (@eq_refl (option (@event Mock.accepting))
         (Some (EvOpen "output/Diethyl_Ether_api_conformer-search_results.json"
                  (Raised (NotADirectoryError
                     "output/Diethyl_Ether_api_conformer-search_results.json"))))). }
  pose proof (Forall_lookup_1 _ _ _ _ H E) as F. cbn [open_has_dir] in F.
  destruct F as [F|[F|[F|F]]]; [vm_compute; reflexivity|discriminate F..].
Qed.

(** An empty working directory, and one where [output] is a regular
    file. *)
Lemma C9_witness :
  ((Fs.entries ∅ !! output_dir ∅ = None →
      head (trace (@run Mock.accepting ∅ Mock.SMILES Mock.SMILES_Names idle ∅).2)
        = Some (EvMakedirs foldername (Ok tt))) ∧
   has_output_dir (@run Mock.accepting ∅ Mock.SMILES Mock.SMILES_Names idle ∅).2 ∧
   Forall open_has_dir
     (trace (@run Mock.accepting ∅ Mock.SMILES Mock.SMILES_Names idle ∅).2)) ∧
  (files (@run Mock.accepting ∅ Mock.SMILES Mock.SMILES_Names idle output_is_file).2
     = output_is_file ∧
   Forall (λ e, match e with
                | EvMakedirs _ _ | EvWrite _ _ => False
                | EvOpen p r =>
                    r = Raised (no_directory p) ∧
                    (Fs.contains Fs.NUL p = false →
                     (String.length p < Fs.PATH_MAX)%nat →
                     r = Raised (NotADirectoryError p))
                | _ => True
                end)
          (trace (@run Mock.accepting ∅ Mock.SMILES Mock.SMILES_Names idle
                    output_is_file).2) ∧
   ((@run Mock.accepting ∅ Mock.SMILES Mock.SMILES_Names idle output_is_file).1 = Ok tt →
    zip Mock.SMILES Mock.SMILES_Names = [])).
Proof.
  split.
  - apply (proj1 (@C9_output_dir Mock.accepting ∅ Mock.SMILES Mock.SMILES_Names idle ∅)).
    intros c. discriminate.
  - apply (proj2 (@C9_output_dir Mock.accepting ∅ Mock.SMILES Mock.SMILES_Names idle
                    output_is_file) EmptyString).
    reflexivity.
Defined.

(** Two SMILES strings and one label: one submission. *)
Lemma C10_witness :
  ∃ ids st',
    @submission Mock.accepting ∅ Mock.SMILES ["Diethyl_Ether"] (@initial Mock.accepting idle ∅)
      = (Ok ids, st') ∧
    length ids = (length Mock.SMILES `min` length ["Diethyl_Ether"])%nat ∧
    length (submits (trace st')) = (length Mock.SMILES `min` length ["Diethyl_Ether"])%nat ∧
    (submits (trace st')).*1 =
      (λ sn, @payload_for Mock.accepting sn.1 sn.2) <$> zip Mock.SMILES ["Diethyl_Ether"] ∧
    zip Mock.SMILES ["Diethyl_Ether"] =
      zip (take (length Mock.SMILES `min` length ["Diethyl_Ether"]) Mock.SMILES)
          (take (length Mock.SMILES `min` length ["Diethyl_Ether"]) ["Diethyl_Ether"]).
Proof.
  apply (@C10_zip_truncates Mock.accepting ∅ Mock.SMILES ["Diethyl_Ether"] idle ∅).
  - intros w0. reflexivity.
  - intros kw. exists kw. reflexivity.
  - intros req w0. eexists. reflexivity.
Defined.

End Runs.

(** ** Further properties: exceptions *)

Section Failures.
Context `{sdk : Sdk}.
Import Py.

(** The exception of a call to the service, or of [open], that raised.
    (Lines 33-34 make the directory only where nothing stands, in a working
    directory that can be written to: that call does not raise here.) *)
Definition raised_by (ev : event) : option exn :=
  match ev with
  | EvSubmit _ (Raised e) | EvWait _ (Raised e)
  | EvGet _ (Raised e) | EvResults _ (Raised e) | EvOpen _ (Raised e) => Some e
  | _ => None
  end.

Lemma collect_raised id st :
  ∃ blk, trace (collect id st).2 = trace st ++ blk ∧
    ∀ i ev e, blk !! i = Some ev → raised_by ev = Some e →
              (collect id st).1 = Raised e ∧ length blk = S i.
Proof.
  collect_cases id st; cbn [fst snd trace]; rewrite <- ?app_assoc; cbn [app];
    eexists; (split; [reflexivity|]); intros i ev e0 Hi Hr;
    repeat (destruct i as [|i]; [injection Hi as <-; cbn in Hr; try done;
                                 by injection Hr as <-|]);
    done.
Qed.

Lemma collect_loop_raised ids : ∀ st,
  ∃ tr, trace (collect_loop ids st).2 = trace st ++ tr ∧
    ∀ i ev e, tr !! i = Some ev → raised_by ev = Some e →
              (collect_loop ids st).1 = Raised e ∧ length tr = S i.
Proof.
  induction ids as [|id rest IH]; intros st.
  - exists []. cbn. rewrite app_nil_r. done.
  - rewrite collect_loop_cons.
    destruct (collect_raised id st) as (blk & Eb & Hb).
    destruct (collect id st) as [[[]|e0] st1]; cbn [fst snd] in *.
    + destruct (IH st1) as (tr & Et & Ht).
      exists (blk ++ tr). rewrite Et, Eb, <- app_assoc. split; [done|].
      intros i ev e Hi Hr. apply lookup_app_Some in Hi as [Hi|[Hle Hi]].
      * by destruct (Hb _ _ _ Hi Hr).
      * destruct (Ht _ _ _ Hi Hr) as [-> Hl]. split; [done|].
        rewrite length_app, Hl. lia.
    + exists blk. split; [done|]. apply Hb.
Qed.

Lemma submit_trace_events inputs : ∀ w i ev e,
  (submit_trace inputs w).2 !! i = Some ev → raised_by ev = Some e →
  ∃ kw, ev = EvSubmit kw (Raised e).
Proof.
  intros w i ev e Hi Hr.
  pose proof (submit_trace_phase inputs w) as Hp.
  rewrite Forall_forall in Hp. specialize (Hp ev (list_elem_of_lookup_2 _ _ _ Hi)).
  destruct ev as [| kw [wf|e0] | | | | | |]; try done. injection Hr as <-. by eexists.
Qed.

(** X1: no call to the service and no [open] is guarded.  Whichever of
    them raises (submit, wait, get, results, open), the run ends with that
    exception and the call is its last event. *)
Theorem first_failure_ends_run env SMILES SMILES_Names w fs i ev e :
  trace (run env SMILES SMILES_Names w fs).2 !! i = Some ev →
  raised_by ev = Some e →
  (run env SMILES SMILES_Names w fs).1 = Raised e ∧
  length (trace (run env SMILES SMILES_Names w fs).2) = S i.
Proof.
  assert (Hpre : ∀ j ev0 e0, prelude_events fs !! j = Some ev0 → raised_by ev0 ≠ Some e0).
  { unfold prelude_events. destruct (Fs.path_exists fs foldername); [done|].
    intros [|j] ev0 e0; [|done]. by intros [= <-]. }
  destruct (run_cases env SMILES SMILES_Names w fs) as (h' & ->).
  destruct (PromethiumClient w) as [[u|e0] w0]; cbn [fst snd trace].
  2:{ intros Hi Hr. by destruct (Hpre _ _ e Hi). }
  pose proof (submit_trace_raised (zip SMILES SMILES_Names) w0) as Hr.
  pose proof (submit_trace_events (zip SMILES SMILES_Names) w0) as He.
  destruct (submit_trace _ w0) as [[[wfs|e0] w1] tr]; cbn [fst snd trace] in *.
  - destruct (collect_loop_raised (wf_id <$> wfs)
                (mkState h' w1 (prelude_files fs) (prelude_events fs ++ tr)))
      as (tr2 & -> & Ht).
    cbn [trace]. intros Hi Hra.
    apply lookup_app_Some in Hi as [Hi|[Hle Hi]].
    + apply lookup_app_Some in Hi as [Hi|[Hle Hi]]; [by destruct (Hpre _ _ e Hi)|].
      destruct (He _ _ _ Hi Hra) as [kw ->]. by destruct (Hr _ _ _ Hi).
    + destruct (Ht _ _ _ Hi Hra) as [-> Hl]. split; [done|].
      rewrite length_app, Hl. lia.
  - intros Hi Hra.
    apply lookup_app_Some in Hi as [Hi|[Hle Hi]]; [by destruct (Hpre _ _ e Hi)|].
    destruct (He _ _ _ Hi Hra) as [kw ->].
    destruct (Hr _ _ _ Hi) as [[= ->] Hl]. split; [done|].
    rewrite length_app, Hl. lia.
Qed.

End Failures.

(** ** Further properties: the file system *)

Section Files.
Context `{sdk : Sdk}.
Import Py.

#[local] Instance entry_eq_dec : EqDecision Fs.entry.
Proof. solve_decision. Defined.

(** What a run has changed in the file system so far: the directory
    [output], and the places of the result files it has opened. *)
Definition touched (fs : Fs.t) (st : state) : Prop :=
  Fs.cwd (files st) = Fs.cwd fs ∧
  ∀ l, Fs.entries (files st) !! l ≠ Fs.entries fs !! l →
       l = output_dir fs ∨
       ∃ name, EvOpen (result_path name) (Ok tt) ∈ trace st ∧
               Fs.locate (files st) (result_path name) = Ok l.

Lemma collect_touched fs id st :
  touched fs st → touched fs (collect id st).2.
Proof.
  intros [Hc Ht]. unfold touched.
  destruct (collect_files id st) as (blk & Et & [E|(name & fp & c & Hin & Hl & Hd & E)]);
    rewrite E, Et; (split; [done|]).
  - intros l Hne. destruct (Ht l Hne) as [->|(n & Hn & Hloc)]; [by left|].
    right. exists n. split; [|done]. apply elem_of_app. by left.
  - intros l Hne. destruct (decide (fp = l)) as [<-|Hfl].
    + right. exists name. split; [apply elem_of_app; by right|].
      by apply locate_store.
    + rewrite entries_store_ne in Hne by done.
      destruct (Ht l Hne) as [->|(n & Hn & Hloc)]; [by left|].
      right. exists n. split; [apply elem_of_app; by left|].
      by apply locate_store.
Qed.

(** X2: a run changes nothing in the file system but the entry [output]
    of the working directory and the places of the result files it opened,
    whatever the service answers and however the run ends.  For a name
    without a slash that place is the file [<name>_results.json] directly in
    [output]; a name with slashes in it may lead elsewhere. *)
Theorem only_output_is_touched env SMILES SMILES_Names w fs l :
  Fs.entries (files (run env SMILES SMILES_Names w fs).2) !! l ≠ Fs.entries fs !! l →
  Fs.cwd (files (run env SMILES SMILES_Names w fs).2) = Fs.cwd fs ∧
  (l = output_dir fs ∨
   ∃ name,
     EvOpen (result_path name) (Ok tt) ∈ trace (run env SMILES SMILES_Names w fs).2 ∧
     Fs.locate (files (run env SMILES SMILES_Names w fs).2) (result_path name) = Ok l ∧
     (Fs.contains "/" name = false →
      l = output_dir fs ++ [name +:+ "_results.json"])).
Proof.
  destruct (run_phases (touched fs) (λ _ _, True) env SMILES SMILES_Names w fs)
    as [[Hc Ht] _].
  - intros id st Hst. split; [by apply collect_touched|].
    destruct (collect_about id st) as (blk & E & _); eauto.
  - intros h w1 tr. split; cbn [files]; unfold prelude_files;
      destruct (Fs.path_exists fs foldername); try done.
    intros l0 Hne. left. destruct (decide (output_dir fs = l0)) as [|Hn]; [done|].
    by rewrite entries_store_ne in Hne.
  - intros Hne. split; [done|].
    destruct (Ht l Hne) as [->|(name & Hin & Hl)]; [by left|].
    right. exists name. split; [done|]. split; [done|].
    intros Hp. destruct (locate_plain _ _ _ Hp Hl) as [-> _].
    unfold output_dir. by rewrite Hc.
Qed.

(** *** Where a result file goes *)

(** A name that [open] looks up as it is: not empty, not [.] or [..],
    without a slash and of at most 255 bytes. *)
Definition proper_name (d : string) : bool :=
  negb (Fs.contains "/" d) && negb (String.eqb d EmptyString) &&
  negb (String.eqb d ".") && negb (String.eqb d "..") &&
  Nat.leb (String.length d) Fs.NAME_MAX.

Lemma split_app_dir d rest :
  Fs.contains "/" d = false →
  Fs.split (d +:+ "/" +:+ rest) = (d :: (Fs.split rest).1, (Fs.split rest).2).
Proof.
  induction d as [|c d IH].
  - intros _. change (EmptyString +:+ "/" +:+ rest) with (String "/" rest).
    cbn [Fs.split]. by destruct (Fs.split rest).
  - cbn [Fs.contains]. intros [Hc Hd]%orb_false_iff.
    change (String c d +:+ "/" +:+ rest) with (String c (d +:+ "/" +:+ rest)).
    cbn [Fs.split]. rewrite (IH Hd), Hc. done.
Qed.

(** X3: the name the service reports is put into the path as it is.  If
    it starts with a proper name followed by a slash, the file is looked for
    in a sub-directory of [output] that the script does not make: where
    [output] is a directory and nothing stands in it under that name, [open]
    raises [FileNotFoundError], the result is not written and the file system
    is left as it was. *)
Theorem slash_in_name_fails id st w1 wf w2 res w3 d rest :
  wait id (world st) = (Ok tt, w1) →
  get id w1 = (Ok wf, w2) →
  results id w2 = (Ok res, w3) →
  wf_name wf = d +:+ "/" +:+ rest →
  proper_name d = true →
  Fs.contains Fs.NUL (wf_name wf) = false →
  (String.length (result_path (wf_name wf)) < Fs.PATH_MAX)%nat →
  Fs.entries (files st) !! output_dir (files st) = Some Fs.Dir →
  Fs.entries (files st) !! (output_dir (files st) ++ [d]) = None →
  (collect id st).1 = Raised (FileNotFoundError (result_path (wf_name wf))) ∧
  files (collect id st).2 = files st ∧
  trace (collect id st).2 = trace st ++
    [EvWait id (Ok tt); EvGet id (Ok wf);
     EvPrint (LineCompleted (wf_name wf) (wf_status wf));
     EvPrint (LineDuration (wf_duration_seconds wf));
     EvResults id (Ok res);
     EvOpen (result_path (wf_name wf))
            (Raised (FileNotFoundError (result_path (wf_name wf))))].
Proof.
  intros Hw Hg Hr Hname Hd Hnul Hlen Hdir Hnone.
  assert (Eo : Fs.open_w (result_path (wf_name wf)) (files st)
               = Raised (FileNotFoundError (result_path (wf_name wf)))).
  { unfold Fs.open_w. rewrite locate_result_path, Hnul, Hdir.
    rewrite length_result_path in Hlen. apply Nat.leb_gt in Hlen. rewrite Hlen.
    unfold proper_name in Hd.
    repeat (apply andb_true_iff in Hd as [Hd ?]).
    rewrite Hname at 2. rewrite split_app_dir by (by apply negb_true_iff).
    cbn [fst Fs.walk].
    repeat match goal with H : negb _ = true |- _ => apply negb_true_iff in H end.
    repeat match goal with H : String.eqb d _ = false |- _ => rewrite H end.
    cbn [orb].
    assert (Hn : Nat.ltb Fs.NAME_MAX (String.length d) = false).
    { apply Nat.ltb_ge. by apply Nat.leb_le. }
    by rewrite Hn, Hnone. }
  unfold collect, bind, call, emit, open_file, lift_outcome.
  cbn [world files trace objects]. rewrite Hw. cbn [world files trace objects].
  rewrite Hg. cbn [world files trace objects]. rewrite Hr.
  cbn [world files trace objects]. rewrite Eo. cbn.
  rewrite <- !app_assoc. done.
Qed.

(** X4: the file is opened for writing before the result is serialized.
    If the serializer raises, the iteration ends with its exception and
    leaves an empty file at the result path: whatever stood there is lost,
    and nothing is written. *)
Theorem failed_dump_leaves_empty_file id st w1 wf w2 res w3 fp fs1 e :
  wait id (world st) = (Ok tt, w1) →
  get id w1 = (Ok wf, w2) →
  results id w2 = (Ok res, w3) →
  Fs.open_w (result_path (wf_name wf)) (files st) = Ok (fp, fs1) →
  model_dump_json res = Raised e →
  (collect id st).1 = Raised e ∧
  files (collect id st).2 = Fs.store fp (Fs.File EmptyString) (files st) ∧
  Fs.read (result_path (wf_name wf)) (files (collect id st).2) = Some EmptyString ∧
  Forall (λ ev, match ev with EvWrite _ _ => False | _ => True end)
         (drop (length (trace st)) (trace (collect id st).2)).
Proof.
  intros Hw Hg Hr Ho Hd. pose proof (open_w_ok _ _ _ _ Ho) as (Hl & Hn & ->).
  unfold collect, bind, call, emit, open_file, lift_outcome.
  cbn [world files trace objects]. rewrite Hw. cbn [world files trace objects].
  rewrite Hg. cbn [world files trace objects]. rewrite Hr.
  cbn [world files trace objects]. rewrite Ho. cbn [world files trace objects].
  rewrite Hd. cbn [fst snd files trace].
  split; [done|]. split; [done|]. split.
  - by apply read_stored.
  - rewrite <- !app_assoc, drop_app_length. by repeat constructor.
Qed.

(** X5: the artifact is asked for after the file is written.  If
    [get_artifact] raises, the iteration ends with its exception, the header
    and the conformers are not printed, and the result file is on disk with
    the serialized result. *)
Theorem file_written_before_artifact id st w1 wf w2 res w3 fp fs1 text e :
  wait id (world st) = (Ok tt, w1) →
  get id w1 = (Ok wf, w2) →
  results id w2 = (Ok res, w3) →
  Fs.open_w (result_path (wf_name wf)) (files st) = Ok (fp, fs1) →
  model_dump_json res = Ok text →
  get_artifact res "conformers" = Raised e →
  (collect id st).1 = Raised e ∧
  Fs.read (result_path (wf_name wf)) (files (collect id st).2) = Some text ∧
  last (trace (collect id st).2) = Some (EvWrite (result_path (wf_name wf)) text).
Proof.
  intros Hw Hg Hr Ho Hd Ha. pose proof (open_w_ok _ _ _ _ Ho) as (Hl & Hn & ->).
  unfold collect, bind, call, emit, open_file, write_file, lift_outcome.
  cbn [world files trace objects]. rewrite Hw. cbn [world files trace objects].
  rewrite Hg. cbn [world files trace objects]. rewrite Hr.
  cbn [world files trace objects]. rewrite Ho. cbn [world files trace objects].
  rewrite Hd. cbn [world files trace objects]. rewrite Ha.
  cbn [fst snd files trace].
  split; [done|]. split.
  - rewrite write_opened. by apply read_stored.
  - by rewrite last_snoc.
Qed.

(** *** What is on disk after a normal run *)

(** The writes among the events, in order: the path and the text. *)
Definition writes (tr : list event) : list (string * string) :=
  omap (λ ev, match ev with EvWrite p s => Some (p, s) | _ => None end) tr.

Definition put (fs : Fs.t) (lw : Fs.loc * (string * string)) : Fs.t :=
  Fs.store lw.1 (Fs.File lw.2.2) fs.

Lemma writes_app tr1 tr2 : writes (tr1 ++ tr2) = writes tr1 ++ writes tr2.
Proof. apply omap_app. Qed.

Lemma writes_submit_phase tr :
  Forall (λ e, is_submit_phase e = true) tr → writes tr = [].
Proof.
  induction 1 as [|e r He _ IH]; [done|].
  destruct e as [| | | | | | |[]]; try done; cbn in *; by rewrite ?IH.
Qed.

Lemma writes_prelude fs : writes (prelude_events fs) = [].
Proof. unfold prelude_events. by destruct (Fs.path_exists fs foldername). Qed.

(** A workflow carried through: one write, at the place its path leads
    to, and the places of the other files stay. *)
Lemma collect_ok_files id st st' :
  collect id st = (Ok tt, st') →
  ∃ blk lw, trace st' = trace st ++ blk ∧ writes blk = [lw.2] ∧
            Fs.locate (files st) lw.2.1 = Ok lw.1 ∧
            Fs.entries (files st) !! lw.1 ≠ Some Fs.Dir ∧
            files st' = put (files st) lw.
Proof.
  collect_cases id st; intros [= <-]. cbn [trace files].
  apply open_w_ok in Eopen as (Hl & Hn & ->).
  eexists _, (fp, (result_path (wf_name wf), text)). rewrite <- !app_assoc. cbn [app].
  split; [reflexivity|]. split; [reflexivity|]. split; [exact Hl|].
  split; [exact Hn|]. unfold put. cbn [fst snd]. by rewrite write_opened.
Qed.

Lemma collect_loop_ok_files ids : ∀ st st',
  collect_loop ids st = (Ok tt, st') →
  ∃ tr lws, trace st' = trace st ++ tr ∧ writes tr = lws.*2 ∧
            length lws = length ids ∧
            files st' = foldl put (files st) lws ∧
            Forall (λ lw, Fs.locate (files st') lw.2.1 = Ok lw.1) lws ∧
            ∀ p l, Fs.locate (files st) p = Ok l → Fs.locate (files st') p = Ok l.
Proof.
  induction ids as [|id rest IH]; intros st st'.
  - intros [= <-]. exists [], []. rewrite app_nil_r. repeat split; by try constructor.
  - rewrite collect_loop_cons.
    destruct (collect id st) as [[[]|e] st1] eqn:E; [|done]. intros H.
    destruct (collect_ok_files _ _ _ E) as (blk & lw & Et & Hw & Hl & Hn & Hf).
    destruct (IH _ _ H) as (tr & lws & Et2 & Hw2 & Hlen & Hf2 & Hall & Hmono).
    assert (Hstep : ∀ p l, Fs.locate (files st) p = Ok l →
                           Fs.locate (files st1) p = Ok l).
    { intros p l Hp. rewrite Hf. unfold put. by apply locate_store. }
    exists (blk ++ tr), (lw :: lws). rewrite Et2, Et, <- app_assoc.
    split; [done|]. rewrite writes_app, Hw, Hw2. split; [done|].
    split; [cbn; by rewrite Hlen|]. split; [cbn; by rewrite Hf2, Hf|].
    split; [|by auto]. constructor; [by auto|done].
Qed.

Lemma foldl_put_last (lws : list (Fs.loc * (string * string))) : ∀ fs k l pt,
  lws !! k = Some (l, pt) →
  (∀ j lw, (k < j)%nat → lws !! j = Some lw → lw.1 ≠ l) →
  Fs.entries (foldl put fs lws) !! l = Some (Fs.File pt.2).
Proof.
  assert (K : ∀ (lws : list (Fs.loc * (string * string))) fs l,
            (∀ j lw, lws !! j = Some lw → lw.1 ≠ l) →
            Fs.entries (foldl put fs lws) !! l = Fs.entries fs !! l).
  { clear. induction lws as [|lw lws IH]; intros fs l H; [done|].
    cbn. rewrite IH.
    - unfold put. apply entries_store_ne. by apply (H 0%nat lw).
    - intros j lw' Hj. by apply (H (S j) lw'). }
  induction lws as [|lw lws IH]; intros fs k l pt Hk Hlast; [done|].
  destruct k as [|k]; cbn.
  - injection Hk as ->. rewrite K.
    + unfold put. cbn [fst snd Fs.store Fs.entries]. apply lookup_insert_eq.
    + intros j lw' Hj. apply (Hlast (S j) lw'); [lia|done].
  - apply (IH _ k); [done|].
    intros j lw' Hlt Hj. apply (Hlast (S j) lw'); [lia|done].
Qed.

Lemma app_suffix_inj (a b c : string) : a +:+ c = b +:+ c → a = b.
Proof.
  revert b. induction a as [|x a IH]; intros [|y b] H; try done.
  - apply (f_equal String.length) in H. rewrite !length_append in H.
    cbn [String.length] in H. lia.
  - apply (f_equal String.length) in H. rewrite !length_append in H.
    cbn [String.length] in H. lia.
  - change (String x (a +:+ c) = String y (b +:+ c)) in H.
    injection H as -> H. f_equal. by apply IH.
Qed.

(** X6: after a run that ends normally there was one write per input
    pair, every path written to leads to a file, and that file holds the text
    of the last write made to its place: a result file is kept unless a later
    workflow writes to the same place.  Two names without a slash lead to the
    same place only if they are equal; names with slashes in them may spell
    the same place differently. *)
Theorem last_write_wins env SMILES SMILES_Names w fs :
  (run env SMILES SMILES_Names w fs).1 = Ok tt →
  length (writes (trace (run env SMILES SMILES_Names w fs).2))
    = length (zip SMILES SMILES_Names) ∧
  (∀ k p text,
     writes (trace (run env SMILES SMILES_Names w fs).2) !! k = Some (p, text) →
     ∃ l, Fs.locate (files (run env SMILES SMILES_Names w fs).2) p = Ok l ∧
          ((∀ j p' t', (k < j)%nat →
              writes (trace (run env SMILES SMILES_Names w fs).2) !! j = Some (p', t') →
              Fs.locate (files (run env SMILES SMILES_Names w fs).2) p' ≠ Ok l) →
           Fs.read p (files (run env SMILES SMILES_Names w fs).2) = Some text)) ∧
  (∀ fs' a b l,
     Fs.contains "/" a = false → Fs.contains "/" b = false →
     Fs.locate fs' (result_path a) = Ok l → Fs.locate fs' (result_path b) = Ok l →
     a = b).
Proof.
  intros Hok. split; [|split].
  3:{ intros fs' a b l Ha Hb La Lb.
      destruct (locate_plain _ _ _ Ha La) as [-> _].
      destruct (locate_plain _ _ _ Hb Lb) as [E _].
      apply app_inv_head in E. injection E as E. by apply app_suffix_inj in E. }
  all: destruct (run_cases env SMILES SMILES_Names w fs) as (h' & E);
    rewrite E in Hok |- *; clear E;
    destruct (PromethiumClient w) as [[u|e] w0]; [|done];
    pose proof (submit_trace_phase (zip SMILES SMILES_Names) w0) as Hph;
    pose proof (submit_trace_ok (zip SMILES SMILES_Names) w0) as Hso;
    destruct (submit_trace _ w0) as [[[wfs|e] w1] tr]; [|done];
    cbn [fst snd] in *;
    destruct (collect_loop (wf_id <$> wfs) _) as [[[]|e] st'] eqn:El; [|done];
    destruct (collect_loop_ok_files _ _ _ El) as (tr2 & lws & Et & Hw & Hl & Hf & Hall & _);
    cbn [fst snd trace files] in *;
    rewrite Et, !writes_app, writes_prelude, (writes_submit_phase _ Hph), Hw.
  - cbn [app]. rewrite length_fmap, Hl, length_fmap. by destruct (Hso wfs eq_refl).
  - cbn [app]. intros k p text Hk.
    rewrite list_lookup_fmap in Hk.
    destruct (lws !! k) as [[l [p0 t0]]|] eqn:Ek; [|done]. injection Hk as -> ->.
    pose proof (Forall_lookup_1 _ _ _ _ Hall Ek) as Hloc. cbn [fst snd] in Hloc.
    exists l. split; [done|]. intros Hlast. unfold Fs.read. rewrite Hloc, Hf.
    rewrite (foldl_put_last _ _ k l (p, text) Ek); [done|].
    intros j [l' [p' t']] Hlt Hj. cbn [fst]. intros ->.
    apply (Hlast j p' t' Hlt).
    + rewrite list_lookup_fmap, Hj. done.
    + exact (Forall_lookup_1 _ _ _ _ Hall Hj).
Qed.

End Files.

(** ** Further properties: runs that end normally *)

Section Normal.
Context `{sdk : Sdk}.
Import Py.

(** A name that makes a result file of its own directly in [output]:
    without a slash and without a NUL byte, and short enough for the file
    name [<name>_results.json] to have at most 255 bytes. *)
Definition plain (name : string) : Prop :=
  Fs.contains "/" name = false ∧
  Fs.contains Fs.NUL name = false ∧
  (String.length name + 13 ≤ Fs.NAME_MAX)%nat.

(** A collaborator none of whose calls raises, and which reports plain
    names. *)
Record quiet : Prop := {
  quiet_client : ∀ w, (PromethiumClient w).1 = Ok tt;
  quiet_request : ∀ kw, ∃ req, CreateConformerSearchWorkflowRequest kw = Ok req;
  quiet_submit : ∀ req w, ∃ wf, (submit req w).1 = Ok wf;
  quiet_wait : ∀ id w, (wait id w).1 = Ok tt;
  quiet_get : ∀ id w, ∃ wf, (get id w).1 = Ok wf ∧ plain (wf_name wf);
  quiet_results : ∀ id w, ∃ res, (results id w).1 = Ok res;
  quiet_dump : ∀ res, ∃ text, model_dump_json res = Ok text;
  quiet_artifact : ∀ res k, ∃ a, get_artifact res k = Ok a
}.

(** The directory is there and no directory stands where a result file
    goes. *)
Definition ready (st : state) : Prop :=
  Fs.entries (files st) !! output_dir (files st) = Some Fs.Dir ∧
  ∀ name, Fs.entries (files st)
            !! (output_dir (files st) ++ [name +:+ "_results.json"]) ≠ Some Fs.Dir.

Lemma name_within_path : (Fs.NAME_MAX + 20 < Fs.PATH_MAX)%nat.
Proof. apply Nat.ltb_lt. vm_compute. reflexivity. Qed.

Lemma open_w_plain name fs :
  plain name →
  Fs.entries fs !! output_dir fs = Some Fs.Dir →
  Fs.entries fs !! (output_dir fs ++ [name +:+ "_results.json"]) ≠ Some Fs.Dir →
  Fs.open_w (result_path name) fs
  = Ok (output_dir fs ++ [name +:+ "_results.json"],
        Fs.store (output_dir fs ++ [name +:+ "_results.json"]) (Fs.File EmptyString) fs).
Proof.
  intros (Hs & Hn & Hl) Hd Hf. unfold Fs.open_w.
  rewrite locate_result_path, Hn, Hd, (split_plain _ Hs). cbn [fst snd Fs.walk].
  assert (H1 : Nat.leb Fs.PATH_MAX (20 + String.length name) = false).
  { apply Nat.leb_gt. pose proof name_within_path. lia. }
  assert (H2 : Nat.ltb Fs.NAME_MAX (String.length name + 13) = false).
  { by apply Nat.ltb_ge. }
  rewrite H1, H2.
  by destruct (Fs.entries fs !! (output_dir fs ++ [name +:+ "_results.json"])) as [[|c]|].
Qed.

Lemma collect_quiet id st :
  quiet → ready st →
  (collect id st).1 = Ok tt ∧ ready (collect id st).2.
Proof.
  intros Q [Hd Hn].
  pose proof (quiet_wait Q id (world st)) as Hw.
  destruct (wait id (world st)) as [rw w1] eqn:Ew. cbn in Hw. subst rw.
  destruct (quiet_get Q id w1) as (wf & Hg & Hs).
  destruct (get id w1) as [rg w2] eqn:Eg. cbn in Hg. subst rg.
  destruct (quiet_results Q id w2) as (res & Hr).
  destruct (results id w2) as [rr w3] eqn:Er. cbn in Hr. subst rr.
  destruct (quiet_dump Q res) as (text & Hdump).
  destruct (quiet_artifact Q res "conformers") as (a & Ha).
  pose proof (open_w_plain _ _ Hs Hd (Hn (wf_name wf))) as Eo.
  unfold collect, bind, call, emit, open_file, write_file, lift_outcome.
  cbn [world files trace objects]. rewrite Ew. cbn [world files trace objects].
  rewrite Eg. cbn [world files trace objects]. rewrite Er.
  cbn [world files trace objects]. rewrite Eo. cbn [world files trace objects].
  rewrite Hdump. cbn [world files trace objects]. rewrite Ha.
  cbn [fst snd world files trace objects]. split; [done|].
  unfold ready. cbn [files]. rewrite write_opened.
  unfold output_dir in *. rewrite cwd_store. split.
  - rewrite entries_store_ne; [done|].
    intros E. apply (f_equal length) in E. rewrite !length_app in E. cbn in E. lia.
  - intros name.
    destruct (decide (Fs.cwd (files st) ++ [foldername] ++ [wf_name wf +:+ "_results.json"]
                      = Fs.cwd (files st) ++ [foldername] ++ [name +:+ "_results.json"]))
      as [E|Hne].
    + rewrite <- !app_assoc, E. cbn [Fs.store Fs.entries].
      rewrite app_assoc. by rewrite lookup_insert_eq.
    + rewrite entries_store_ne; [apply Hn|]. by rewrite <- !app_assoc.
Qed.

Lemma collect_loop_quiet ids : ∀ st,
  quiet → ready st → (collect_loop ids st).1 = Ok tt.
Proof.
  induction ids as [|id rest IH]; intros st Q Hr; [done|].
  rewrite collect_loop_cons. destruct (collect_quiet id st Q Hr) as [E Hr'].
  destruct (collect id st) as [[[]|e] st1]; [|done]. by apply IH.
Qed.

(** X7: with a collaborator that never raises and reports plain names,
    started where [output] is absent or a directory and no directory stands
    where a result file goes, the script ends normally, whatever the inputs. *)
Theorem quiet_run_ends_normally env SMILES SMILES_Names w fs :
  quiet →
  (∀ c, Fs.entries fs !! output_dir fs ≠ Some (Fs.File c)) →
  (∀ name, Fs.entries fs !! (output_dir fs ++ [name +:+ "_results.json"])
           ≠ Some Fs.Dir) →
  (run env SMILES SMILES_Names w fs).1 = Ok tt.
Proof.
  intros Q Hf Hn.
  destruct (run_cases env SMILES SMILES_Names w fs) as (h' & ->).
  pose proof (quiet_client Q w) as Hc.
  destruct (PromethiumClient w) as [[[]|e] w0]; [|done].
  destruct (submit_trace_total (zip SMILES SMILES_Names)
              (quiet_request Q) (quiet_submit Q) w0) as [wfs Hw].
  destruct (submit_trace _ w0) as [[r w1] tr]. cbn in Hw. subst r.
  apply collect_loop_quiet; [done|].
  unfold ready, prelude_files. cbn [files]. rewrite path_exists_foldername.
  destruct (Fs.entries fs !! output_dir fs) as [[|c]|] eqn:E.
  - done.
  - by destruct (Hf c).
  - unfold output_dir in *. rewrite cwd_store. split.
    + cbn [Fs.store Fs.entries]. by rewrite lookup_insert_eq.
    + intros name. rewrite entries_store_ne; [apply Hn|].
      intros H. apply (f_equal length) in H. rewrite !length_app in H. cbn in H. lia.
Qed.

(** X8: an empty list of SMILES strings, or of labels, makes the script
    do nothing but create the directory and build the client: nothing is
    submitted, waited for or written, and the run ends as the construction of
    the client ends. *)
Theorem no_pairs_no_calls env SMILES SMILES_Names w fs :
  SMILES = [] ∨ SMILES_Names = [] →
  trace (run env SMILES SMILES_Names w fs).2 = prelude_events fs ∧
  files (run env SMILES SMILES_Names w fs).2 = prelude_files fs ∧
  world (run env SMILES SMILES_Names w fs).2 = (PromethiumClient w).2 ∧
  (run env SMILES SMILES_Names w fs).1 =
    match (PromethiumClient w).1 with
    | Ok _ => Ok tt
    | Raised e => Raised e
    end.
Proof.
  intros H.
  assert (Z : zip SMILES SMILES_Names = []).
  { destruct H as [-> | ->]; [done|]. by destruct SMILES. }
  destruct (run_cases env SMILES SMILES_Names w fs) as (h' & ->). rewrite Z.
  destruct (PromethiumClient w) as [[u|e] w0]; cbn; [|done].
  by rewrite app_nil_r.
Qed.

(** The template is in the store of every state the first phase leaves. *)
Lemma submission_template env SMILES SMILES_Names w fs :
  template_ok (alloc job_params []).1
    (objects (submission env SMILES SMILES_Names (initial w fs)).2).
Proof.
  unfold submission. unfold bind at 1. rewrite make_output_dir_eq.
  unfold bind at 1, on_heap at 1. cbn [objects initial world files trace].
  pose proof template_initial as T.
  destruct (alloc job_params []) as [tmpl h0] eqn:Ea. cbn [fst snd] in *.
  unfold bind at 1, new_client at 1. cbn [objects initial world files trace].
  destruct (PromethiumClient w) as [[u|e] w0]; [|done].
  match goal with |- context [submit_loop tmpl ?i ?d ?s] =>
    destruct (submit_loop_eq i tmpl d s) as (h' & Hh' & ->) end; done.
Qed.

(** X9: the template is never mutated.  However a run ends, the object
    that [job_params] names still reads as the configuration display. *)
Theorem template_never_mutated env SMILES SMILES_Names w fs :
  value_of (objects (run env SMILES SMILES_Names w fs).2) (alloc job_params []).1
  = Some job_params.
Proof.
  pose proof (submission_template env SMILES SMILES_Names w fs) as T.
  unfold run, main, bind.
  destruct (submission env SMILES SMILES_Names (initial w fs)) as [[ids|e] st1];
    cbn [fst snd] in *.
  - rewrite collect_loop_objects. by destruct T.
  - by destruct T.
Qed.

End Normal.

(** ** Further properties: the copy of any template

    A value is tree-shaped when the containers it reaches are pairwise
    distinct: its footprint is the set of their addresses.  What
    [copy.deepcopy] allocates is tree-shaped, and stays so under the two
    assignments of lines 128-132. *)

Module Shape.
Import Py.
Set Warnings "-clear-no-such-hyp".

(** Consecutive entries with pairwise disjoint footprints. *)
Inductive seps {A B} (R : A → B → gset nat → Prop)
  : list A → list B → gset nat → Prop :=
  | seps_nil : seps R [] [] ∅
  | seps_cons x y xs ys F1 F2 :
      R x y F1 → seps R xs ys F2 → F1 ## F2 →
      seps R (x :: xs) (y :: ys) (F1 ∪ F2).

#[warnings="-register-all"]
Inductive shape (h : heap) : val → tree → gset nat → Prop :=
  | shape_str s : shape h (VStr s) (TStr s) ∅
  | shape_int z : shape h (VInt z) (TInt z) ∅
  | shape_float m e : shape h (VFloat m e) (TFloat m e) ∅
  | shape_bool b : shape h (VBool b) (TBool b) ∅
  | shape_dict l vs items F :
      h !! l = Some (ODict vs) →
      seps (λ kv kt F, kv.1 = kt.1 ∧ shape h kv.2 kt.2 F) vs items F →
      l ∉ F →
      shape h (VRef l) (TDict items) ({[l]} ∪ F)
  | shape_list l vs elems F :
      h !! l = Some (OList vs) →
      seps (shape h) vs elems F →
      l ∉ F →
      shape h (VRef l) (TList elems) ({[l]} ∪ F).

Definition entry (h : heap) (kv : string * val) (kt : string * tree) (F : gset nat)
  : Prop :=
  kv.1 = kt.1 ∧ shape h kv.2 kt.2 F.

Lemma seps_impl {A B} (R R' : A → B → gset nat → Prop) xs ys F :
  seps R xs ys F →
  Forall (λ y, ∀ x Fx, Fx ⊆ F → R x y Fx → R' x y Fx) ys →
  seps R' xs ys F.
Proof.
  induction 1 as [|x y xs ys F1 F2 Hx _ IH Hd]; intros Hall; [constructor|].
  apply Forall_cons in Hall as [Hy Hys]. constructor; [|apply IH|done].
  - apply Hy; [set_solver|done].
  - eapply Forall_impl; [exact Hys|]. cbn. intros y0 H0 x0 Fx HF. apply H0. set_solver.
Qed.

Lemma seps_Forall2 {A B} (R : A → B → gset nat → Prop) xs ys F :
  seps R xs ys F → Forall2 (λ x y, ∃ Fx, Fx ⊆ F ∧ R x y Fx) xs ys.
Proof.
  induction 1 as [|x y xs ys F1 F2 Hx _ IH Hd]; constructor.
  - exists F1. split; [set_solver|done].
  - eapply Forall2_impl; [exact IH|]. cbn. intros x0 y0 (Fx & HF & HR).
    exists Fx. split; [set_solver|done].
Qed.

Lemma seps_app {A B} (R : A → B → gset nat → Prop) xs1 ys1 F1 xs2 ys2 F2 :
  seps R xs1 ys1 F1 → seps R xs2 ys2 F2 → F1 ## F2 →
  seps R (xs1 ++ xs2) (ys1 ++ ys2) (F1 ∪ F2).
Proof.
  induction 1 as [|x y xs ys Fa Fb Hx _ IH Hd]; intros H2 Hdis.
  - cbn. by rewrite (left_id_L ∅ (∪)).
  - cbn. rewrite <- (assoc_L (∪)). constructor; [done| |set_solver].
    apply IH; [done|set_solver].
Qed.

(** A shape depends only on the objects of its footprint. *)
Lemma shape_frame t : ∀ h h2 v F,
  shape h v t F → (∀ l, l ∈ F → h2 !! l = h !! l) → shape h2 v t F.
Proof.
  induction t as [s|z|m e|b|items IH|elems IH] using tree_nested_ind;
    intros h h2 v F Hs Hag; inversion Hs as [| | | |l vs its F0 Hl Hsep Hn
                                              |l vs els F0 Hl Hsep Hn]; subst;
    try constructor.
  - eapply shape_dict; [rewrite Hag; [exact Hl|set_solver]| |done].
    eapply seps_impl; [exact Hsep|].
    eapply Forall_impl; [exact IH|]. cbn. intros kt Hkt kv Fx HF [Hk Hsh].
    split; [done|]. eapply Hkt; [exact Hsh|]. intros l0 Hl0. apply Hag. set_solver.
  - eapply shape_list; [rewrite Hag; [exact Hl|set_solver]| |done].
    eapply seps_impl; [exact Hsep|].
    eapply Forall_impl; [exact IH|]. cbn. intros t0 Ht0 v0 Fx HF Hsh.
    eapply Ht0; [exact Hsh|]. intros l0 Hl0. apply Hag. set_solver.
Qed.

(** Every address of a footprint holds an object. *)
Lemma shape_valid t : ∀ h v F,
  shape h v t F → ∀ l, l ∈ F → (l < length h)%nat.
Proof.
  induction t as [s|z|m e|b|items IH|elems IH] using tree_nested_ind;
    intros h v F Hs l Hin; inversion Hs as [| | | |l0 vs its F0 Hl Hsep Hn
                                             |l0 vs els F0 Hl Hsep Hn]; subst;
    try set_solver.
  - apply elem_of_union in Hin as [Hin|Hin].
    + apply elem_of_singleton in Hin as ->. by eapply lookup_lt_Some.
    + clear -IH Hsep Hin.
      induction Hsep as [|kv kt vs its F1 F2 [_ Hx] _ IHs Hd]; [set_solver|].
      apply Forall_cons in IH as [Hkt Hits].
      apply elem_of_union in Hin as [Hin|Hin]; [by eapply Hkt|by apply IHs].
  - apply elem_of_union in Hin as [Hin|Hin].
    + apply elem_of_singleton in Hin as ->. by eapply lookup_lt_Some.
    + clear -IH Hsep Hin.
      induction Hsep as [|v0 t0 vs its F1 F2 Hx _ IHs Hd]; [set_solver|].
      apply Forall_cons in IH as [Hkt Hits].
      apply elem_of_union in Hin as [Hin|Hin]; [by eapply Hkt|by apply IHs].
Qed.

Lemma size_below (F : gset nat) (n : nat) :
  (∀ l, l ∈ F → (l < n)%nat) → (size F ≤ n)%nat.
Proof.
  intros H. rewrite <- (size_set_seq (C := gset nat) 0 n).
  apply subseteq_size. intros l Hl. apply elem_of_set_seq. specialize (H l Hl). lia.
Qed.

(** A tree-shaped value reads as its tree, through its footprint only,
    with any fuel above the size of the footprint. *)
Lemma shape_deref t : ∀ h v F n,
  shape h v t F → (size F ≤ n)%nat →
  deref (S n) h v = Some t ∧ ∀ l, l ∈ reach (S n) h v → l ∈ F.
Proof.
  induction t as [s|z|m e|b|items IH|elems IH] using tree_nested_ind;
    intros h v F n Hs Hn; inversion Hs as [| | | |l0 vs its F0 Hl Hsep Hni
                                           |l0 vs els F0 Hl Hsep Hni]; subst;
    try (split; [done|]; intros l Hl; by apply elem_of_nil in Hl).
  - rewrite size_union, size_singleton in Hn by set_solver.
    destruct n as [|n]; [lia|]. rewrite deref_ref, reach_ref, Hl.
    assert (K : Forall2 (λ (kv : string * val) kt,
                           pair kv.1 <$> deref (S n) h kv.2 = Some kt) vs items ∧
                ∀ l, l ∈ flat_map (λ kv : string * val, reach (S n) h kv.2) vs → l ∈ F0).
    { assert (Hn' : (size F0 ≤ n)%nat) by lia. clear -IH Hsep Hn'.
      induction Hsep as [|kv kt vs its F1 F2 [Hk Hx] _ IHs Hd].
      - split; [constructor|]. intros l Hl. by apply elem_of_nil in Hl.
      - apply Forall_cons in IH as [Hkt Hits].
        rewrite size_union in Hn' by done.
        destruct (Hkt h kv.2 F1 n Hx) as [Ed Er]; [lia|].
        destruct IHs as [Em Erest]; [done|lia|].
        split.
        + constructor; [|done]. rewrite Ed. destruct kt, kv. cbn in *. by subst.
        + intros l Hl. cbn [flat_map] in Hl.
          apply elem_of_app in Hl as [Hl|Hl]; set_solver. }
    destruct K as [K Kr]. apply mapM_Some in K. rewrite K. split; [done|].
    intros l Hin. apply elem_of_cons in Hin as [->|Hin]; set_solver.
  - rewrite size_union, size_singleton in Hn by set_solver.
    destruct n as [|n]; [lia|]. rewrite deref_ref, reach_ref, Hl.
    assert (K : Forall2 (λ v0 t0, deref (S n) h v0 = Some t0) vs elems ∧
                ∀ l, l ∈ flat_map (reach (S n) h) vs → l ∈ F0).
    { assert (Hn' : (size F0 ≤ n)%nat) by lia. clear -IH Hsep Hn'.
      induction Hsep as [|v0 t0 vs els F1 F2 Hx _ IHs Hd].
      - split; [constructor|]. intros l Hl. by apply elem_of_nil in Hl.
      - apply Forall_cons in IH as [Hkt Hits].
        rewrite size_union in Hn' by done.
        destruct (Hkt h v0 F1 n Hx) as [Ed Er]; [lia|].
        destruct IHs as [Em Erest]; [done|lia|].
        split.
        + by constructor.
        + intros l Hl. cbn [flat_map] in Hl.
          apply elem_of_app in Hl as [Hl|Hl]; set_solver. }
    destruct K as [K Kr]. apply mapM_Some in K. rewrite K. split; [done|].
    intros l Hin. apply elem_of_cons in Hin as [->|Hin]; set_solver.
Qed.

Lemma shape_value h v t F :
  shape h v t F →
  value_of h v = Some t ∧ ∀ l, l ∈ locs_of h v → l ∈ F.
Proof.
  intros Hs. apply shape_deref; [done|].
  apply size_below. by eapply shape_valid.
Qed.

Lemma seps_frame h h2 vs items F :
  seps (entry h) vs items F → (∀ l, l ∈ F → h2 !! l = h !! l) →
  seps (entry h2) vs items F.
Proof.
  intros Hs Hag. eapply seps_impl; [exact Hs|].
  apply Forall_forall. intros kt _ kv Fx HF [Hk Hsh]. split; [done|].
  eapply shape_frame; [exact Hsh|]. intros l Hl. apply Hag. set_solver.
Qed.

Lemma seps_frame_elems h h2 vs elems F :
  seps (shape h) vs elems F → (∀ l, l ∈ F → h2 !! l = h !! l) →
  seps (shape h2) vs elems F.
Proof.
  intros Hs Hag. eapply seps_impl; [exact Hs|].
  apply Forall_forall. intros t0 _ v0 Fx HF Hsh.
  eapply shape_frame; [exact Hsh|]. intros l Hl. apply Hag. set_solver.
Qed.

(** What a display, or [copy.deepcopy], allocates is tree-shaped and lies
    in the objects it appends. *)
Lemma alloc_shape t : ∀ h,
  ∃ F ext,
    (alloc t h).2 = h ++ ext ∧
    shape (alloc t h).2 (alloc t h).1 t F ∧
    ∀ l, l ∈ F → (length h ≤ l < length (alloc t h).2)%nat.
Proof.
  induction t as [s|z|m e|b|items IH|elems IH] using tree_nested_ind; intros h;
    try (exists ∅, []; cbn; rewrite app_nil_r;
         split; [done|]; split; [constructor|set_solver]).
  - assert (K : ∀ h0, ∃ F ext,
              (alloc_items items h0).2 = h0 ++ ext ∧
              seps (entry (alloc_items items h0).2) (alloc_items items h0).1 items F ∧
              ∀ l, l ∈ F → (length h0 ≤ l < length (alloc_items items h0).2)%nat).
    { clear h. induction IH as [|[k t] rest Ht _ IHr]; intros h0.
      - exists ∅, []. cbn. rewrite app_nil_r. split; [done|].
        split; [constructor|set_solver].
      - cbn [alloc_items]. cbn in Ht.
        destruct (Ht h0) as (F1 & ext1 & E1 & S1 & B1).
        destruct (alloc t h0) as [v h1]. cbn [fst snd] in *.
        destruct (IHr h1) as (F2 & ext2 & E2 & S2 & B2).
        destruct (alloc_items rest h1) as [vs h2]. cbn [fst snd] in *.
        exists (F1 ∪ F2), (ext1 ++ ext2). subst h1 h2.
        split; [by rewrite app_assoc|]. split.
        + constructor; [|done|].
          * split; [done|]. cbn. eapply shape_frame; [exact S1|].
            intros l Hl. apply lookup_app_l. apply B1 in Hl. lia.
          * intros l H1 H2. apply B1 in H1. apply B2 in H2. lia.
        + intros l Hl.
          apply elem_of_union in Hl as [Hl|Hl];
            [apply B1 in Hl|apply B2 in Hl]; rewrite ?length_app in *; lia. }
    rewrite alloc_dict. cbn [fst snd].
    destruct (K h) as (F & ext & E & Hs & B).
    destruct (alloc_items items h) as [vs h2]. cbn [fst snd] in *.
    exists ({[length h2]} ∪ F), (ext ++ [ODict vs]). subst h2.
    split; [by rewrite app_assoc|]. split.
    + eapply shape_dict.
      * apply list_lookup_middle. done.
      * eapply seps_frame; [exact Hs|]. intros l Hl.
        apply lookup_app_l. apply B in Hl. lia.
      * intros Hl. apply B in Hl. lia.
    + intros l Hl.
      apply elem_of_union in Hl as [Hl|Hl].
      * apply elem_of_singleton in Hl as ->. rewrite ?length_app. cbn. lia.
      * apply B in Hl. rewrite ?length_app in *. cbn. lia.
  - assert (K : ∀ h0, ∃ F ext,
              (alloc_elems elems h0).2 = h0 ++ ext ∧
              seps (shape (alloc_elems elems h0).2) (alloc_elems elems h0).1 elems F ∧
              ∀ l, l ∈ F → (length h0 ≤ l < length (alloc_elems elems h0).2)%nat).
    { clear h. induction IH as [|t rest Ht _ IHr]; intros h0.
      - exists ∅, []. cbn. rewrite app_nil_r. split; [done|].
        split; [constructor|set_solver].
      - cbn [alloc_elems].
        destruct (Ht h0) as (F1 & ext1 & E1 & S1 & B1).
        destruct (alloc t h0) as [v h1]. cbn [fst snd] in *.
        destruct (IHr h1) as (F2 & ext2 & E2 & S2 & B2).
        destruct (alloc_elems rest h1) as [vs h2]. cbn [fst snd] in *.
        exists (F1 ∪ F2), (ext1 ++ ext2). subst h1 h2.
        split; [by rewrite app_assoc|]. split.
        + constructor; [|done|].
          * eapply shape_frame; [exact S1|].
            intros l Hl. apply lookup_app_l. apply B1 in Hl. lia.
          * intros l H1 H2. apply B1 in H1. apply B2 in H2. lia.
        + intros l Hl.
          apply elem_of_union in Hl as [Hl|Hl];
            [apply B1 in Hl|apply B2 in Hl]; rewrite ?length_app in *; lia. }
    rewrite alloc_list. cbn [fst snd].
    destruct (K h) as (F & ext & E & Hs & B).
    destruct (alloc_elems elems h) as [vs h2]. cbn [fst snd] in *.
    exists ({[length h2]} ∪ F), (ext ++ [OList vs]). subst h2.
    split; [by rewrite app_assoc|]. split.
    + eapply shape_list.
      * apply list_lookup_middle. done.
      * eapply seps_frame_elems; [exact Hs|]. intros l Hl.
        apply lookup_app_l. apply B in Hl. lia.
      * intros Hl. apply B in Hl. lia.
    + intros l Hl.
      apply elem_of_union in Hl as [Hl|Hl].
      * apply elem_of_singleton in Hl as ->. rewrite ?length_app. cbn. lia.
      * apply B in Hl. rewrite ?length_app in *. cbn. lia.
Qed.

(** *** Items of a tree-shaped dict *)

Lemma dict_get_set_eq {A} (items : list (string * A)) k x :
  dict_get (dict_set items k x) k = Some x.
Proof.
  induction items as [|[k' y] r IH]; cbn; [by rewrite String.eqb_refl|].
  destruct (String.eqb k' k) eqn:E; cbn; by rewrite E.
Qed.

Lemma dict_get_set_ne {A} (items : list (string * A)) k k' x :
  k ≠ k' → dict_get (dict_set items k x) k' = dict_get items k'.
Proof.
  intros Hne. induction items as [|[k0 y] r IH]; cbn.
  - destruct (String.eqb_spec k k'); done.
  - destruct (String.eqb_spec k0 k) as [->|]; cbn.
    + by destruct (String.eqb_spec k k').
    + by destruct (String.eqb k0 k').
Qed.

Lemma seps_get_none h vs items F k :
  seps (entry h) vs items F → dict_get items k = None → dict_get vs k = None.
Proof.
  induction 1 as [|[k1 v] [k2 t] vs its F1 F2 [Hk Hx] _ IH Hd]; [done|].
  cbn in *. subst k2. destruct (String.eqb k1 k); [done|]. apply IH.
Qed.

Lemma seps_get_some h vs items F k t :
  seps (entry h) vs items F → dict_get items k = Some t →
  ∃ v Fv, dict_get vs k = Some v ∧ shape h v t Fv ∧ Fv ⊆ F.
Proof.
  induction 1 as [|[k1 v] [k2 t0] vs its F1 F2 [Hk Hx] _ IH Hd]; [done|].
  cbn in *. subst k2. destruct (String.eqb k1 k).
  - intros [= ->]. exists v, F1. split; [done|]. split; [done|set_solver].
  - intros H. destruct (IH H) as (v' & Fv & E & Hs & HF).
    exists v', Fv. split; [done|]. split; [done|set_solver].
Qed.

(** [d[k] = x] with a tree-shaped [x] that shares nothing with [d]. *)
Lemma seps_set h vs items F k x tx Fx :
  seps (entry h) vs items F → shape h x tx Fx → Fx ## F →
  ∃ F', F' ⊆ F ∪ Fx ∧ seps (entry h) (dict_set vs k x) (dict_set items k tx) F'.
Proof.
  induction 1 as [|[k1 v] [k2 t0] vs its F1 F2 [Hk Hv] Hrest IH Hd]; intros Hx Hdis.
  - exists (Fx ∪ ∅). split; [set_solver|]. cbn. constructor; [done|constructor|set_solver].
  - cbn in Hk. subst k2. cbn [dict_set]. destruct (String.eqb k1 k).
    + exists (Fx ∪ F2). split; [set_solver|]. constructor; [done|done|set_solver].
    + destruct IH as (F' & HF' & Hs'); [done|set_solver|].
      exists (F1 ∪ F'). split; [set_solver|]. constructor; [done|done|set_solver].
Qed.

(** The entry under [k] reads anew in a store that is otherwise the
    same: the dict reads as before with that entry replaced. *)
Lemma seps_reread h h2 vs items F k told t' New :
  seps (entry h) vs items F →
  dict_get items k = Some told →
  (∀ v Fv, dict_get vs k = Some v → shape h v told Fv → Fv ⊆ F →
     (∃ Fv', shape h2 v t' Fv' ∧ Fv' ⊆ Fv ∪ New) ∧
     (∀ l, l ∈ F → l ∉ Fv → h2 !! l = h !! l)) →
  New ## F →
  ∃ F', F' ⊆ F ∪ New ∧ seps (entry h2) vs (dict_set items k t') F'.
Proof.
  induction 1 as [|[k1 v] [k2 t0] vs its F1 F2 [Hk Hv] Hrest IH Hd];
    intros Hget Hnew Hdis; [done|].
  cbn in Hk, Hv. subst k2. cbn [dict_set dict_get] in *.
  destruct (String.eqb k1 k) eqn:E.
  - injection Hget as ->.
    destruct (Hnew v F1) as [(Fv' & Hs' & HF') Hag]; [done|done|set_solver|].
    exists (Fv' ∪ F2). split; [set_solver|]. constructor.
    + split; [done|done].
    + eapply seps_frame; [exact Hrest|]. intros l Hl. apply Hag; set_solver.
    + set_solver.
  - destruct (seps_get_some _ _ _ _ _ _ Hrest Hget) as (v' & Fv & Ev & Hsv & HFv).
    destruct (Hnew v' Fv) as [_ Hag]; [done|done|set_solver|].
    destruct IH as (F' & HF' & Hs'); [done| |set_solver|].
    { intros v0 Fv0 E0 Hs0 HF0.
      destruct (Hnew v0 Fv0) as [Hex Hag0]; [done|done|set_solver|].
      split; [done|]. intros l Hl Hnl. apply Hag0; set_solver. }
    exists (F1 ∪ F'). split; [set_solver|]. constructor.
    + split; [done|]. eapply shape_frame; [exact Hv|].
      intros l Hl. apply Hag; set_solver.
    + done.
    + set_solver.
Qed.

(** *** Reading from a store that grew or changed elsewhere *)

Lemma deref_reach_valid n : ∀ h v t,
  deref n h v = Some t → ∀ l, l ∈ reach n h v → (l < length h)%nat.
Proof.
  induction n as [|n IH]; intros h v t Hd l Hl; [by apply elem_of_nil in Hl|].
  destruct v as [s|z|m e|b|l0]; try (by apply elem_of_nil in Hl).
  rewrite deref_ref in Hd. rewrite reach_ref in Hl.
  destruct (h !! l0) as [[items|elems]|] eqn:El; [| |done].
  - apply elem_of_cons in Hl as [->|Hl]; [by eapply lookup_lt_Some|].
    destruct (mapM _ items) as [kts|] eqn:EM; [|done]. apply mapM_Some in EM.
    clear -IH EM Hl. induction EM as [|kv kt r rt Hk _ IHr];
      [by apply elem_of_nil in Hl|].
    cbn [flat_map] in Hl. apply elem_of_app in Hl as [Hl|Hl]; [|by apply IHr].
    destruct (deref n h kv.2) as [t0|] eqn:Ed; [|done]. by eapply IH.
  - apply elem_of_cons in Hl as [->|Hl]; [by eapply lookup_lt_Some|].
    destruct (mapM _ elems) as [ts|] eqn:EM; [|done]. apply mapM_Some in EM.
    clear -IH EM Hl. induction EM as [|x t0 r rt Hk _ IHr];
      [by apply elem_of_nil in Hl|].
    cbn [flat_map] in Hl. apply elem_of_app in Hl as [Hl|Hl]; [|by apply IHr].
    by eapply IH.
Qed.

(** A value that reads in full keeps its content when the store changes
    only above its own objects. *)
Lemma value_of_agree h h2 v t :
  value_of h v = Some t →
  (∀ l, (l < length h)%nat → h2 !! l = h !! l) →
  (length h ≤ length h2)%nat →
  value_of h2 v = Some t ∧ locs_of h2 v = locs_of h v ∧
  ∀ l, l ∈ locs_of h v → (l < length h)%nat.
Proof.
  unfold value_of, locs_of. intros Hv Hag Hlen.
  pose proof (deref_reach_valid _ _ _ _ Hv) as Hval.
  destruct (deref_reach_frame (S (length h)) h h2 v) as [Ed Er].
  { intros l Hl. apply Hag. by apply Hval. }
  rewrite <- Ed in Hv. rewrite <- Er.
  destruct (deref_reach_fuel _ (S (length h2)) _ _ _ Hv) as [-> ->]; [lia|].
  split; [done|]. split; [done|]. intros l Hl. apply Hval. by rewrite <- Er.
Qed.

End Shape.

Section AnyTemplate.
Context `{sdk : Sdk}.
Import Py Shape.

(** What lines 128-132 make of the content [t] of a template. *)
Definition customised (t : tree) (smile smile_name : string) : tree :=
  let t1 := tree_set t "name" (TStr (name_for smile_name)) in
  match tree_get t1 "parameters" with
  | Some parameters =>
      tree_set t1 "parameters" (tree_set parameters "molecule" (molecule_for smile))
  | None => t1
  end.

Lemma customised_job_params smile smile_name :
  customised job_params smile smile_name = payload_for smile smile_name.
Proof. reflexivity. Qed.

Lemma customised_dict items pitems smile smile_name :
  dict_get items "parameters" = Some (TDict pitems) →
  customised (TDict items) smile smile_name =
  TDict (dict_set (dict_set items "name" (TStr (name_for smile_name))) "parameters"
           (TDict (dict_set pitems "molecule" (molecule_for smile)))).
Proof.
  intros H. unfold customised. cbn [tree_set tree_get].
  rewrite dict_get_set_ne by done. by rewrite H.
Qed.

(** The steps of [tmp_job_params] on the copy of a dict, one by one. *)
Lemma tmp_job_params_steps tmpl smile smile_name h items l0 h1 vs lp pvs :
  value_of h tmpl = Some (TDict items) →
  alloc (TDict items) h = (VRef l0, h1) →
  h1 !! l0 = Some (ODict vs) →
  dict_get vs "parameters" = Some (VRef lp) →
  h1 !! lp = Some (ODict pvs) →
  lp ≠ l0 →
  tmp_job_params tmpl smile smile_name h =
  Ok (VRef l0,
      <[lp := ODict (dict_set pvs "molecule" (VRef (length h1)))]>
        (<[l0 := ODict (dict_set vs "name" (VStr (smile_name +:+ "_api_conformer-search")))]> h1
         ++ [ODict [("base64data", VStr (base64encode smile)); ("filetype", VStr "smi")]])).
Proof.
  intros Hv Ha Hl0 Hg Hlp Hne.
  pose proof (lookup_lt_Some _ _ _ Hl0) as Hlt0.
  pose proof (lookup_lt_Some _ _ _ Hlp) as Hltp.
  unfold tmp_job_params, deepcopy. rewrite Hv, Ha.
  cbn [setitem]. rewrite Hl0.
  rewrite alloc_dict. cbn [alloc_items alloc fst snd]. rewrite length_insert.
  cbn [getitem]. rewrite lookup_app_l by (by rewrite length_insert).
  rewrite list_lookup_insert_eq by done.
  rewrite dict_get_set_ne by done. rewrite Hg.
  cbn [setitem]. rewrite lookup_app_l by (by rewrite length_insert).
  rewrite list_lookup_insert_ne by done. rewrite Hlp. done.
Qed.

(** The copy of a dict that holds a dict under [parameters]. *)
Lemma tmp_job_params_any h tmpl items pitems smile smile_name :
  value_of h tmpl = Some (TDict items) →
  dict_get items "parameters" = Some (TDict pitems) →
  ∃ tmp h',
    tmp_job_params tmpl smile smile_name h = Ok (tmp, h') ∧
    value_of h' tmp = Some (customised (TDict items) smile smile_name) ∧
    value_of h' tmpl = Some (TDict items) ∧
    (∀ l, (l < length h)%nat → h' !! l = h !! l) ∧
    (∀ l o, l ∈ locs_of h' tmp →
            value_of (<[l := o]> h') tmpl = Some (TDict items)) ∧
    (∀ l o, l ∈ locs_of h' tmpl →
            value_of (<[l := o]> h') tmp
            = Some (customised (TDict items) smile smile_name)).
Proof.
  intros Hv Hp.
  destruct (alloc_shape (TDict items) h) as (F & ext1 & E1 & S1 & B1).
  destruct (alloc (TDict items) h) as [v h1] eqn:Ea. cbn [fst snd] in *.
  inversion S1 as [| | | |l0 vs its F0 Hl0 Hsep Hn0|]; subst v its F.
  change (seps (entry h1) vs items F0) in Hsep.
  destruct (seps_get_some _ _ _ _ _ _ Hsep Hp) as (vp & Fp & Eg & Sp & HFp).
  inversion Sp as [| | | |lp pvs its Fq Hlp Hsq Hnq|]; subst vp its Fp.
  change (seps (entry h1) pvs pitems Fq) in Hsq.
  assert (Hne : lp ≠ l0) by (intros ->; set_solver).
  pose proof (lookup_lt_Some _ _ _ Hl0) as Hlt0.
  pose proof (lookup_lt_Some _ _ _ Hlp) as Hltp.
  set (nm := VStr (smile_name +:+ "_api_conformer-search")).
  set (om := ODict [("base64data", VStr (base64encode smile)); ("filetype", VStr "smi")]).
  set (h4 := <[lp := ODict (dict_set pvs "molecule" (VRef (length h1)))]>
               (<[l0 := ODict (dict_set vs "name" nm)]> h1 ++ [om])).
  assert (Hlen : length h4 = S (length h1)).
  { unfold h4. rewrite length_insert, length_app, length_insert. cbn. lia. }
  (* the objects of the copy other than the two dicts assigned to *)
  assert (Hag : ∀ l, (l < length h1)%nat → l ≠ l0 → l ≠ lp → h4 !! l = h1 !! l).
  { intros l Hl H0 H1. unfold h4. rewrite list_lookup_insert_ne by done.
    rewrite lookup_app_l by (by rewrite length_insert).
    by rewrite list_lookup_insert_ne. }
  assert (H4l0 : h4 !! l0 = Some (ODict (dict_set vs "name" nm))).
  { unfold h4. rewrite list_lookup_insert_ne by done.
    rewrite lookup_app_l by (by rewrite length_insert).
    by rewrite list_lookup_insert_eq. }
  assert (H4lp : h4 !! lp = Some (ODict (dict_set pvs "molecule" (VRef (length h1))))).
  { unfold h4. apply list_lookup_insert_eq.
    rewrite length_app, length_insert. lia. }
  assert (H4lm : h4 !! length h1 = Some om).
  { unfold h4. rewrite list_lookup_insert_ne by lia.
    rewrite <- (length_insert h1 l0 (ODict (dict_set vs "name" nm))) at 1.
    by apply list_lookup_middle. }
  assert (BF : ∀ l, l ∈ F0 → (length h ≤ l < length h1)%nat).
  { intros l Hl. apply B1. set_solver. }
  (* the molecule dict *)
  assert (Sm : shape h4 (VRef (length h1)) (molecule_for smile) ({[length h1]} ∪ (∅ ∪ (∅ ∪ ∅)))).
  { eapply shape_dict; [exact H4lm| |set_solver].
    apply seps_cons; [split; [done|constructor]| |set_solver].
    apply seps_cons; [split; [done|constructor]|constructor|set_solver]. }
  (* the dict under [parameters], after the assignment *)
  assert (Sp' : ∃ Fp', shape h4 (VRef lp)
                         (TDict (dict_set pitems "molecule" (molecule_for smile))) Fp' ∧
                       Fp' ⊆ ({[lp]} ∪ Fq) ∪ {[length h1]}).
  { assert (Sq4 : seps (entry h4) pvs pitems Fq).
    { eapply seps_frame; [exact Hsq|]. intros l Hl.
      assert (Hin0 : l ∈ F0) by set_solver. apply Hag.
      - apply BF in Hin0. lia.
      - intros ->. done.
      - intros ->. done. }
    destruct (seps_set _ _ _ _ "molecule" _ _ _ Sq4 Sm) as (Fq' & HFq' & Sq').
    { intros l H1 H2. assert (Hin0 : l ∈ F0) by set_solver. apply BF in Hin0. set_solver by lia. }
    exists ({[lp]} ∪ Fq'). split; [|set_solver].
    eapply shape_dict; [exact H4lp|exact Sq'|].
    intros Hin. apply HFq' in Hin. set_solver by lia. }
  (* the copy, after both assignments *)
  destruct (seps_set _ _ _ _ "name" nm (TStr (name_for smile_name)) ∅ Hsep)
    as (F1 & HF1 & Ss1); [constructor|set_solver|].
  destruct (seps_reread h1 h4 _ _ F1 "parameters" (TDict pitems)
              (TDict (dict_set pitems "molecule" (molecule_for smile)))
              {[length h1]} Ss1) as (F' & HF' & Ss').
  { by rewrite dict_get_set_ne. }
  { intros v Fv Ev Sv HFv. rewrite dict_get_set_ne in Ev by done.
    rewrite Eg in Ev. injection Ev as <-.
    inversion Sv as [| | | |lp' pvs' its Fq2 Hlp' Hsq2 Hnq2|]; subst its Fv.
    split.
    - destruct Sp' as (Fp' & Sp4 & HFp').
      rewrite Hlp in Hlp'. injection Hlp' as <-.
      (* the footprint found by inversion is the one of the copy *)
      assert (Sq4 : seps (entry h4) pvs pitems Fq2).
      { eapply seps_frame; [exact Hsq2|]. intros l Hl.
        assert (Hin0 : l ∈ F0) by set_solver. apply Hag.
        - apply BF in Hin0. lia.
        - intros ->. done.
        - intros ->. done. }
      destruct (seps_set _ _ _ _ "molecule" _ _ _ Sq4 Sm) as (Fq' & HFq' & Sq').
      { intros l H1 H2. assert (Hin0 : l ∈ F0) by set_solver. apply BF in Hin0.
        set_solver by lia. }
      exists ({[lp]} ∪ Fq'). split; [|set_solver].
      eapply shape_dict; [exact H4lp|exact Sq'|].
      intros Hin. apply HFq' in Hin. set_solver by lia.
    - intros l Hl Hnl. assert (Hin0 : l ∈ F0) by set_solver. apply Hag.
      + apply BF in Hin0. lia.
      + intros ->. done.
      + intros ->. set_solver. }
  { intros l H1 H2. assert (Hin0 : l ∈ F0) by set_solver. apply BF in Hin0. set_solver by lia. }
  assert (S4 : shape h4 (VRef l0)
                 (customised (TDict items) smile smile_name) ({[l0]} ∪ F')).
  { rewrite (customised_dict _ _ _ _ Hp).
    eapply shape_dict; [exact H4l0|exact Ss'|].
    intros Hin. apply HF' in Hin. set_solver by lia. }
  destruct (shape_value _ _ _ _ S4) as [V4 L4].
  assert (B4 : ∀ l, l ∈ locs_of h4 (VRef l0) → (length h ≤ l)%nat).
  { intros l Hl. apply L4 in Hl.
    assert (Hh : (length h ≤ length h1)%nat) by (rewrite E1, length_app; lia).
    apply elem_of_union in Hl as [Hl|Hl].
    - apply elem_of_singleton in Hl as ->. apply (B1 l0). set_solver.
    - apply HF' in Hl. apply elem_of_union in Hl as [Hl|Hl].
      + apply HF1 in Hl. assert (Hin0 : l ∈ F0) by set_solver. apply BF in Hin0. lia.
      + apply elem_of_singleton in Hl as ->. lia. }
  (* the older objects *)
  assert (Hold : ∀ l, (l < length h)%nat → h4 !! l = h !! l).
  { intros l Hl. rewrite Hag.
    - rewrite E1. by apply lookup_app_l.
    - rewrite E1, length_app. lia.
    - intros ->. assert (Hin : l0 ∈ ({[l0]} ∪ F0 : gset nat)) by set_solver.
      apply B1 in Hin. lia.
    - intros ->. assert (Hin0 : lp ∈ F0) by set_solver. apply BF in Hin0. lia. }
  destruct (value_of_agree h h4 tmpl _ Hv Hold) as (Vt & Lt & Bt).
  { rewrite Hlen, E1, length_app. lia. }
  exists (VRef l0), h4. split; [|split; [exact V4|split; [exact Vt|split; [exact Hold|split]]]].
  - eapply (tmp_job_params_steps tmpl smile smile_name h items l0 h1 vs lp pvs); done.
  - intros l o Hl. destruct (value_of_update h4 tmpl l o) as [-> _]; [|done].
    rewrite Lt. intros Hc. apply Bt in Hc. apply B4 in Hl. lia.
  - intros l o Hl. destruct (value_of_update h4 (VRef l0) l o) as [-> _]; [|done].
    rewrite Lt in Hl. intros Hc. apply Bt in Hl. apply B4 in Hc. lia.
Qed.

(** The nesting depth of a content. *)
Fixpoint depth (t : tree) : nat :=
  match t with
  | TDict items =>
      S ((fix go (l : list (string * tree)) : nat :=
            match l with
            | [] => 0%nat
            | (_, t) :: r => Nat.max (depth t) (go r)
            end) items)
  | TList elems =>
      S ((fix go (l : list tree) : nat :=
            match l with
            | [] => 0%nat
            | t :: r => Nat.max (depth t) (go r)
            end) elems)
  | _ => 0%nat
  end.

(** A display writes every key of a dict once. *)
Fixpoint distinct_keys (t : tree) : bool :=
  match t with
  | TDict items =>
      bool_decide (NoDup items.*1) &&
      (fix go (l : list (string * tree)) : bool :=
         match l with
         | [] => true
         | (_, t) :: r => distinct_keys t && go r
         end) items
  | TList elems =>
      (fix go (l : list tree) : bool :=
         match l with
         | [] => true
         | t :: r => distinct_keys t && go r
         end) elems
  | _ => true
  end.

(** [copy.deepcopy] recurses once per level of nesting, and Python bounds
    the recursion (1000 frames unless set otherwise, of which a level takes
    two).  Up to this depth the copy is made; deeper values are not
    considered. *)
Definition copy_depth : nat := 100.

(** A display evaluates to a value that reads as the display, also when
    other objects are allocated after it. *)
Lemma alloc_value t h0 ext :
  value_of ((alloc t h0).2 ++ ext) (alloc t h0).1 = Some t.
Proof.
  destruct (alloc_shape t h0) as (F & ext1 & E1 & S1 & B1).
  assert (S2 : shape ((alloc t h0).2 ++ ext) (alloc t h0).1 t F).
  { eapply shape_frame; [exact S1|]. intros l Hl. apply lookup_app_l.
    apply B1 in Hl. lia. }
  by destruct (shape_value _ _ _ _ S2).
Qed.

(** X10: the template written as any other display of literals, with
    every key of a dict written once, a dict that holds a dict under
    [parameters], nested no deeper than [copy.deepcopy] follows: the copy is
    made, it reads as the template with
    [name] and [parameters.molecule] replaced (a key that was missing is added
    at the end), the template and every older object are as before, and the
    copy and the template share no object: replacing an object one of them
    reaches does not change what the other reads as. *)
Theorem copy_of_any_template items pitems h0 ext smile smile_name :
  dict_get items "parameters" = Some (TDict pitems) →
  distinct_keys (TDict items) = true →
  (depth (TDict items) ≤ copy_depth)%nat →
  ∃ tmp h',
    tmp_job_params (alloc (TDict items) h0).1 smile smile_name
                   ((alloc (TDict items) h0).2 ++ ext) = Ok (tmp, h') ∧
    value_of h' tmp = Some (customised (TDict items) smile smile_name) ∧
    value_of h' (alloc (TDict items) h0).1 = Some (TDict items) ∧
    (∀ l, (l < length ((alloc (TDict items) h0).2 ++ ext))%nat →
          h' !! l = ((alloc (TDict items) h0).2 ++ ext) !! l) ∧
    (∀ l o, l ∈ locs_of h' tmp →
            value_of (<[l := o]> h') (alloc (TDict items) h0).1 = Some (TDict items)) ∧
    (∀ l o, l ∈ locs_of h' (alloc (TDict items) h0).1 →
            value_of (<[l := o]> h') tmp
            = Some (customised (TDict items) smile smile_name)).
Proof.
  intros Hp _ _.
  apply (tmp_job_params_any _ _ items pitems); [apply alloc_value|exact Hp].
Qed.

(** What lines 127-132 do to a template that reads as [t]. *)
Lemma tmp_job_params_unfit h tmpl t smile smile_name :
  value_of h tmpl = Some t →
  match t with
  | TDict items =>
      match dict_get items "parameters" with
      | Some (TDict _) => ∃ r, tmp_job_params tmpl smile smile_name h = Ok r
      | Some _ => tmp_job_params tmpl smile smile_name h = Raised TypeError
      | None => tmp_job_params tmpl smile smile_name h = Raised (KeyError "parameters")
      end
  | _ => tmp_job_params tmpl smile smile_name h = Raised TypeError
  end.
Proof.
  intros Hv.
  destruct t as [s|z|m e|b|items|elems];
    try (unfold tmp_job_params, deepcopy; rewrite Hv; reflexivity).
  - destruct (dict_get items "parameters") as [tp|] eqn:Hp.
    + destruct (alloc_shape (TDict items) h) as (F & ext1 & E1 & S1 & B1).
      destruct (alloc (TDict items) h) as [v h1] eqn:Ea. cbn [fst snd] in *.
      inversion S1 as [| | | |l0 vs its F0 Hl0 Hsep Hn0|]; subst v its F.
      change (seps (entry h1) vs items F0) in Hsep.
      destruct (seps_get_some _ _ _ _ _ _ Hsep Hp) as (vp & Fp & Eg & Sp & HFp).
      pose proof (lookup_lt_Some _ _ _ Hl0) as Hlt0.
      assert (Hstep : ∀ r,
        (let h3 := <[l0 := ODict (dict_set vs "name"
                                    (VStr (smile_name +:+ "_api_conformer-search")))]> h1
                   ++ [ODict [("base64data", VStr (base64encode smile));
                              ("filetype", VStr "smi")]] in
         match setitem h3 vp "molecule" (VRef (length h1)) with
         | Raised e => Raised e
         | Ok h4 => Ok (VRef l0, h4)
         end) = r →
        tmp_job_params tmpl smile smile_name h = r).
      { intros r <-. unfold tmp_job_params, deepcopy. rewrite Hv, Ea.
        cbn [setitem]. rewrite Hl0.
        rewrite alloc_dict. cbn [alloc_items alloc fst snd]. rewrite length_insert.
        cbn [getitem]. rewrite lookup_app_l by (by rewrite length_insert).
        rewrite list_lookup_insert_eq by done.
        rewrite dict_get_set_ne by done. rewrite Eg. done. }
      destruct tp as [s|z|m e|b|pitems|pelems];
        try (inversion Sp; subst; by apply Hstep).
      * destruct (tmp_job_params_any h tmpl items pitems smile smile_name Hv Hp)
          as (tmp & h' & E & _). by exists (tmp, h').
      * inversion Sp as [| | | | |lq qvs els Fq Hlq Hsq Hnq]; subst vp els Fp.
        apply Hstep. cbn [setitem].
        assert (lq ≠ l0) by (intros ->; set_solver).
        rewrite lookup_app_l
          by (rewrite length_insert; by eapply lookup_lt_Some).
        rewrite list_lookup_insert_ne by done. by rewrite Hlq.
    + destruct (alloc_shape (TDict items) h) as (F & ext1 & E1 & S1 & B1).
      destruct (alloc (TDict items) h) as [v h1] eqn:Ea. cbn [fst snd] in *.
      inversion S1 as [| | | |l0 vs its F0 Hl0 Hsep Hn0|]; subst v its F.
      change (seps (entry h1) vs items F0) in Hsep.
      pose proof (seps_get_none _ _ _ _ _ Hsep Hp) as Eg.
      pose proof (lookup_lt_Some _ _ _ Hl0) as Hlt0.
      unfold tmp_job_params, deepcopy. rewrite Hv, Ea.
      cbn [setitem]. rewrite Hl0.
      rewrite alloc_dict. cbn [alloc_items alloc fst snd]. rewrite length_insert.
      cbn [getitem]. rewrite lookup_app_l by (by rewrite length_insert).
      rewrite list_lookup_insert_eq by done.
      rewrite dict_get_set_ne by done. by rewrite Eg.
  - unfold tmp_job_params, deepcopy. rewrite Hv, alloc_list. cbn [setitem].
    by rewrite list_lookup_middle.
Qed.

(** X11: a template that cannot be customised, written as a display of
    literals with every key of a dict written once, nested no deeper than
    [copy.deepcopy] follows.  If it is not a
    dict, or what it holds under [parameters] is not a dict, the copy is made
    and the assignment raises [TypeError]; if it is a dict without the key
    [parameters], line 129 raises [KeyError]. *)
Theorem copy_of_unfit_template t h0 ext smile smile_name :
  distinct_keys t = true →
  (depth t ≤ copy_depth)%nat →
  match t with
  | TDict items =>
      match dict_get items "parameters" with
      | Some (TDict _) =>
          ∃ r, tmp_job_params (alloc t h0).1 smile smile_name ((alloc t h0).2 ++ ext) = Ok r
      | Some _ =>
          tmp_job_params (alloc t h0).1 smile smile_name ((alloc t h0).2 ++ ext)
          = Raised TypeError
      | None =>
          tmp_job_params (alloc t h0).1 smile smile_name ((alloc t h0).2 ++ ext)
          = Raised (KeyError "parameters")
      end
  | _ =>
      tmp_job_params (alloc t h0).1 smile smile_name ((alloc t h0).2 ++ ext)
      = Raised TypeError
  end.
Proof.
  intros _ _.
  pose proof (tmp_job_params_unfit _ _ _ smile smile_name (alloc_value t h0 ext)) as H.
  by destruct t.
Qed.

End AnyTemplate.

(** ** Further properties: what is printed *)

Section Printed.
Context `{sdk : Sdk}.
Import Py.

(** The lines printed, in order. *)
Definition printed (tr : list event) : list line :=
  omap (λ ev, match ev with EvPrint l => Some l | _ => None end) tr.

(** The workflows of the accepted submissions, in order. *)
Definition accepted_workflows (tr : list event) : list Workflow :=
  omap (λ ev, match ev with EvSubmit _ (Ok wf) => Some wf | _ => None end) tr.

Definition submitted_line (wf : Workflow) : line :=
  LineSubmitted (wf_name wf) (wf_id wf).

Lemma printed_app tr1 tr2 : printed (tr1 ++ tr2) = printed tr1 ++ printed tr2.
Proof. apply omap_app. Qed.

Lemma accepted_workflows_app tr1 tr2 :
  accepted_workflows (tr1 ++ tr2) = accepted_workflows tr1 ++ accepted_workflows tr2.
Proof. apply omap_app. Qed.

Lemma submit_trace_printed inputs : ∀ w,
  printed (submit_trace inputs w).2
  = submitted_line <$> accepted_workflows (submit_trace inputs w).2.
Proof.
  induction inputs as [|[s n] rest IH]; intros w; cbn [submit_trace]; [done|].
  destruct (CreateConformerSearchWorkflowRequest _) as [req|e]; [|done].
  destruct (submit req w) as [[wf|e] w1]; [|done].
  specialize (IH w1). destruct (submit_trace rest w1) as [[r w2] tr].
  cbn [snd] in *.
  match goal with |- context [printed (?a :: ?b :: tr)] =>
    change (a :: b :: tr) with ([a; b] ++ tr) end.
  by rewrite printed_app, accepted_workflows_app, IH.
Qed.

Lemma accepted_workflows_ok inputs : ∀ w wfs,
  (submit_trace inputs w).1.1 = Ok wfs →
  accepted_workflows (submit_trace inputs w).2 = wfs.
Proof.
  induction inputs as [|[s n] rest IH]; intros w wfs; cbn [submit_trace].
  - by intros [= <-].
  - destruct (CreateConformerSearchWorkflowRequest _) as [req|e]; [|done].
    destruct (submit req w) as [[wf|e] w1]; [|done].
    specialize (IH w1). destruct (submit_trace rest w1) as [[r w2] tr].
    cbn [fst snd] in *. destruct r as [wfs'|e]; [|done]. intros [= <-].
    match goal with |- context [accepted_workflows (?a :: ?b :: tr)] =>
      change (a :: b :: tr) with ([a; b] ++ tr) end.
    rewrite accepted_workflows_app, (IH wfs' eq_refl). done.
Qed.

Lemma about_blocks_printed ids blocks :
  Forall2 (λ id blk, Forall (λ e, about id e = true) blk) ids blocks →
  accepted_workflows (concat blocks) = [] ∧
  Forall (λ l, match l with LineSubmitted _ _ => False | _ => True end)
         (printed (concat blocks)).
Proof.
  induction 1 as [|id blk ids blocks Hb _ [IH1 IH2]]; [by split|].
  cbn [concat]. rewrite accepted_workflows_app, printed_app, IH1.
  assert (K : accepted_workflows blk = [] ∧
              Forall (λ l, match l with LineSubmitted _ _ => False | _ => True end)
                     (printed blk)).
  { clear -Hb. induction Hb as [|e r He _ [I1 I2]]; [by split|].
    destruct e as [| | | | | | |[]]; try done; cbn in *; split; try done;
      by constructor. }
  destruct K as [-> K2]. split; [done|]. by apply Forall_app.
Qed.

(** X12: every accepted submission is announced at once, with the name
    and the identifier the service returned, in the order of submission; a
    rejected submission prints nothing, and nothing else is printed before the
    second loop starts. *)
Theorem submissions_are_announced env SMILES SMILES_Names w fs :
  ∃ later,
    printed (trace (run env SMILES SMILES_Names w fs).2)
    = (submitted_line <$> accepted_workflows (trace (run env SMILES SMILES_Names w fs).2))
      ++ later ∧
    Forall (λ l, match l with LineSubmitted _ _ => False | _ => True end) later ∧
    ((run env SMILES SMILES_Names w fs).1 = Ok tt →
       length (accepted_workflows (trace (run env SMILES SMILES_Names w fs).2))
       = length (zip SMILES SMILES_Names)).
Proof.
  assert (Hpre : printed (prelude_events fs) = [] ∧
                 accepted_workflows (prelude_events fs) = []).
  { unfold prelude_events. by destruct (Fs.path_exists fs foldername). }
  destruct Hpre as [P1 P2].
  destruct (run_cases env SMILES SMILES_Names w fs) as (h' & ->).
  destruct (PromethiumClient w) as [[u|e] w0]; cbn [fst snd trace].
  2:{ exists []. rewrite P1, P2. split; [done|]. split; [constructor|done]. }
  pose proof (submit_trace_printed (zip SMILES SMILES_Names) w0) as Hp.
  pose proof (submit_trace_ok (zip SMILES SMILES_Names) w0) as Hok.
  pose proof (accepted_workflows_ok (zip SMILES SMILES_Names) w0) as Hacc.
  destruct (submit_trace _ w0) as [[[wfs|e] w1] tr]; cbn [fst snd trace] in *.
  - destruct (collect_loop_blocks (λ _, True)
                (λ id blk, Forall (λ e, about id e = true) blk)) with
      (ids := wf_id <$> wfs)
      (st := mkState h' w1 (prelude_files fs) (prelude_events fs ++ tr))
      as (_ & blocks & -> & Hb & _); [|done|].
    { intros id st _. split; [done|].
      destruct (collect_about id st) as (blk & E & Ha & _). eauto. }
    cbn [trace]. destruct (about_blocks_printed _ _ Hb) as [A1 A2].
    exists (printed (concat blocks)).
    rewrite !printed_app, !accepted_workflows_app, P1, P2, A1, Hp, app_nil_r.
    split; [done|]. split; [done|]. intros _.
    destruct (Hok wfs eq_refl) as [_ <-]. by rewrite (Hacc wfs eq_refl).
  - exists []. rewrite !printed_app, !accepted_workflows_app, P1, P2, Hp, app_nil_r.
    split; [done|]. split; [constructor|done].
Qed.

End Printed.

(** ** More concrete runs *)

Module Cases.
Import Py.

(** The accepting service with another [wait], or another serializer. *)
Definition with_wait (wait' : string → list Workflow → outcome unit * list Workflow) : Sdk := {|
  World := list Workflow;
  Request := tree;
  WorkflowResult := string;
  Artifact := string;
  base64encode := @base64encode Mock.accepting;
  CreateConformerSearchWorkflowRequest := @CreateConformerSearchWorkflowRequest Mock.accepting;
  PromethiumClient := @PromethiumClient Mock.accepting;
  submit := @submit Mock.accepting;
  wait := wait';
  get := @get Mock.accepting;
  results := @results Mock.accepting;
  model_dump_json := @model_dump_json Mock.accepting;
  get_artifact := @get_artifact Mock.accepting
|}.

Definition with_dump (dump : string → outcome string) : Sdk := {|
  World := list Workflow;
  Request := tree;
  WorkflowResult := string;
  Artifact := string;
  base64encode := @base64encode Mock.accepting;
  CreateConformerSearchWorkflowRequest := @CreateConformerSearchWorkflowRequest Mock.accepting;
  PromethiumClient := @PromethiumClient Mock.accepting;
  submit := @submit Mock.accepting;
  wait := @wait Mock.accepting;
  get := @get Mock.accepting;
  results := @results Mock.accepting;
  model_dump_json := dump;
  get_artifact := @get_artifact Mock.accepting
|}.

(** A service whose [wait] times out. *)
Definition timing_out : Sdk :=
  with_wait (λ _ w, (Raised (SdkError "timed out"), w)).

(** A service whose results cannot be serialized. *)
Definition unserializable : Sdk :=
  with_dump (λ _, Raised (SdkError "not serializable")).

(** A service that answers every call, whatever is asked. *)
Definition calm : Sdk := {|
  World := unit;
  Request := unit;
  WorkflowResult := unit;
  Artifact := unit;
  base64encode := λ s, s;
  CreateConformerSearchWorkflowRequest := λ _, Ok tt;
  PromethiumClient := λ w, (Ok tt, w);
  submit := λ _ w, (Ok (mkWorkflow "job" "job" Running (0, 0)%Z), w);
  wait := λ _ w, (Ok tt, w);
  get := λ _ w, (Ok (mkWorkflow "job" "job" Completed (0, 0)%Z), w);
  results := λ _ w, (Ok tt, w);
  model_dump_json := λ _, Ok "{}";
  get_artifact := λ _ _, Ok tt
|}.

Lemma calm_quiet : @quiet calm.
Proof.
  split; intros; cbn; eauto. eexists. split; [reflexivity|].
  split; [reflexivity|]. split; [reflexivity|]. apply Nat.leb_le. reflexivity.
Qed.

(** The state between the two loops for one input labelled [a/b]. *)
Definition slash_state : @state Mock.accepting :=
  (@submission Mock.accepting ∅ ["C"] ["a/b"] (@initial Mock.accepting Runs.idle ∅)).2.

Definition slash_id : string := "wf-a/b_api_conformer-search".

Definition slash_workflow : Workflow :=
  mkWorkflow slash_id "a/b_api_conformer-search" Completed (125, -2)%Z.

(** A working directory that holds an older result file. *)
Definition old_results : Fs.t :=
  Fs.store ["output"; "Diethyl_Ether_api_conformer-search_results.json"]
           (Fs.File "old results") (Fs.store ["output"] Fs.Dir ∅).

Definition dump_state : @state unserializable :=
  (@submission unserializable ∅ ["CCOCC"] ["Diethyl_Ether"]
     (@initial unserializable Runs.idle old_results)).2.

Definition dump_workflow : Workflow :=
  mkWorkflow Runs.first_id "Diethyl_Ether_api_conformer-search" Completed (125, -2)%Z.

(** A small template without the key [name]. *)
Definition small_template : tree :=
  TDict [("parameters", TDict [("molecule", TDict [])]); ("kind", TStr "ConformerSearch")].

Definition slash_world : list Workflow := [slash_workflow].

Definition dump_world : list Workflow := [dump_workflow].

Definition dump_path : string := "output/Diethyl_Ether_api_conformer-search_results.json".

Definition dump_place : Fs.loc :=
  ["output"; "Diethyl_Ether_api_conformer-search_results.json"].

(** A working directory two levels below the root. *)
Definition home : Fs.t :=
  Fs.store ["home"; "user"] Fs.Dir (Fs.store ["home"] Fs.Dir (Fs.mk ["home"; "user"] ∅)).

(** A label of 300 bytes. *)
Definition long_label : string := fold_right String EmptyString (replicate 300 "n"%char).

(** A service whose [wait] times out: the first wait is the sixth and
    last event. *)
Lemma first_failure_witness :
  (@run timing_out ∅ Mock.SMILES Mock.SMILES_Names Runs.idle ∅).1
    = Raised (SdkError "timed out") ∧
  length (trace (@run timing_out ∅ Mock.SMILES Mock.SMILES_Names Runs.idle ∅).2) = 6%nat.
Proof.
  apply (@first_failure_ends_run timing_out ∅ Mock.SMILES Mock.SMILES_Names Runs.idle ∅
           5 (EvWait Runs.first_id (Raised (SdkError "timed out")))
           (SdkError "timed out")).
  - vm_cast_no_check
      (@eq_refl (option (@event timing_out))
         (Some (EvWait Runs.first_id (Raised (SdkError "timed out"))))).
  - reflexivity.
Defined.

(** The first result file of the script's inputs is a place that
    changed. *)
Lemma only_output_witness :
  Fs.cwd (files (@run Mock.accepting ∅ Mock.SMILES Mock.SMILES_Names Runs.idle ∅).2)
    = Fs.cwd ∅ ∧
  (dump_place = output_dir ∅ ∨
   ∃ name,
     EvOpen (result_path name) (Ok tt)
       ∈ trace (@run Mock.accepting ∅ Mock.SMILES Mock.SMILES_Names Runs.idle ∅).2 ∧
     Fs.locate (files (@run Mock.accepting ∅ Mock.SMILES Mock.SMILES_Names Runs.idle ∅).2)
               (result_path name) = Ok dump_place ∧
     (Fs.contains "/" name = false →
      dump_place = output_dir ∅ ++ [name +:+ "_results.json"])).
Proof.
  apply (@only_output_is_touched Mock.accepting ∅ Mock.SMILES Mock.SMILES_Names
           Runs.idle ∅ dump_place).
  intros H. vm_compute in H. discriminate H.
Defined.

(** A label with [../] in it: the result file is written into the
    working directory, not into [output]. *)
Example dotdot_leaves_output :
  (@run Mock.accepting ∅ ["C"] ["../x"] Runs.idle home).1 = Ok tt ∧
  Fs.entries (files (@run Mock.accepting ∅ ["C"] ["../x"] Runs.idle home).2)
    !! ["home"; "user"; "x_api_conformer-search_results.json"]
    = Some (Fs.File "conformers of ../x_api_conformer-search") ∧
  Fs.entries (files (@run Mock.accepting ∅ ["C"] ["../x"] Runs.idle home).2)
    !! ["home"; "user"; "output"] = Some Fs.Dir.
Proof. repeat split; vm_compute; reflexivity. Qed.

(** The label [a/b]: the file would go to [output/a], which is not there. *)
Lemma slash_witness :
  (@collect Mock.accepting slash_id slash_state).1
    = Raised (FileNotFoundError (result_path (wf_name slash_workflow))) ∧
  files (@collect Mock.accepting slash_id slash_state).2 = files slash_state ∧
  trace (@collect Mock.accepting slash_id slash_state).2 = trace slash_state ++
    [@EvWait Mock.accepting slash_id (Ok tt);
     @EvGet Mock.accepting slash_id (Ok slash_workflow);
     @EvPrint Mock.accepting
       (LineCompleted (wf_name slash_workflow) (wf_status slash_workflow));
     @EvPrint Mock.accepting (LineDuration (wf_duration_seconds slash_workflow));
     @EvResults Mock.accepting slash_id (Ok "conformers of a/b_api_conformer-search");
     @EvOpen Mock.accepting (result_path (wf_name slash_workflow))
       (Raised (FileNotFoundError (result_path (wf_name slash_workflow))))].
Proof.
  apply (@slash_in_name_fails Mock.accepting slash_id slash_state slash_world
           slash_workflow slash_world "conformers of a/b_api_conformer-search"
           slash_world "a" "b_api_conformer-search").
  - vm_cast_no_check
      (@eq_refl (outcome unit * list Workflow) (Ok tt, slash_world)).
  - vm_cast_no_check
      (@eq_refl (outcome Workflow * list Workflow) (Ok slash_workflow, slash_world)).
  - vm_cast_no_check
      (@eq_refl (outcome string * list Workflow)
         (Ok "conformers of a/b_api_conformer-search", slash_world)).
  - reflexivity.
  - reflexivity.
  - reflexivity.
  - apply Nat.ltb_lt. vm_compute. reflexivity.
  - vm_cast_no_check (@eq_refl (option Fs.entry) (Some Fs.Dir)).
  - vm_cast_no_check (@eq_refl (option Fs.entry) None).
Defined.

(** The label [a/b] where [output] is a regular file: the file on the way
    is reported, not the missing directory. *)
Example slash_under_file :
  (@run Mock.accepting ∅ ["C"] ["a/b"] Runs.idle Runs.output_is_file).1
    = Raised (NotADirectoryError "output/a/b_api_conformer-search_results.json").
Proof. vm_compute. reflexivity. Qed.

(** A label of 300 bytes in an empty working directory: the file name is
    too long. *)
Example long_name_fails :
  (@run Mock.accepting ∅ ["C"] [long_label] Runs.idle ∅).1
    = Raised (FileNameTooLong (result_path (long_label +:+ "_api_conformer-search"))).
Proof. vm_compute. reflexivity. Qed.

(** An older result file and a result that cannot be serialized: the
    file is left empty. *)
Lemma failed_dump_witness :
  (@collect unserializable Runs.first_id dump_state).1
    = Raised (SdkError "not serializable") ∧
  files (@collect unserializable Runs.first_id dump_state).2
    = Fs.store dump_place (Fs.File EmptyString) (files dump_state) ∧
  Fs.read (result_path (wf_name dump_workflow))
          (files (@collect unserializable Runs.first_id dump_state).2)
    = Some EmptyString ∧
  Forall (λ ev, match ev with EvWrite _ _ => False | _ => True end)
         (drop (length (trace dump_state))
               (trace (@collect unserializable Runs.first_id dump_state).2)).
Proof.
  apply (@failed_dump_leaves_empty_file unserializable Runs.first_id dump_state
           dump_world dump_workflow dump_world
           "conformers of Diethyl_Ether_api_conformer-search" dump_world
           dump_place (Fs.store dump_place (Fs.File EmptyString) old_results)
           (SdkError "not serializable")).
  - vm_cast_no_check
      (@eq_refl (outcome unit * list Workflow) (Ok tt, dump_world)).
  - vm_cast_no_check
      (@eq_refl (outcome Workflow * list Workflow) (Ok dump_workflow, dump_world)).
  - vm_cast_no_check
      (@eq_refl (outcome string * list Workflow)
         (Ok "conformers of Diethyl_Ether_api_conformer-search", dump_world)).
  - vm_cast_no_check
      (@eq_refl (outcome (Fs.loc * Fs.t))
         (Ok (dump_place, Fs.store dump_place (Fs.File EmptyString) old_results))).
  - reflexivity.
Defined.

Example old_results_are_lost :
  Fs.read dump_path (files dump_state) = Some "old results" ∧
  Fs.read dump_path (files (@collect unserializable Runs.first_id dump_state).2)
    = Some EmptyString.
Proof. split; vm_compute; reflexivity. Qed.

(** The script's two inputs against the accepting service. *)
Lemma last_write_witness :
  length (writes (trace (@run Mock.accepting ∅ Mock.SMILES Mock.SMILES_Names
                           Runs.idle ∅).2))
    = length (zip Mock.SMILES Mock.SMILES_Names) ∧
  (∀ k p text,
     writes (trace (@run Mock.accepting ∅ Mock.SMILES Mock.SMILES_Names
                      Runs.idle ∅).2) !! k = Some (p, text) →
     ∃ l, Fs.locate (files (@run Mock.accepting ∅ Mock.SMILES Mock.SMILES_Names
                              Runs.idle ∅).2) p = Ok l ∧
          ((∀ j p' t', (k < j)%nat →
              writes (trace (@run Mock.accepting ∅ Mock.SMILES Mock.SMILES_Names
                               Runs.idle ∅).2) !! j = Some (p', t') →
              Fs.locate (files (@run Mock.accepting ∅ Mock.SMILES Mock.SMILES_Names
                                  Runs.idle ∅).2) p' ≠ Ok l) →
           Fs.read p (files (@run Mock.accepting ∅ Mock.SMILES Mock.SMILES_Names
                               Runs.idle ∅).2) = Some text)) ∧
  (∀ fs' a b l,
     Fs.contains "/" a = false → Fs.contains "/" b = false →
     Fs.locate fs' (result_path a) = Ok l → Fs.locate fs' (result_path b) = Ok l →
     a = b).
Proof.
  apply (@last_write_wins Mock.accepting ∅ Mock.SMILES Mock.SMILES_Names Runs.idle ∅).
  vm_cast_no_check (@eq_refl (outcome unit) (Ok tt)).
Defined.

(** The labels [x] and [./x] spell one place: the second result replaces
    the first, under either path. *)
Example same_place_twice :
  (@run Mock.accepting ∅ ["C"; "CC"] ["x"; "./x"] Runs.idle ∅).1 = Ok tt ∧
  length (writes (trace (@run Mock.accepting ∅ ["C"; "CC"] ["x"; "./x"] Runs.idle ∅).2))
    = 2%nat ∧
  Fs.read "output/x_api_conformer-search_results.json"
          (files (@run Mock.accepting ∅ ["C"; "CC"] ["x"; "./x"] Runs.idle ∅).2)
    = Some "conformers of ./x_api_conformer-search" ∧
  Fs.read "output/./x_api_conformer-search_results.json"
          (files (@run Mock.accepting ∅ ["C"; "CC"] ["x"; "./x"] Runs.idle ∅).2)
    = Some "conformers of ./x_api_conformer-search".
Proof. repeat split; vm_compute; reflexivity. Qed.

(** The calm service, the script's inputs, an empty working directory. *)
Lemma quiet_run_witness :
  (@run calm ∅ Mock.SMILES Mock.SMILES_Names tt ∅).1 = Ok tt.
Proof.
  apply (@quiet_run_ends_normally calm ∅ Mock.SMILES Mock.SMILES_Names tt ∅ calm_quiet).
  - intros c. discriminate.
  - intros name. discriminate.
Defined.

(** Two SMILES strings and no label. *)
Lemma no_pairs_witness :
  trace (@run Mock.accepting ∅ Mock.SMILES [] Runs.idle ∅).2 = prelude_events ∅ ∧
  files (@run Mock.accepting ∅ Mock.SMILES [] Runs.idle ∅).2 = prelude_files ∅ ∧
  world (@run Mock.accepting ∅ Mock.SMILES [] Runs.idle ∅).2
    = (@PromethiumClient Mock.accepting Runs.idle).2 ∧
  (@run Mock.accepting ∅ Mock.SMILES [] Runs.idle ∅).1 =
    match (@PromethiumClient Mock.accepting Runs.idle).1 with
    | Ok _ => Ok tt
    | Raised e => Raised e
    end.
Proof.
  apply (@no_pairs_no_calls Mock.accepting ∅ Mock.SMILES [] Runs.idle ∅).
  right. reflexivity.
Defined.

(** The small template: [name] is added at the end. *)
Lemma copy_witness :
  ∃ tmp h',
    @tmp_job_params Mock.accepting (alloc small_template []).1 "CCOCC" "Diethyl_Ether"
      ((alloc small_template []).2 ++ []) = Ok (tmp, h') ∧
    value_of h' tmp
      = Some (@customised Mock.accepting
                (TDict [("parameters", TDict [("molecule", TDict [])]);
                        ("kind", TStr "ConformerSearch")]) "CCOCC" "Diethyl_Ether") ∧
    value_of h' (alloc small_template []).1
      = Some (TDict [("parameters", TDict [("molecule", TDict [])]);
                     ("kind", TStr "ConformerSearch")]) ∧
    (∀ l, (l < length ((alloc small_template []).2 ++ []))%nat →
          h' !! l = ((alloc small_template []).2 ++ []) !! l) ∧
    (∀ l o, l ∈ locs_of h' tmp →
            value_of (<[l := o]> h') (alloc small_template []).1
            = Some (TDict [("parameters", TDict [("molecule", TDict [])]);
                           ("kind", TStr "ConformerSearch")])) ∧
    (∀ l o, l ∈ locs_of h' (alloc small_template []).1 →
            value_of (<[l := o]> h') tmp
            = Some (@customised Mock.accepting
                      (TDict [("parameters", TDict [("molecule", TDict [])]);
                              ("kind", TStr "ConformerSearch")])
                      "CCOCC" "Diethyl_Ether")).
Proof.
  apply (@copy_of_any_template Mock.accepting
           [("parameters", TDict [("molecule", TDict [])]);
            ("kind", TStr "ConformerSearch")]
           [("molecule", TDict [])] [] [] "CCOCC" "Diethyl_Ether").
  - reflexivity.
  - vm_compute. reflexivity.
  - apply Nat.leb_le. reflexivity.
Defined.

Example small_template_customised :
  @customised Mock.accepting small_template "CCOCC" "Diethyl_Ether" =
  TDict [("parameters",
          TDict [("molecule", TDict [("base64data", TStr "Q0NPQ0M=");
                                     ("filetype", TStr "smi")])]);
         ("kind", TStr "ConformerSearch");
         ("name", TStr "Diethyl_Ether_api_conformer-search")].
Proof. vm_compute. reflexivity. Qed.

(** A template without [parameters]. *)
Lemma unfit_witness :
  @tmp_job_params Mock.accepting (alloc (TDict [("name", TStr "x")]) []).1
    "CCOCC" "Diethyl_Ether" ((alloc (TDict [("name", TStr "x")]) []).2 ++ [])
  = Raised (KeyError "parameters").
Proof.
  apply (@copy_of_unfit_template Mock.accepting (TDict [("name", TStr "x")]) [] []
           "CCOCC" "Diethyl_Ether").
  - vm_compute. reflexivity.
  - apply Nat.leb_le. reflexivity.
Defined.

(** A service whose results hold no conformers. *)
Definition without_conformers : Sdk := {|
  World := list Workflow;
  Request := tree;
  WorkflowResult := string;
  Artifact := string;
  base64encode := @base64encode Mock.accepting;
  CreateConformerSearchWorkflowRequest := @CreateConformerSearchWorkflowRequest Mock.accepting;
  PromethiumClient := @PromethiumClient Mock.accepting;
  submit := @submit Mock.accepting;
  wait := @wait Mock.accepting;
  get := @get Mock.accepting;
  results := @results Mock.accepting;
  model_dump_json := @model_dump_json Mock.accepting;
  get_artifact := λ _ k, Raised (KeyError k)
|}.

Definition artifact_state : @state without_conformers :=
  (@submission without_conformers ∅ ["CCOCC"] ["Diethyl_Ether"]
     (@initial without_conformers Runs.idle ∅)).2.

(** No conformers in the result: the file is written all the same. *)
Lemma artifact_witness :
  (@collect without_conformers Runs.first_id artifact_state).1
    = Raised (KeyError "conformers") ∧
  Fs.read (result_path (wf_name dump_workflow))
          (files (@collect without_conformers Runs.first_id artifact_state).2)
    = Some "conformers of Diethyl_Ether_api_conformer-search" ∧
  last (trace (@collect without_conformers Runs.first_id artifact_state).2)
    = Some (@EvWrite without_conformers (result_path (wf_name dump_workflow))
              "conformers of Diethyl_Ether_api_conformer-search").
Proof.
  apply (@file_written_before_artifact without_conformers Runs.first_id artifact_state
           dump_world dump_workflow dump_world
           "conformers of Diethyl_Ether_api_conformer-search" dump_world
           dump_place
           (Fs.store dump_place (Fs.File EmptyString) (Fs.store ["output"] Fs.Dir ∅))).
  - vm_cast_no_check
      (@eq_refl (outcome unit * list Workflow) (Ok tt, dump_world)).
  - vm_cast_no_check
      (@eq_refl (outcome Workflow * list Workflow) (Ok dump_workflow, dump_world)).
  - vm_cast_no_check
      (@eq_refl (outcome string * list Workflow)
         (Ok "conformers of Diethyl_Ether_api_conformer-search", dump_world)).
  - vm_cast_no_check
      (@eq_refl (outcome (Fs.loc * Fs.t))
         (Ok (dump_place,
              Fs.store dump_place (Fs.File EmptyString) (Fs.store ["output"] Fs.Dir ∅)))).
  - reflexivity.
  - reflexivity.
Defined.

End Cases.
